(** * quantum-leap core: matrix_ops.cpp

    A shallow embedding of [core_cpp/src/matrix_ops.cpp] and the
    properties its specification states about it.

    - Single-precision floats are 32-bit patterns, as they sit in
    WebAssembly linear memory and in the lanes of a [v128_t].  An
    operation decodes its operands, computes with the IEEE-754
    operations of the Standard Library's [SpecFloat] at precision 24
    (round to nearest even, no fused multiply-add) and encodes the
    result.  [SpecFloat] has one NaN: in [F32] every NaN an operation
    produces is encoded as the canonical quiet NaN [0x7FC00000], which
    is also [std::numeric_limits<float>::quiet_NaN()].  [F32] tells
    what a call computes up to the pattern of a NaN.
    - The sign and the payload of a NaN result are the engine's
    choice.  [Bits] takes the choice as a parameter and repeats the
    arithmetic and the two loops of the batch transform over it.
    [F32] is [Bits] on the engine that always returns the canonical
    NaN ([CanonFacts]).  When the output batch misses the matrix, a
    call of [Bits] on any engine and the call of [F32] trap together,
    or return the same memory up to the pattern of the NaNs of the
    output batch ([BitsFacts.transform_points_batch_sim]).  What
    depends on the pattern of a NaN is stated on [Bits].
    - Linear memory is a finite map from addresses to patterns, one
    address per [float] cell; a [float *] is the address of a cell.
    An access outside of the map traps: the call has no result
    ([None]).
    - [int] counters are integers of [Z].  The contract [call_ok] of a
    call bounds the count so that no index the loops compute leaves
    the range of [int].
    - Eigen is vendored and not part of the file.  [FullPivLU] and
    [JacobiSVD] enter as interfaces; [maxCoeff] and the 3×3
    [determinant] are modelled from the specification. *)

From Equations Require Import Equations.
From stdpp Require Import base option list vector gmap.
From Stdlib Require Import ZArith Lia Bool FunctionalExtensionality.
From Stdlib Require Import Floats.SpecFloat.

Local Open Scope Z_scope.

(** ** Single-precision floats *)

Module F32.

Definition prec : Z := 24.
Definition emax : Z := 128.

(** A float is its bit pattern: sign (bit 31), biased exponent
    (bits 30..23), fraction (bits 22..0). *)
Definition f32 : Type := Z.

Definition sign_of (b : f32) : bool := Z.odd (b / 2 ^ 31).
Definition biased_exp (b : f32) : Z := (b / 2 ^ 23) mod 2 ^ 8.
Definition fraction (b : f32) : Z := b mod 2 ^ 23.

Definition decode (b : f32) : spec_float :=
  let s := sign_of b in
  let E := biased_exp b in
  let F := fraction b in
  if E =? 0 then
    match F with
    | Zpos p => S754_finite s p (-149)
    | _ => S754_zero s
    end
  else if E =? 255 then
    if F =? 0 then S754_infinity s else S754_nan
  else
    match F + 2 ^ 23 with
    | Zpos p => S754_finite s p (E - 150)
    | _ => S754_nan
    end.

Definition sign_bit (s : bool) : Z := if s then 2 ^ 31 else 0.

Definition quiet_NaN : f32 := 0x7FC00000.

Definition encode (x : spec_float) : f32 :=
  match x with
  | S754_zero s => sign_bit s
  | S754_infinity s => sign_bit s + 0x7F800000
  | S754_nan => quiet_NaN
  | S754_finite s m e =>
      let E := if Zpos m <? 2 ^ 23 then 0 else (e + 150) mod 2 ^ 8 in
      sign_bit s + E * 2 ^ 23 + Zpos m mod 2 ^ 23
  end.

Definition mul (a b : f32) : f32 := encode (SFmul prec emax (decode a) (decode b)).
Definition add (a b : f32) : f32 := encode (SFadd prec emax (decode a) (decode b)).
Definition sub (a b : f32) : f32 := encode (SFsub prec emax (decode a) (decode b)).
Definition div (a b : f32) : f32 := encode (SFdiv prec emax (decode a) (decode b)).

(** [fabs] clears the sign bit, whatever the pattern. *)
Definition abs (a : f32) : f32 := a mod 2 ^ 31.

Definition lt (a b : f32) : bool := SFltb (decode a) (decode b).
Definition ge (a b : f32) : bool := SFleb (decode b) (decode a).

Definition is_nan (a : f32) : bool :=
  match decode a with S754_nan => true | _ => false end.
Definition is_inf (a : f32) : bool :=
  match decode a with S754_infinity _ => true | _ => false end.
Definition is_finite (a : f32) : bool :=
  match decode a with S754_zero _ | S754_finite _ _ _ => true | _ => false end.

(** A 32-bit pattern. *)
Definition wf (a : f32) : Prop := 0 <= a < 2 ^ 32.
Definition wfb (a : f32) : bool := (0 <=? a) && (a <? 2 ^ 32).

Definition zero : f32 := 0.
Definition one : f32 := 0x3F800000.

(** The integer [k], and the quotient [k / d] of two integers, rounded
    to single precision: how a decimal literal such as [1e-6f] is
    read. *)
Definition of_Z (k : Z) : spec_float := binary_normalize prec emax k 0 false.
Definition literal (k d : Z) : f32 :=
  encode (SFdiv prec emax (of_Z k) (of_Z d)).

End F32.

Abbreviation f32 := F32.f32.

(** [const float MATRIX_INVERSE_EPSILON = 1e-7f;] *)
Definition MATRIX_INVERSE_EPSILON : f32 := 0x33D6BF95.
(** [const float MATRIX_SVD_EPSILON = 1e-6f;] *)
Definition MATRIX_SVD_EPSILON : f32 := 0x358637BD.

(** ** 128-bit vectors: four 32-bit lanes *)

Module Simd.

Record v128 : Type := V128 { lane0 : Z; lane1 : Z; lane2 : Z; lane3 : Z }.

Definition all_ones : Z := Z.ones 32.

Definition lanewise (f : Z -> Z -> Z) (a b : v128) : v128 :=
  V128 (f (lane0 a) (lane0 b)) (f (lane1 a) (lane1 b))
       (f (lane2 a) (lane2 b)) (f (lane3 a) (lane3 b)).

Definition wasm_f32x4_splat (x : f32) : v128 := V128 x x x x.

Definition wasm_f32x4_mul : v128 -> v128 -> v128 := lanewise F32.mul.
Definition wasm_f32x4_add : v128 -> v128 -> v128 := lanewise F32.add.
Definition wasm_f32x4_div : v128 -> v128 -> v128 := lanewise F32.div.

Definition wasm_f32x4_abs (a : v128) : v128 :=
  V128 (F32.abs (lane0 a)) (F32.abs (lane1 a))
       (F32.abs (lane2 a)) (F32.abs (lane3 a)).

(** A comparison sets every bit of a lane where it holds and clears
    the lane where it does not. *)
Definition wasm_f32x4_ge : v128 -> v128 -> v128 :=
  lanewise (fun a b => if F32.ge a b then all_ones else 0).

(** [wasm_v128_bitselect a b mask]: the bits of [a] where [mask] is
    set, the bits of [b] elsewhere. *)
Definition bitselect32 (a b mask : Z) : Z :=
  Z.lor (Z.land a mask) (Z.land b (Z.lxor mask all_ones)).

Definition wasm_v128_bitselect (a b mask : v128) : v128 :=
  V128 (bitselect32 (lane0 a) (lane0 b) (lane0 mask))
       (bitselect32 (lane1 a) (lane1 b) (lane1 mask))
       (bitselect32 (lane2 a) (lane2 b) (lane2 mask))
       (bitselect32 (lane3 a) (lane3 b) (lane3 mask)).

(** [wasm_i32x4_shuffle a b c0 c1 c2 c3]: lane [k] of the result is
    lane [ck] of the eight lanes of [a] followed by [b]. *)
Definition pick (a b : v128) (c : nat) : Z :=
  match c with
  | 0%nat => lane0 a | 1%nat => lane1 a | 2%nat => lane2 a | 3%nat => lane3 a
  | 4%nat => lane0 b | 5%nat => lane1 b | 6%nat => lane2 b | _ => lane3 b
  end.

Definition wasm_i32x4_shuffle (a b : v128) (c0 c1 c2 c3 : nat) : v128 :=
  V128 (pick a b c0) (pick a b c1) (pick a b c2) (pick a b c3).

End Simd.

Import Simd.

(** ** Linear memory *)

(** Memory maps the address of a float cell to the pattern stored
    there; [float *] pointers are cell addresses.  Cells outside of the
    map do not exist: reading or writing one traps. *)
Abbreviation mem := (gmap Z f32).

Definition load (m : mem) (p idx : Z) : option f32 := m !! (p + idx).

Definition store (m : mem) (p idx : Z) (v : f32) : option mem :=
  _ ← m !! (p + idx); Some (<[p + idx := v]> m).

(** [wasm_v128_load(&p[idx])] and [wasm_v128_store(&p[idx], v)]: four
    consecutive cells; a store that would leave memory writes nothing. *)
Definition wasm_v128_load (m : mem) (p idx : Z) : option v128 :=
  a ← load m p idx; b ← load m p (idx + 1);
  c ← load m p (idx + 2); d ← load m p (idx + 3);
  Some (V128 a b c d).

Definition wasm_v128_store (m : mem) (p idx : Z) (v : v128) : option mem :=
  _ ← load m p idx; _ ← load m p (idx + 1);
  _ ← load m p (idx + 2); _ ← load m p (idx + 3);
  Some (<[p + (idx + 3) := lane3 v]> (<[p + (idx + 2) := lane2 v]>
       (<[p + (idx + 1) := lane1 v]> (<[p + idx := lane0 v]> m)))).

(** [Map<const Matrix3f> M(ptr)]: Eigen stores column-major, so
    [M(r, c)] is cell [r + 3 * c] of the view. *)
Definition coeff (m : mem) (matrix_ptr : Z) (r c : Z) : option f32 :=
  load m matrix_ptr (r + 3 * c).

(** The cells [p .. p + n - 1] as a fixed-size Eigen object. *)
Fixpoint load_vec (m : mem) (p : Z) (n : nat) : option (vec f32 n) :=
  match n with
  | O => Some [#]
  | S k => x ← m !! p; xs ← load_vec m (p + 1) k; Some (x ::: xs)
  end.

(** Assignment through a mutable [Map]: the cells [p ..] take the
    coefficients in storage order. *)
Fixpoint store_list (m : mem) (p : Z) (l : list f32) : option mem :=
  match l with
  | [] => Some m
  | x :: l' => m' ← store m p 0 x; store_list m' (p + 1) l'
  end.

(** [out.setConstant(v)] on a view of [n] coefficients. *)
Definition setConstant (m : mem) (p : Z) (n : nat) (v : f32) : option mem :=
  store_list m p (replicate n v).

(** ** transform_points_batch *)

(** The nine broadcast coefficients, named as in the source. *)
Record splat_coeffs : Type := SplatCoeffs {
  m0_v : v128; m1_v : v128; m2_v : v128;
  m3_v : v128; m4_v : v128; m5_v : v128;
  m6_v : v128; m7_v : v128; m8_v : v128 }.

Record scalar_coeffs : Type := ScalarCoeffs {
  m0_s : f32; m1_s : f32; m2_s : f32;
  m3_s : f32; m4_s : f32; m5_s : f32;
  m6_s : f32; m7_s : f32; m8_s : f32 }.

Definition epsilon_v : v128 := wasm_f32x4_splat MATRIX_SVD_EPSILON.
Definition one_v : v128 := wasm_f32x4_splat F32.one.
Definition nan_v : v128 := wasm_f32x4_splat F32.quiet_NaN.

(** One round of the SIMD loop: points [i .. i + 3]. *)
Definition simd_body (cv : splat_coeffs) (pts_in pts_out : Z) (i : Z) (m : mem)
  : option mem :=
  let base_idx := i * 2 in
  points_xy12 ← wasm_v128_load m pts_in base_idx;
  points_xy34 ← wasm_v128_load m pts_in (base_idx + 4);
  let x1234 := wasm_i32x4_shuffle points_xy12 points_xy34 0 2 4 6 in
  let y1234 := wasm_i32x4_shuffle points_xy12 points_xy34 1 3 5 7 in
  let x_p1 := wasm_f32x4_mul (m0_v cv) x1234 in
  let x_p2 := wasm_f32x4_mul (m3_v cv) y1234 in
  let x_unscaled := wasm_f32x4_add (wasm_f32x4_add x_p1 x_p2) (m6_v cv) in
  let y_p1 := wasm_f32x4_mul (m1_v cv) x1234 in
  let y_p2 := wasm_f32x4_mul (m4_v cv) y1234 in
  let y_unscaled := wasm_f32x4_add (wasm_f32x4_add y_p1 y_p2) (m7_v cv) in
  let w_p1 := wasm_f32x4_mul (m2_v cv) x1234 in
  let w_p2 := wasm_f32x4_mul (m5_v cv) y1234 in
  let w := wasm_f32x4_add (wasm_f32x4_add w_p1 w_p2) (m8_v cv) in
  let w_abs := wasm_f32x4_abs w in
  let valid_w_mask := wasm_f32x4_ge w_abs epsilon_v in
  let inv_w := wasm_f32x4_div one_v w in
  let x_scaled := wasm_f32x4_mul x_unscaled inv_w in
  let y_scaled := wasm_f32x4_mul y_unscaled inv_w in
  let x_final := wasm_v128_bitselect x_scaled nan_v valid_w_mask in
  let y_final := wasm_v128_bitselect y_scaled nan_v valid_w_mask in
  let out_xy12 := wasm_i32x4_shuffle x_final y_final 0 4 1 5 in
  let out_xy34 := wasm_i32x4_shuffle x_final y_final 2 6 3 7 in
  m1 ← wasm_v128_store m pts_out base_idx out_xy12;
  wasm_v128_store m1 pts_out (base_idx + 4) out_xy34.

(** [for (; i < num_points_simd; i += 4)] *)
Equations? simd_loop (cv : splat_coeffs) (pts_in pts_out num_points_simd : Z)
    (i : Z) (m : mem) : option (Z * mem)
    by wf (Z.to_nat (num_points_simd - i)) lt :=
  simd_loop cv pts_in pts_out num_points_simd i m
    with Z_lt_dec i num_points_simd := {
    | left _ with simd_body cv pts_in pts_out i m := {
        | Some m' => simd_loop cv pts_in pts_out num_points_simd (i + 4) m'
        | None => None }
    | right _ => Some (i, m) }.
Proof. lia. Qed.

(** One round of the scalar loop: point [i]. *)
Definition scalar_body (cs : scalar_coeffs) (pts_in pts_out : Z) (i : Z) (m : mem)
  : option mem :=
  let idx := i * 2 in
  x_in ← load m pts_in idx;
  y_in ← load m pts_in (idx + 1);
  let X := F32.add (F32.add (F32.mul (m0_s cs) x_in) (F32.mul (m3_s cs) y_in)) (m6_s cs) in
  let Y := F32.add (F32.add (F32.mul (m1_s cs) x_in) (F32.mul (m4_s cs) y_in)) (m7_s cs) in
  let W := F32.add (F32.add (F32.mul (m2_s cs) x_in) (F32.mul (m5_s cs) y_in)) (m8_s cs) in
  if F32.lt (F32.abs W) MATRIX_SVD_EPSILON then
    m1 ← store m pts_out idx F32.quiet_NaN;
    store m1 pts_out (idx + 1) F32.quiet_NaN
  else
    let invW := F32.div F32.one W in
    m1 ← store m pts_out idx (F32.mul X invW);
    store m1 pts_out (idx + 1) (F32.mul Y invW).

(** [for (; i < num_points; ++i)] *)
Equations? scalar_loop (cs : scalar_coeffs) (pts_in pts_out num_points : Z)
    (i : Z) (m : mem) : option (Z * mem)
    by wf (Z.to_nat (num_points - i)) lt :=
  scalar_loop cs pts_in pts_out num_points i m
    with Z_lt_dec i num_points := {
    | left _ with scalar_body cs pts_in pts_out i m := {
        | Some m' => scalar_loop cs pts_in pts_out num_points (i + 1) m'
        | None => None }
    | right _ => Some (i, m) }.
Proof. lia. Qed.

(** The nine coefficient reads, in the order the source makes them. *)
Definition read_coeffs (m : mem) (matrix_ptr : Z) : option scalar_coeffs :=
  c0 ← coeff m matrix_ptr 0 0; c1 ← coeff m matrix_ptr 1 0; c2 ← coeff m matrix_ptr 2 0;
  c3 ← coeff m matrix_ptr 0 1; c4 ← coeff m matrix_ptr 1 1; c5 ← coeff m matrix_ptr 2 1;
  c6 ← coeff m matrix_ptr 0 2; c7 ← coeff m matrix_ptr 1 2; c8 ← coeff m matrix_ptr 2 2;
  Some (ScalarCoeffs c0 c1 c2 c3 c4 c5 c6 c7 c8).

Definition splat_all (cs : scalar_coeffs) : splat_coeffs :=
  SplatCoeffs (wasm_f32x4_splat (m0_s cs)) (wasm_f32x4_splat (m1_s cs))
              (wasm_f32x4_splat (m2_s cs)) (wasm_f32x4_splat (m3_s cs))
              (wasm_f32x4_splat (m4_s cs)) (wasm_f32x4_splat (m5_s cs))
              (wasm_f32x4_splat (m6_s cs)) (wasm_f32x4_splat (m7_s cs))
              (wasm_f32x4_splat (m8_s cs)).

(** [num_points % 4] truncates towards zero: [Z.rem]. *)
Definition transform_points_batch (m : mem)
    (matrix_ptr points_in_ptr points_out_ptr : Z) (num_points : Z) : option mem :=
  cs ← read_coeffs m matrix_ptr;
  let cv := splat_all cs in
  let num_points_simd := num_points - Z.rem num_points 4 in
  '(i, m1) ← simd_loop cv points_in_ptr points_out_ptr num_points_simd 0 m;
  if i <? num_points then
    cs' ← read_coeffs m1 matrix_ptr;
    '(_, m2) ← scalar_loop cs' points_in_ptr points_out_ptr num_points i m1;
    Some m2
  else Some m1.

(** The scalar loop of the source run over the whole batch: the
    reference the vectorised path is compared with. *)
Definition transform_points_scalar (m : mem)
    (matrix_ptr points_in_ptr points_out_ptr : Z) (num_points : Z) : option mem :=
  cs ← read_coeffs m matrix_ptr;
  '(_, m1) ← scalar_loop cs points_in_ptr points_out_ptr num_points 0 m;
  Some m1.

(** ** The bits of a NaN *)

(** In [F32] every NaN an operation returns is the canonical quiet
    NaN.  An engine is free in the sign and the payload of such a NaN;
    only the quiet bit is set for sure.  [Bits] repeats the arithmetic
    of the batch transform with that choice as a parameter, and the two
    loops of the source over it: whatever depends on the pattern of a
    NaN is stated there. *)
Module Bits.

Inductive binop : Type := Mul | Add | Div.

(** The sign and the payload of the NaN that the operation returns on
    the operands [a] and [b], when it returns one. *)
Definition nan_choice : Type := binop → f32 → f32 → bool * Z.

(** The quiet NaN of sign [s] with the 22 payload bits [payload]. *)
Definition arith_nan (s : bool) (payload : Z) : f32 :=
  F32.sign_bit s + 0x7FC00000 + payload mod 2 ^ 22.

Definition exact (o : binop) : spec_float → spec_float → spec_float :=
  match o with
  | Mul => SFmul F32.prec F32.emax
  | Add => SFadd F32.prec F32.emax
  | Div => SFdiv F32.prec F32.emax
  end.

(** The operation [o]: as in [F32] when the result is a number, the
    engine's NaN otherwise. *)
Definition op (c : nan_choice) (o : binop) (a b : f32) : f32 :=
  match exact o (F32.decode a) (F32.decode b) with
  | S754_nan => arith_nan (c o a b).1 (c o a b).2
  | r => F32.encode r
  end.

Definition mul (c : nan_choice) : f32 → f32 → f32 := op c Mul.
Definition add (c : nan_choice) : f32 → f32 → f32 := op c Add.
Definition div (c : nan_choice) : f32 → f32 → f32 := op c Div.

Definition wasm_f32x4_mul (c : nan_choice) : v128 → v128 → v128 := lanewise (mul c).
Definition wasm_f32x4_add (c : nan_choice) : v128 → v128 → v128 := lanewise (add c).
Definition wasm_f32x4_div (c : nan_choice) : v128 → v128 → v128 := lanewise (div c).

(** One round of the SIMD loop: points [i .. i + 3]. *)
Definition simd_body (c : nan_choice) (cv : splat_coeffs) (pts_in pts_out : Z) (i : Z)
    (m : mem) : option mem :=
  let base_idx := i * 2 in
  points_xy12 ← wasm_v128_load m pts_in base_idx;
  points_xy34 ← wasm_v128_load m pts_in (base_idx + 4);
  let x1234 := wasm_i32x4_shuffle points_xy12 points_xy34 0 2 4 6 in
  let y1234 := wasm_i32x4_shuffle points_xy12 points_xy34 1 3 5 7 in
  let x_p1 := wasm_f32x4_mul c (m0_v cv) x1234 in
  let x_p2 := wasm_f32x4_mul c (m3_v cv) y1234 in
  let x_unscaled := wasm_f32x4_add c (wasm_f32x4_add c x_p1 x_p2) (m6_v cv) in
  let y_p1 := wasm_f32x4_mul c (m1_v cv) x1234 in
  let y_p2 := wasm_f32x4_mul c (m4_v cv) y1234 in
  let y_unscaled := wasm_f32x4_add c (wasm_f32x4_add c y_p1 y_p2) (m7_v cv) in
  let w_p1 := wasm_f32x4_mul c (m2_v cv) x1234 in
  let w_p2 := wasm_f32x4_mul c (m5_v cv) y1234 in
  let w := wasm_f32x4_add c (wasm_f32x4_add c w_p1 w_p2) (m8_v cv) in
  let w_abs := wasm_f32x4_abs w in
  let valid_w_mask := wasm_f32x4_ge w_abs epsilon_v in
  let inv_w := wasm_f32x4_div c one_v w in
  let x_scaled := wasm_f32x4_mul c x_unscaled inv_w in
  let y_scaled := wasm_f32x4_mul c y_unscaled inv_w in
  let x_final := wasm_v128_bitselect x_scaled nan_v valid_w_mask in
  let y_final := wasm_v128_bitselect y_scaled nan_v valid_w_mask in
  let out_xy12 := wasm_i32x4_shuffle x_final y_final 0 4 1 5 in
  let out_xy34 := wasm_i32x4_shuffle x_final y_final 2 6 3 7 in
  m1 ← wasm_v128_store m pts_out base_idx out_xy12;
  wasm_v128_store m1 pts_out (base_idx + 4) out_xy34.

(** [for (; i < num_points_simd; i += 4)] *)
Equations? simd_loop (c : nan_choice) (cv : splat_coeffs)
    (pts_in pts_out num_points_simd : Z) (i : Z) (m : mem) : option (Z * mem)
    by wf (Z.to_nat (num_points_simd - i)) lt :=
  simd_loop c cv pts_in pts_out num_points_simd i m
    with Z_lt_dec i num_points_simd := {
    | left _ with simd_body c cv pts_in pts_out i m := {
        | Some m' => simd_loop c cv pts_in pts_out num_points_simd (i + 4) m'
        | None => None }
    | right _ => Some (i, m) }.
Proof. lia. Qed.

(** One round of the scalar loop: point [i]. *)
Definition scalar_body (c : nan_choice) (cs : scalar_coeffs) (pts_in pts_out : Z) (i : Z)
    (m : mem) : option mem :=
  let idx := i * 2 in
  x_in ← load m pts_in idx;
  y_in ← load m pts_in (idx + 1);
  let X := add c (add c (mul c (m0_s cs) x_in) (mul c (m3_s cs) y_in)) (m6_s cs) in
  let Y := add c (add c (mul c (m1_s cs) x_in) (mul c (m4_s cs) y_in)) (m7_s cs) in
  let W := add c (add c (mul c (m2_s cs) x_in) (mul c (m5_s cs) y_in)) (m8_s cs) in
  if F32.lt (F32.abs W) MATRIX_SVD_EPSILON then
    m1 ← store m pts_out idx F32.quiet_NaN;
    store m1 pts_out (idx + 1) F32.quiet_NaN
  else
    let invW := div c F32.one W in
    m1 ← store m pts_out idx (mul c X invW);
    store m1 pts_out (idx + 1) (mul c Y invW).

(** [for (; i < num_points; ++i)] *)
Equations? scalar_loop (c : nan_choice) (cs : scalar_coeffs)
    (pts_in pts_out num_points : Z) (i : Z) (m : mem) : option (Z * mem)
    by wf (Z.to_nat (num_points - i)) lt :=
  scalar_loop c cs pts_in pts_out num_points i m
    with Z_lt_dec i num_points := {
    | left _ with scalar_body c cs pts_in pts_out i m := {
        | Some m' => scalar_loop c cs pts_in pts_out num_points (i + 1) m'
        | None => None }
    | right _ => Some (i, m) }.
Proof. lia. Qed.

Definition transform_points_batch (c : nan_choice) (m : mem)
    (matrix_ptr points_in_ptr points_out_ptr : Z) (num_points : Z) : option mem :=
  cs ← read_coeffs m matrix_ptr;
  let cv := splat_all cs in
  let num_points_simd := num_points - Z.rem num_points 4 in
  '(i, m1) ← simd_loop c cv points_in_ptr points_out_ptr num_points_simd 0 m;
  if i <? num_points then
    cs' ← read_coeffs m1 matrix_ptr;
    '(_, m2) ← scalar_loop c cs' points_in_ptr points_out_ptr num_points i m1;
    Some m2
  else Some m1.

(** The scalar loop of the source run over the whole batch. *)
Definition transform_points_scalar (c : nan_choice) (m : mem)
    (matrix_ptr points_in_ptr points_out_ptr : Z) (num_points : Z) : option mem :=
  cs ← read_coeffs m matrix_ptr;
  '(_, m1) ← scalar_loop c cs points_in_ptr points_out_ptr num_points 0 m;
  Some m1.

(** The operation of [F32] on the same operands. *)
Definition canonical_op (o : binop) : f32 → f32 → f32 :=
  match o with Mul => F32.mul | Add => F32.add | Div => F32.div end.

(** The engine that returns the canonical NaN: [F32]. *)
Definition canonical : nan_choice := fun _ _ _ => (false, 0).

(** An x86 host: a NaN operand is passed on with its quiet bit set,
    the first operand first, and the NaN made from numbers has its
    sign bit set ([0xFFC00000]). *)
Definition x86 : nan_choice := fun _ a b =>
  if F32.is_nan a then (F32.sign_of a, F32.fraction a)
  else if F32.is_nan b then (F32.sign_of b, F32.fraction b)
  else (true, 0).

End Bits.

(** Equal, or a NaN each. *)
Definition nan_eq (a b : f32) : Prop :=
  a = b ∨ (F32.is_nan a = true ∧ F32.is_nan b = true).

(** The two memories hold the same cells with the same bits, except
    that a cell of [P] may hold a NaN of another pattern. *)
Definition same_up_to_nan (P : Z → Prop) (m1 m2 : mem) : Prop :=
  ∀ a, m1 !! a = m2 !! a ∨
       (P a ∧ ∃ x y, m1 !! a = Some x ∧ m2 !! a = Some y ∧
                     F32.is_nan x = true ∧ F32.is_nan y = true).

(** The cells of an output batch. *)
Definition output_window (pts_out num_points : Z) (a : Z) : Prop :=
  pts_out ≤ a < pts_out + 2 * num_points.

(** Both calls trap, or both return and the results are related. *)
Definition both {A B} (R : A → B → Prop) (o : option A) (o' : option B) : Prop :=
  match o, o' with
  | Some a, Some b => R a b
  | None, None => True
  | _, _ => False
  end.

(** Two runs of a loop stop at the same index, not below the one they
    started from, with memories that are the same up to NaN. *)
Definition loop_sim (P : Z → Prop) (i : Z) (r r' : Z * mem) : Prop :=
  r.1 = r'.1 ∧ i ≤ r.1 ∧ same_up_to_nan P r.2 r'.2.

(** ** Eigen *)

(** [Eigen::ComputationInfo] *)
Inductive ComputationInfo : Type :=
  Success | NumericalIssue | NoConvergence | InvalidInput.

Global Instance ComputationInfo_eq_dec : EqDecision ComputationInfo.
Proof. solve_decision. Defined.

(** Fixed-size Eigen objects hold their coefficients in storage
    order. *)
Abbreviation Matrix3f := (vec f32 9).
Abbreviation Matrix8f := (vec f32 64).
Abbreviation Vector8f := (vec f32 8).

(** [FullPivLU<Matrix3f> lu(m)]: what the file uses of it. *)
Class FullPivLU : Type := {
  lu_determinant : Matrix3f → f32;
  lu_inverse : Matrix3f → Matrix3f }.

(** [JacobiSVD<Matrix8f> svd(A, ComputeFullU | ComputeFullV)]: what the
    file uses of it. *)
Class JacobiSVD : Type := {
  svd_info : Matrix8f → ComputationInfo;
  svd_singularValues : Matrix8f → Vector8f;
  svd_solve : Matrix8f → Vector8f → Vector8f }.

(** Modelled from the spec: Eigen's [maxCoeff] is not part of the file;
    the spec reads [svd.singularValues().maxCoeff()] as "max(singular
    values)".  The coefficients are folded with [std::max]. *)
Definition maxCoeff {n} (v : vec f32 n) : f32 :=
  match vec_to_list v with
  | [] => F32.zero
  | x :: l => fold_left (fun a b => if F32.lt a b then b else a) l x
  end.

(** [v.array().isNaN().any()] and the like. *)
Definition any {n} (p : f32 → bool) (v : vec f32 n) : bool :=
  existsb p (vec_to_list v).

(** [M(r, c)] of a 3×3 object. *)
Definition coeff3 (M : Matrix3f) (r c : nat) : f32 :=
  nth (r + 3 * c) (vec_to_list M) F32.zero.

(** Modelled from the spec: [Matrix3f::determinant] is Eigen's; the
    spec calls it the "closed-form 3×3 determinant".  The cofactor
    expansion along the first row. *)
Definition det3_helper (M : Matrix3f) (a b c : nat) : f32 :=
  F32.mul (coeff3 M 0 a)
          (F32.sub (F32.mul (coeff3 M 1 b) (coeff3 M 2 c))
                   (F32.mul (coeff3 M 1 c) (coeff3 M 2 b))).

(** Modelled from the spec: [Matrix3f::determinant] is Eigen's (see
    [det3_helper]); the three cofactor terms, combined left to right. *)
Definition Matrix3f_determinant (M : Matrix3f) : f32 :=
  F32.add (F32.sub (det3_helper M 0 1 2) (det3_helper M 1 0 2))
          (det3_helper M 2 0 1).

(** ** determinant *)

Definition determinant (m : mem) (m_ptr : Z) : option f32 :=
  M ← load_vec m m_ptr 9;
  Some (Matrix3f_determinant M).

(** ** invert_matrix *)

Definition invert_matrix `{FullPivLU} (m : mem) (m_ptr out_ptr : Z)
  : option (Z * mem) :=
  M ← load_vec m m_ptr 9;
  let det := lu_determinant M in
  if F32.lt (F32.abs det) MATRIX_INVERSE_EPSILON then
    m' ← setConstant m out_ptr 9 F32.quiet_NaN;
    Some (0, m')
  else
    m' ← store_list m out_ptr (vec_to_list (lu_inverse M));
    out ← load_vec m' out_ptr 9;
    if any F32.is_nan out || any F32.is_inf out then
      (* the body of this branch is commented out in the source *)
      Some (1, m')
    else
      Some (1, m').

(** ** solve_homography_svd *)

Definition solve_homography_svd `{JacobiSVD} (m : mem) (a_ptr b_ptr x_ptr : Z)
  : option (bool * mem) :=
  A ← load_vec m a_ptr 64;
  if decide (svd_info A ≠ Success) then
    m' ← setConstant m x_ptr 8 F32.quiet_NaN;
    Some (false, m')
  else
    let threshold := F32.mul MATRIX_SVD_EPSILON (maxCoeff (svd_singularValues A)) in
    if any (fun s => F32.lt (F32.abs s) threshold) (svd_singularValues A) then
      m' ← setConstant m x_ptr 8 F32.quiet_NaN;
      Some (false, m')
    else
      b ← load_vec m b_ptr 8;
      m' ← store_list m x_ptr (vec_to_list (svd_solve A b));
      x ← load_vec m' x_ptr 8;
      if any F32.is_nan x then Some (false, m') else Some (true, m').

(** ** What a call computes: specification vocabulary *)

(** The output pair the scalar loop stores for the input point
    [(x_in, y_in)]. *)
Definition point_out (cs : scalar_coeffs) (x_in y_in : f32) : f32 * f32 :=
  let X := F32.add (F32.add (F32.mul (m0_s cs) x_in) (F32.mul (m3_s cs) y_in)) (m6_s cs) in
  let Y := F32.add (F32.add (F32.mul (m1_s cs) x_in) (F32.mul (m4_s cs) y_in)) (m7_s cs) in
  let W := F32.add (F32.add (F32.mul (m2_s cs) x_in) (F32.mul (m5_s cs) y_in)) (m8_s cs) in
  if F32.lt (F32.abs W) MATRIX_SVD_EPSILON then (F32.quiet_NaN, F32.quiet_NaN)
  else (F32.mul X (F32.div F32.one W), F32.mul Y (F32.div F32.one W)).

(** The output pair one lane of the SIMD loop stores. *)
Definition lane_out (cs : scalar_coeffs) (x_in y_in : f32) : f32 * f32 :=
  let X := F32.add (F32.add (F32.mul (m0_s cs) x_in) (F32.mul (m3_s cs) y_in)) (m6_s cs) in
  let Y := F32.add (F32.add (F32.mul (m1_s cs) x_in) (F32.mul (m4_s cs) y_in)) (m7_s cs) in
  let W := F32.add (F32.add (F32.mul (m2_s cs) x_in) (F32.mul (m5_s cs) y_in)) (m8_s cs) in
  let mask := if F32.ge (F32.abs W) MATRIX_SVD_EPSILON then all_ones else 0 in
  let inv_w := F32.div F32.one W in
  (bitselect32 (F32.mul X inv_w) F32.quiet_NaN mask,
   bitselect32 (F32.mul Y inv_w) F32.quiet_NaN mask).

(** The cells [p .. p + n - 1] exist. *)
Definition readable (m : mem) (p n : Z) : Prop :=
  ∀ a, p ≤ a < p + n → is_Some (m !! a).

(** The windows [p .. p + n - 1] and [q .. q + k - 1] share no cell. *)
Definition disjoint (p n q k : Z) : Prop :=
  n ≤ 0 ∨ k ≤ 0 ∨ p + n ≤ q ∨ q + k ≤ p.

(** What the caller owes: the matrix and both batches lie in memory,
    the output batch overlaps neither the input batch nor the matrix,
    and the count is an [int] whose double is one too (the largest
    index the loops compute is below [2 * num_points]). *)
Record call_ok (m : mem) (matrix_ptr pts_in pts_out num_points : Z) : Prop := CallOk {
  ok_matrix : readable m matrix_ptr 9;
  ok_in : readable m pts_in (2 * num_points);
  ok_out : readable m pts_out (2 * num_points);
  ok_in_out : disjoint pts_in (2 * num_points) pts_out (2 * num_points);
  ok_matrix_out : disjoint matrix_ptr 9 pts_out (2 * num_points);
  ok_int : - 2 ^ 31 ≤ num_points ∧ 2 * num_points < 2 ^ 31 }.

(** [m'] is [m] with the output slots [lo .. hi - 1] holding [f] of the
    input slots, and nothing else changed. *)
Definition transformed (f : f32 → f32 → f32 * f32) (pts_in pts_out lo hi : Z)
    (m m' : mem) : Prop :=
  (∀ j x y, lo ≤ j < hi →
     m !! (pts_in + 2 * j) = Some x → m !! (pts_in + 2 * j + 1) = Some y →
     m' !! (pts_out + 2 * j) = Some (f x y).1 ∧
     m' !! (pts_out + 2 * j + 1) = Some (f x y).2) ∧
  (∀ a, ¬ (pts_out + 2 * lo ≤ a < pts_out + 2 * hi) → m' !! a = m !! a).

(** The matrix as the caller sees it: [view m p r c] is [M(r, c)]. *)
Definition view (m : mem) (matrix_ptr : Z) (r c : Z) : f32 :=
  default F32.zero (coeff m matrix_ptr r c).

(** The homogeneous image [(X, Y, W)] of a point. *)
Definition homogeneous (M : Z → Z → f32) (x y : f32) : f32 * f32 * f32 :=
  (F32.add (F32.add (F32.mul (M 0 0) x) (F32.mul (M 0 1) y)) (M 0 2),
   F32.add (F32.add (F32.mul (M 1 0) x) (F32.mul (M 1 1) y)) (M 1 2),
   F32.add (F32.add (F32.mul (M 2 0) x) (F32.mul (M 2 1) y)) (M 2 2)).

(** The policy with a division, [(X / W, Y / W)]. *)
Definition quotient_policy (M : Z → Z → f32) (x y : f32) : f32 * f32 :=
  let '(X, Y, W) := homogeneous M x y in
  if F32.lt (F32.abs W) MATRIX_SVD_EPSILON then (F32.quiet_NaN, F32.quiet_NaN)
  else (F32.div X W, F32.div Y W).

(** The policy with a multiplication by the rounded reciprocal,
    [(X * (1 / W), Y * (1 / W))]. *)
Definition reciprocal_policy (M : Z → Z → f32) (x y : f32) : f32 * f32 :=
  let '(X, Y, W) := homogeneous M x y in
  if F32.lt (F32.abs W) MATRIX_SVD_EPSILON then (F32.quiet_NaN, F32.quiet_NaN)
  else (F32.mul X (F32.div F32.one W), F32.mul Y (F32.div F32.one W)).

(** A call returns, and every output slot [(x', y')] stands in
    relation [R] to the input slot [(x, y)] of the same index. *)
Definition writes_slots (R : f32 → f32 → f32 → f32 → Prop)
    (m : mem) (matrix_ptr pts_in pts_out num_points : Z) : Prop :=
  ∃ m', transform_points_batch m matrix_ptr pts_in pts_out num_points = Some m' ∧
    ∀ i x y, 0 ≤ i < num_points →
      m !! (pts_in + 2 * i) = Some x → m !! (pts_in + 2 * i + 1) = Some y →
      ∃ x' y', m' !! (pts_out + 2 * i) = Some x' ∧
               m' !! (pts_out + 2 * i + 1) = Some y' ∧ R x y x' y'.

(** IEEE equality of the values of two patterns. *)
Definition same_value (a b : f32) : bool := SFeqb (F32.decode a) (F32.decode b).

(** The 3×3 identity. *)
Definition identity_coeffs : scalar_coeffs :=
  ScalarCoeffs F32.one F32.zero F32.zero
               F32.zero F32.one F32.zero
               F32.zero F32.zero F32.one.

Definition neg_zero : f32 := 0x80000000.
Definition pos_inf : f32 := 0x7F800000.

(** [x], with the sign of a zero dropped. *)
Definition drop_zero_sign (x : f32) : f32 := if x =? neg_zero then F32.zero else x.

(** Every coordinate of the input batch is a finite float. *)
Definition finite_batch (m : mem) (pts_in num_points : Z) : Prop :=
  ∀ a x, pts_in ≤ a < pts_in + 2 * num_points → m !! a = Some x →
         F32.wf x ∧ F32.is_finite x = true.

(** ** Executable checks and sample memories *)

(** Memory holding the list [l] from address [p] on. *)
Definition mem_of_list (p : Z) (l : list f32) : mem :=
  list_to_map (imap (fun i v => (p + Z.of_nat i, v)) l).

Definition readableb (m : mem) (p n : Z) : bool :=
  forallb (fun k => bool_decide (is_Some (m !! (p + Z.of_nat k)))) (seq 0 (Z.to_nat n)).

Definition disjointb (p n q k : Z) : bool :=
  (n <=? 0) || (k <=? 0) || (p + n <=? q) || (q + k <=? p).

Definition call_okb (m : mem) (matrix_ptr pts_in pts_out num_points : Z) : bool :=
  readableb m matrix_ptr 9 && readableb m pts_in (2 * num_points) &&
  readableb m pts_out (2 * num_points) &&
  disjointb pts_in (2 * num_points) pts_out (2 * num_points) &&
  disjointb matrix_ptr 9 pts_out (2 * num_points) &&
  (- 2 ^ 31 <=? num_points) && (2 * num_points <? 2 ^ 31).

Definition finite_batchb (m : mem) (pts_in num_points : Z) : bool :=
  forallb (fun k => match m !! (pts_in + Z.of_nat k) with
                    | Some x => F32.wfb x && F32.is_finite x
                    | None => true
                    end) (seq 0 (Z.to_nat (2 * num_points))).

(** Small integers as floats. *)
Definition f32_of_Z (k : Z) : f32 := F32.literal k 1.

Definition identity_matrix : list f32 :=
  [F32.one; 0; 0;  0; F32.one; 0;  0; 0; F32.one].

(** The identity at [0], five points at [9], their output at [19]. *)
Definition mem_five : mem :=
  mem_of_list 0 (identity_matrix ++ map f32_of_Z [1; 2; 3; 4; 5; 6; 7; 8; 9; 10]
                 ++ replicate 10 F32.zero).

(** The same, with every point but the second one replaced and other
    stale values in the output batch. *)
Definition mem_five_other : mem :=
  mem_of_list 0 (identity_matrix ++ map f32_of_Z [11; 12; 3; 4; 15; 16; 17; 18; 19; 20]
                 ++ replicate 10 F32.one).

(** [diag(1, 1, 3)] at [0], the point [(5, 0)] at [9], its output at
    [11]. *)
Definition mem_thirds : mem :=
  mem_of_list 0 ([F32.one; 0; 0;  0; F32.one; 0;  0; 0; f32_of_Z 3]
                 ++ [f32_of_Z 5; 0] ++ [0; 0]).

(** The identity at [0], the point [(+inf, 0)] at [9], its output at
    [11]. *)
Definition mem_inf : mem :=
  mem_of_list 0 (identity_matrix ++ [pos_inf; 0] ++ [0; 0]).

(** ** Sample implementations of the Eigen interface *)

(** An inverse by cofactors: the closed-form determinant and the
    adjugate scaled by its reciprocal.  Not Eigen's algorithm; one
    inhabitant of [FullPivLU] to run the code with. *)
Definition cofactor (M : Matrix3f) (r c : nat) : f32 :=
  F32.sub (F32.mul (coeff3 M ((r + 1) mod 3) ((c + 1) mod 3))
                   (coeff3 M ((r + 2) mod 3) ((c + 2) mod 3)))
          (F32.mul (coeff3 M ((r + 1) mod 3) ((c + 2) mod 3))
                   (coeff3 M ((r + 2) mod 3) ((c + 1) mod 3))).

Definition adjugate_inverse (M : Matrix3f) : Matrix3f :=
  let d := F32.div F32.one (Matrix3f_determinant M) in
  let e (r c : nat) := F32.mul (cofactor M c r) d in
  [# e 0 0; e 1 0; e 2 0;  e 0 1; e 1 1; e 2 1;  e 0 2; e 1 2; e 2 2]%nat.

Definition lu_by_cofactors : FullPivLU :=
  {| lu_determinant := Matrix3f_determinant; lu_inverse := adjugate_inverse |}.

(** The decomposition of the diagonal matrix [diag(sv)]: [U = V = I],
    the singular values are the diagonal, and [solve] is
    [V * (inverse(diag(sv)) * (U^T * b))]. *)
Definition dot (row v : list f32) : f32 :=
  fold_left (fun acc ab => F32.add acc (F32.mul ab.1 ab.2)) (zip row v) F32.zero.

Definition identity_rows : vec (list f32) 8 :=
  vmap (fun i : nat => <[i := F32.one]> (replicate 8 F32.zero))
       [# 0; 1; 2; 3; 4; 5; 6; 7]%nat.

Definition diagonal_solve (sv b : Vector8f) : Vector8f :=
  let tmp := vmap (fun row => dot row (vec_to_list b)) identity_rows in
  let tmp' := vzip_with (fun s t => F32.mul (F32.div F32.one s) t) sv tmp in
  vmap (fun row => dot row (vec_to_list tmp')) identity_rows.

Definition svd_of_diagonal (sv : Vector8f) : JacobiSVD :=
  {| svd_info := fun _ => Success;
     svd_singularValues := fun _ => sv;
     svd_solve := fun _ b => diagonal_solve sv b |}.

Definition one_half : f32 := 0x3F000000.
Definition FLT_MAX : f32 := 0x7F7FFFFF.

(** The 8×8 matrix [diag(sv)], column-major. *)
Definition diagonal8 (sv : Vector8f) : list f32 :=
  concat (imap (fun i s => <[i := s]> (replicate 8 F32.zero)) (vec_to_list sv)).

Definition halves : Vector8f := vreplicate 8 one_half.

(** [A = I / 2] at [0], [b = (FLT_MAX, 0, ..., 0)] at [64], [x] at
    [72] holding ones. *)
Definition mem_half_identity : mem :=
  mem_of_list 0 (diagonal8 halves
                 ++ (FLT_MAX :: replicate 7 F32.zero) ++ replicate 8 F32.one).

(** A rank-deficient system: [diag(1, ..., 1, 0)]. *)
Definition rank_seven : Vector8f :=
  [# F32.one; F32.one; F32.one; F32.one; F32.one; F32.one; F32.one; F32.zero].

Definition mem_rank_seven : mem :=
  mem_of_list 0 (diagonal8 rank_seven
                 ++ replicate 8 F32.one ++ replicate 8 F32.one).

Definition f32_1e20 : f32 := F32.encode (F32.of_Z (10 ^ 20)).

(** [diag(1e20, 1e20, 1e20)] at [0], the output matrix at [9]. *)
Definition mem_huge_diagonal : mem :=
  mem_of_list 0 ([f32_1e20; 0; 0;  0; f32_1e20; 0;  0; 0; f32_1e20]
                 ++ replicate 9 F32.zero).

(** Two equal rows at [0], the output matrix at [9]. *)
Definition mem_equal_rows : mem :=
  mem_of_list 0 (map f32_of_Z [1; 1; 0;  2; 2; 0;  3; 3; 1]
                 ++ replicate 9 F32.zero).

(** The intermediate values of one cofactor term: its two products,
    their difference and the product with the entry of the first
    row. *)
Definition det3_operands (M : Matrix3f) (a b c : nat) : list f32 :=
  let p := F32.mul (coeff3 M 1 b) (coeff3 M 2 c) in
  let q := F32.mul (coeff3 M 1 c) (coeff3 M 2 b) in
  [p; q; F32.sub p q; det3_helper M a b c].

(** Every operand of the closed form: the entries, the intermediate
    values of the three cofactor terms, and the difference of the
    first two terms. *)
Definition determinant_operands (M : Matrix3f) : list f32 :=
  vec_to_list M
  ++ det3_operands M 0 1 2 ++ det3_operands M 1 0 2 ++ det3_operands M 2 0 1
  ++ [F32.sub (det3_helper M 0 1 2) (det3_helper M 1 0 2)].

(** Nine times [FLT_MAX] at [0]. *)
Definition mem_flt_max : mem := mem_of_list 0 (replicate 9 FLT_MAX).

(** ** Further vocabulary and sample data *)

(** The output batch starts at or before the input batch (in place
    when they start together), or after its end: no slot is written
    before a later round reads it. *)
Definition overlap_safe (pts_in pts_out num_points : Z) : Prop :=
  pts_out ≤ pts_in ∨ pts_in + 2 * num_points ≤ pts_out.

Record call_ok_overlap (m : mem) (matrix_ptr pts_in pts_out num_points : Z) : Prop :=
  CallOkOverlap {
  okv_matrix : readable m matrix_ptr 9;
  okv_in : readable m pts_in (2 * num_points);
  okv_out : readable m pts_out (2 * num_points);
  okv_in_out : overlap_safe pts_in pts_out num_points;
  okv_matrix_out : disjoint matrix_ptr 9 pts_out (2 * num_points);
  okv_int : - 2 ^ 31 ≤ num_points ∧ 2 * num_points < 2 ^ 31 }.

Definition call_ok_overlapb (m : mem) (matrix_ptr pts_in pts_out num_points : Z) : bool :=
  readableb m matrix_ptr 9 && readableb m pts_in (2 * num_points) &&
  readableb m pts_out (2 * num_points) &&
  ((pts_out <=? pts_in) || (pts_in + 2 * num_points <=? pts_out)) &&
  disjointb matrix_ptr 9 pts_out (2 * num_points) &&
  (- 2 ^ 31 <=? num_points) && (2 * num_points <? 2 ^ 31).

(** The identity at [0] and five points at [9], to be transformed in
    place. *)
Definition mem_in_place : mem :=
  mem_of_list 0 (identity_matrix ++ map f32_of_Z [1; 2; 3; 4; 5; 6; 7; 8; 9; 10]).

(** [+0] or [-0]. *)
Definition is_zero (a : f32) : bool :=
  match F32.decode a with S754_zero _ => true | _ => false end.

(** The coefficients of the bottom row, as the loops hold them, are
    [(0, 0, 1)], the zeros of either sign. *)
Definition affine (cs : scalar_coeffs) : Prop :=
  is_zero (m2_s cs) = true ∧ is_zero (m5_s cs) = true ∧ m8_s cs = F32.one.

(** The bottom row of the matrix is [(0, 0, 1)]: an affine map. *)
Definition affine_matrix (M : Z → Z → f32) : Prop :=
  is_zero (M 2 0) = true ∧ is_zero (M 2 1) = true ∧ M 2 2 = F32.one.

(** The decomposition of a matrix Eigen refuses (a NaN or an infinite
    entry): [info()] is [InvalidInput]. *)
Definition svd_invalid_input : JacobiSVD :=
  {| svd_info := fun _ => InvalidInput;
     svd_singularValues := fun _ => vreplicate 8 F32.zero;
     svd_solve := fun _ _ => vreplicate 8 F32.zero |}.

(** The decomposition of the zero matrix: every singular value is 0,
    the rank is 0 and the least-squares solution is 0. *)
Definition svd_of_zero : JacobiSVD :=
  {| svd_info := fun _ => Success;
     svd_singularValues := fun _ => vreplicate 8 F32.zero;
     svd_solve := fun _ _ => vreplicate 8 F32.zero |}.

(** The scaling by 2 followed by the translation by [(3, -1)] at [0],
    five points at [9], their output at [19]. *)
Definition mem_affine : mem :=
  mem_of_list 0 (map f32_of_Z [2; 0; 0;  0; 2; 0;  3; -1; 1]
                 ++ map f32_of_Z [1; 2; 3; 4; 5; 6; 7; 8; 9; 10]
                 ++ replicate 10 F32.zero).

(** The identity at [0]; at [9] five points of which the second is
    [(+inf, 4)] and the fourth [(7, NaN)]; their output at [19]. *)
Definition mem_not_finite : mem :=
  mem_of_list 0 (identity_matrix
                 ++ [f32_of_Z 1; f32_of_Z 2; pos_inf; f32_of_Z 4; f32_of_Z 5;
                     f32_of_Z 6; f32_of_Z 7; F32.quiet_NaN; f32_of_Z 9; f32_of_Z 10]
                 ++ replicate 10 F32.zero).

(** Two matrices at [0] and [9], the output matrix at [18]. *)
Definition mem_two_matrices : mem :=
  mem_of_list 0 (map f32_of_Z [1; 2; 3;  4; 5; 6;  7; 8; 10]
                 ++ identity_matrix ++ replicate 9 F32.zero).

(** Nine times [FLT_MAX] at [0], the output matrix at [9]. *)
Definition mem_flt_max_out : mem :=
  mem_of_list 0 (replicate 9 FLT_MAX ++ replicate 9 F32.zero).

(** A matrix whose bottom row is [(0, -0, 0)] at [0], five points at
    [9], their output at [19]. *)
Definition mem_zero_row : mem :=
  mem_of_list 0 ([f32_of_Z 1; f32_of_Z 0; F32.zero;  f32_of_Z 0; f32_of_Z 1; neg_zero;
                  f32_of_Z 5; f32_of_Z 6; F32.zero]
                 ++ map f32_of_Z [1; 2; 3; 4; 5; 6; 7; 8; 9; 10]
                 ++ replicate 10 F32.zero).

Definition ones : Vector8f := vreplicate 8 F32.one.

(** [A = I] at [0], [b = (1, ..., 8)] at [64], [x] at [72]. *)
Definition mem_identity_system : mem :=
  mem_of_list 0 (diagonal8 ones ++ map f32_of_Z [1; 2; 3; 4; 5; 6; 7; 8]
                 ++ replicate 8 F32.zero).

(** The zero matrix at [0], [b] at [64], [x] at [72]. *)
Definition mem_zero_system : mem :=
  mem_of_list 0 (replicate 64 F32.zero ++ map f32_of_Z [1; 2; 3; 4; 5; 6; 7; 8]
                 ++ replicate 8 F32.one).

(** A matrix at [0] and [x] at [64]; there is no [b]. *)
Definition mem_no_rhs : mem :=
  mem_of_list 0 (replicate 64 F32.quiet_NaN ++ replicate 8 F32.one).

(** The identity at [0]; at [9] four points of which the first is
    [(+inf, 4)]; their output at [17]. *)
Definition mem_four_inf : mem :=
  mem_of_list 0 (identity_matrix
                 ++ [pos_inf; f32_of_Z 4; f32_of_Z 5; f32_of_Z 6;
                     f32_of_Z 7; f32_of_Z 8; f32_of_Z 9; f32_of_Z 10]
                 ++ replicate 8 F32.zero).

(** * Properties *)

(** ** The constants, as the compiler rounds the literals *)

Example MATRIX_INVERSE_EPSILON_is_1e_7 :
  F32.literal 1 (10 ^ 7) = MATRIX_INVERSE_EPSILON.
Proof. vm_compute. reflexivity. Qed.

Example MATRIX_SVD_EPSILON_is_1e_6 :
  F32.literal 1 (10 ^ 6) = MATRIX_SVD_EPSILON.
Proof. vm_compute. reflexivity. Qed.

Example one_is_1 : F32.literal 1 1 = F32.one.
Proof. vm_compute. reflexivity. Qed.

Example one_half_is_1_2 : F32.literal 1 2 = one_half.
Proof. vm_compute. reflexivity. Qed.

Example FLT_MAX_is_largest :
  F32.decode FLT_MAX = SFmax_float F32.prec F32.emax.
Proof. vm_compute. reflexivity. Qed.

Example third_is_rounded_up : F32.div F32.one (f32_of_Z 3) = 0x3EAAAAAB.
Proof. vm_compute. reflexivity. Qed.

(** ** Floats *)

Module F32Facts.

Lemma encode_nan : F32.encode S754_nan = F32.quiet_NaN.
Proof. reflexivity. Qed.

Lemma decode_quiet_NaN : F32.decode F32.quiet_NaN = S754_nan.
Proof. reflexivity. Qed.

Lemma sign_bit_range s : 0 ≤ F32.sign_bit s ≤ 2 ^ 31.
Proof. destruct s; simpl; lia. Qed.

(** Every encoding is a 32-bit pattern. *)
Lemma encode_wf x : F32.wf (F32.encode x).
Proof.
  unfold F32.wf. destruct x as [s|s| |s m e]; cbn [F32.encode].
  - destruct s; simpl; lia.
  - destruct s; simpl; lia.
  - unfold F32.quiet_NaN; lia.
  - pose proof (sign_bit_range s).
    assert (0 ≤ Z.pos m mod 2 ^ 23 < 2 ^ 23) by (apply Z.mod_pos_bound; lia).
    assert (0 ≤ (e + 150) mod 2 ^ 8 < 2 ^ 8) by (apply Z.mod_pos_bound; lia).
    destruct (Z.pos m <? 2 ^ 23); lia.
Qed.

(** [fabs] on patterns is [SFabs] on values. *)
Lemma decode_abs b : F32.decode (F32.abs b) = SFabs (F32.decode b).
Proof.
  unfold F32.decode, F32.abs.
  assert (He : F32.biased_exp (b mod 2 ^ 31) = F32.biased_exp b).
  { unfold F32.biased_exp.
    change (2 ^ 31) with (2 ^ 23 * 2 ^ 8).
    rewrite Z.rem_mul_r by lia.
    rewrite (Z.add_comm (b mod 2 ^ 23)), Z.mul_comm, Z.div_add_l by lia.
    rewrite (Z.div_small (b mod 2 ^ 23)) by (apply Z.mod_pos_bound; lia).
    rewrite Z.add_0_r. apply Z.mod_mod. lia. }
  assert (Hf : F32.fraction (b mod 2 ^ 31) = F32.fraction b).
  { unfold F32.fraction.
    apply Z.mod_mod_divide. exists (2 ^ 8). reflexivity. }
  assert (Hs : F32.sign_of (b mod 2 ^ 31) = false).
  { unfold F32.sign_of. rewrite Z.div_small; [reflexivity|].
    apply Z.mod_pos_bound. lia. }
  rewrite He, Hf, Hs.
  destruct (F32.biased_exp b =? 0).
  - destruct (F32.fraction b); reflexivity.
  - destruct (F32.biased_exp b =? 255).
    + destruct (F32.fraction b =? 0); reflexivity.
    + destruct (F32.fraction b + 2 ^ 23); reflexivity.
Qed.

Lemma SFmul_nan_r x : SFmul F32.prec F32.emax x S754_nan = S754_nan.
Proof. destruct x; reflexivity. Qed.

Lemma SFdiv_nan_r x : SFdiv F32.prec F32.emax x S754_nan = S754_nan.
Proof. destruct x; reflexivity. Qed.

(** Multiplying by the reciprocal of a NaN gives the canonical NaN. *)
Lemma mul_recip_nan X W :
  F32.decode W = S754_nan → F32.mul X (F32.div F32.one W) = F32.quiet_NaN.
Proof.
  intros HW. unfold F32.mul, F32.div. rewrite HW, SFdiv_nan_r.
  rewrite encode_nan, decode_quiet_NaN, SFmul_nan_r. reflexivity.
Qed.

(** Comparisons are antisymmetric. *)
Lemma SFcompare_antisym x y :
  SFcompare y x = CompOpp <$> SFcompare x y.
Proof.
  destruct x as [sx|sx| |sx mx ex], y as [sy|sy| |sy my ey]; simpl;
    try reflexivity;
    try (destruct sx; reflexivity); try (destruct sy; reflexivity);
    try (destruct sx, sy; reflexivity).
  destruct sx, sy; simpl; try reflexivity.
  - rewrite (Z.compare_antisym ey ex).
    destruct (ey ?= ex); simpl; try reflexivity.
    rewrite (Pos.compare_cont_antisym mx my Eq). reflexivity.
  - rewrite (Z.compare_antisym ey ex).
    destruct (ey ?= ex); simpl; try reflexivity.
    rewrite (Pos.compare_cont_antisym mx my Eq). reflexivity.
Qed.

(** [a >= b] is the negation of [a < b] unless one of them is NaN. *)
Lemma ge_lt a b :
  F32.ge a b = match SFcompare (F32.decode a) (F32.decode b) with
               | Some Lt | None => false
               | _ => true
               end.
Proof.
  unfold F32.ge, SFleb. rewrite SFcompare_antisym.
  destruct (SFcompare (F32.decode a) (F32.decode b)) as [[]|]; reflexivity.
Qed.

(** [digits2_pos] counts binary digits. *)
Lemma digits2_pos_bounds p :
  2 ^ (Z.pos (digits2_pos p) - 1) ≤ Z.pos p < 2 ^ Z.pos (digits2_pos p).
Proof.
  induction p as [p IH|p IH|]; cbn [digits2_pos].
  - rewrite Pos2Z.inj_succ.
    replace (Z.succ (Z.pos (digits2_pos p)) - 1) with (Z.succ (Z.pos (digits2_pos p) - 1)) by lia.
    rewrite !Z.pow_succ_r by lia. lia.
  - rewrite Pos2Z.inj_succ.
    replace (Z.succ (Z.pos (digits2_pos p)) - 1) with (Z.succ (Z.pos (digits2_pos p) - 1)) by lia.
    rewrite !Z.pow_succ_r by lia. lia.
  - simpl. lia.
Qed.

(** The number of digits of a mantissa between two powers of two. *)
Lemma digits2_pos_unique p k :
  0 < k → 2 ^ (k - 1) ≤ Z.pos p < 2 ^ k → Z.pos (digits2_pos p) = k.
Proof.
  intros Hk [Hlo Hhi]. pose proof (digits2_pos_bounds p) as [Dlo Dhi].
  assert (Z.pos (digits2_pos p) - 1 < k).
  { apply (Z.pow_lt_mono_r_iff 2); lia. }
  assert (k - 1 < Z.pos (digits2_pos p)).
  { apply (Z.pow_lt_mono_r_iff 2); lia. }
  lia.
Qed.

Lemma digits2_pos_le p k :
  0 ≤ k → Z.pos p < 2 ^ k → Z.pos (digits2_pos p) ≤ k.
Proof.
  intros Hk Hhi. pose proof (digits2_pos_bounds p) as [Dlo Dhi].
  assert (Z.pos (digits2_pos p) - 1 < k).
  { apply (Z.pow_lt_mono_r_iff 2); lia. }
  lia.
Qed.

(** The fields of a 32-bit pattern. *)
Lemma fields (b : Z) :
  F32.wf b →
  b = F32.sign_bit (F32.sign_of b) + F32.biased_exp b * 2 ^ 23 + F32.fraction b ∧
  0 ≤ F32.biased_exp b < 2 ^ 8 ∧ 0 ≤ F32.fraction b < 2 ^ 23.
Proof.
  unfold F32.wf, F32.sign_of, F32.biased_exp, F32.fraction, F32.sign_bit.
  intros Hb.
  assert (Hq : b / 2 ^ 31 = 0 ∨ b / 2 ^ 31 = 1) by (Z.to_euclidean_division_equations; lia).
  destruct Hq as [Hq|Hq]; rewrite Hq; cbn [Z.odd]; Z.to_euclidean_division_equations; lia.
Qed.

(** A pattern decodes to a value of the format. *)
Lemma decode_valid b : F32.wf b → valid_binary F32.prec F32.emax (F32.decode b) = true.
Proof.
  intros Hb. destruct (fields b Hb) as (_ & HE & HF).
  unfold F32.decode.
  destruct (F32.biased_exp b =? 0) eqn:E0.
  - destruct (F32.fraction b) as [|p|p] eqn:EF; try reflexivity.
    cbn [valid_binary]. unfold bounded, canonical_mantissa, fexp, emin, F32.prec, F32.emax.
    pose proof (digits2_pos_le p 23 ltac:(lia) ltac:(lia)).
    apply andb_true_iff. split; [apply Z.eqb_eq | apply Z.leb_le]; lia.
  - destruct (F32.biased_exp b =? 255) eqn:E255.
    + destruct (F32.fraction b =? 0); reflexivity.
    + destruct (F32.fraction b + 2 ^ 23) as [|p|p] eqn:EF; try reflexivity.
      cbn [valid_binary]. unfold bounded, canonical_mantissa, fexp, emin, F32.prec, F32.emax.
      pose proof (digits2_pos_unique p 24 ltac:(lia) ltac:(lia)).
      apply Z.eqb_neq in E0, E255.
      apply andb_true_iff. split; [apply Z.eqb_eq | apply Z.leb_le]; lia.
Qed.

(** Decoding loses nothing of a pattern that is not a NaN. *)
Lemma encode_decode b :
  F32.wf b → F32.is_nan b = false → F32.encode (F32.decode b) = b.
Proof.
  intros Hb Hn. destruct (fields b Hb) as (Hsum & HE & HF).
  unfold F32.is_nan in Hn. revert Hn. unfold F32.decode.
  destruct (F32.biased_exp b =? 0) eqn:E0.
  - apply Z.eqb_eq in E0.
    destruct (F32.fraction b) as [|p|p] eqn:EF; intros _; cbn [F32.encode]; try lia.
    destruct (Z.pos p <? 2 ^ 23) eqn:Ep; [|apply Z.ltb_ge in Ep; lia].
    rewrite Z.mod_small by lia. lia.
  - destruct (F32.biased_exp b =? 255) eqn:E255.
    + apply Z.eqb_eq in E255.
      destruct (F32.fraction b =? 0) eqn:EF0; [|discriminate].
      apply Z.eqb_eq in EF0. intros _. cbn [F32.encode]. lia.
    + apply Z.eqb_neq in E0, E255.
      destruct (F32.fraction b + 2 ^ 23) as [|p|p] eqn:EF; try lia.
      intros _. cbn [F32.encode].
      destruct (Z.pos p <? 2 ^ 23) eqn:Ep; [apply Z.ltb_lt in Ep; lia|].
      replace (F32.biased_exp b - 150 + 150) with (F32.biased_exp b) by lia.
      rewrite (Z.mod_small (F32.biased_exp b)) by lia.
      replace (Z.pos p) with (F32.fraction b + 1 * 2 ^ 23) by lia.
      rewrite Z.mod_add by lia. rewrite Z.mod_small by lia. lia.
Qed.

(** Rounding a mantissa of the format shifted left by 23 places gives
    the mantissa back: the product with the mantissa of 1 is exact. *)
Lemma round_shifted s m e :
  bounded F32.prec F32.emax m e = true →
  binary_round_aux F32.prec F32.emax s (Z.pos (8388608 * m)) (-23 + e) loc_Exact
  = S754_finite s m e.
Proof.
  unfold bounded, canonical_mantissa. rewrite andb_true_iff, Z.eqb_eq, Z.leb_le.
  intros [Hc He].
  unfold binary_round_aux.
  assert (Hsh : shr_fexp F32.prec F32.emax (Z.pos (8388608 * m)) (-23 + e) loc_Exact
                = ({| shr_m := Z.pos m; shr_r := false; shr_s := false |}, e)).
  { unfold shr_fexp.
    assert (Hd : Zdigits2 (Z.pos (8388608 * m)) = Z.pos (digits2_pos m) + 23).
    { change (Zdigits2 (Z.pos (8388608 * m)))
        with (Z.pos (Pos.iter Pos.succ (digits2_pos m) 23)).
      cbv [Pos.iter]. lia. }
    rewrite Hd.
    replace (fexp F32.prec F32.emax (Z.pos (digits2_pos m) + 23 + (-23 + e)) - (-23 + e))
      with 23.
    2:{ replace (Z.pos (digits2_pos m) + 23 + (-23 + e)) with (Z.pos (digits2_pos m) + e) by lia.
        rewrite Hc. lia. }
    cbn [shr shr_record_of_loc].
    replace (-23 + e + 23) with e by lia. reflexivity. }
  rewrite Hsh. cbn [shr_m loc_of_shr_record round_nearest_even].
  unfold shr_fexp. cbn [Zdigits2]. rewrite Hc, Z.sub_diag.
  cbn [shr shr_record_of_loc shr_m].
  destruct (e <=? F32.emax - F32.prec) eqn:E; [reflexivity|].
  apply Z.leb_gt in E. lia.
Qed.

Lemma decode_one : F32.decode F32.one = S754_finite false 8388608 (-23).
Proof. reflexivity. Qed.

Lemma decode_sign_bit s : F32.decode (F32.sign_bit s) = S754_zero s.
Proof. destruct s; reflexivity. Qed.

Lemma finite_not_nan x : F32.is_finite x = true → F32.is_nan x = false.
Proof. unfold F32.is_finite, F32.is_nan. destruct (F32.decode x); congruence. Qed.

(** A finite pattern is a signed zero or a valid mantissa and exponent. *)
Lemma finite_cases x :
  F32.wf x → F32.is_finite x = true →
  (∃ s, F32.decode x = S754_zero s ∧ x = F32.sign_bit s) ∨
  (∃ s m e, F32.decode x = S754_finite s m e ∧
            bounded F32.prec F32.emax m e = true ∧
            F32.encode (S754_finite s m e) = x).
Proof.
  intros Hx Hf.
  pose proof (decode_valid x Hx) as Hv.
  pose proof (encode_decode x Hx (finite_not_nan x Hf)) as Hr.
  unfold F32.is_finite in Hf.
  destruct (F32.decode x) as [s|s| |s m e]; try discriminate Hf.
  - left. exists s. split; [reflexivity | symmetry; exact Hr].
  - right. exists s, m, e. auto.
Qed.

(** [1 * x] is [x], bit for bit. *)
Lemma mul_one_l x : F32.wf x → F32.is_finite x = true → F32.mul F32.one x = x.
Proof.
  intros Hx Hf. unfold F32.mul. rewrite decode_one.
  destruct (finite_cases x Hx Hf) as [(s & -> & ->) | (s & m & e & -> & Hb & Hr)].
  - reflexivity.
  - unfold SFmul. cbn [xorb]. rewrite round_shifted by exact Hb. exact Hr.
Qed.

(** [x * 1] is [x], bit for bit. *)
Lemma mul_one_r x : F32.wf x → F32.is_finite x = true → F32.mul x F32.one = x.
Proof.
  intros Hx Hf. unfold F32.mul. rewrite decode_one.
  destruct (finite_cases x Hx Hf) as [(s & -> & ->) | (s & m & e & -> & Hb & Hr)].
  - destruct s; reflexivity.
  - unfold SFmul. rewrite xorb_false_r, Pos.mul_comm, Z.add_comm.
    rewrite round_shifted by exact Hb. exact Hr.
Qed.

(** [0 * y] is a zero. *)
Lemma mul_zero_l y : F32.is_finite y = true → ∃ s, F32.mul F32.zero y = F32.sign_bit s.
Proof.
  unfold F32.is_finite, F32.mul. intros Hf.
  change (F32.decode F32.zero) with (S754_zero false).
  destruct (F32.decode y) as [s|s| |s m e]; try discriminate Hf; exists s; reflexivity.
Qed.

(** The sum of zeros is a zero, and adding a zero to 1 gives 1. *)
Lemma zeros_plus_one s1 s2 :
  F32.add (F32.add (F32.sign_bit s1) (F32.sign_bit s2)) F32.one = F32.one.
Proof. destruct s1, s2; vm_compute; reflexivity. Qed.

Lemma drop_zero_sign_nonzero x s m e :
  F32.decode x = S754_finite s m e → drop_zero_sign x = x.
Proof.
  intros Hd. unfold drop_zero_sign. destruct (x =? neg_zero) eqn:E; [|reflexivity].
  apply Z.eqb_eq in E. subst x. discriminate Hd.
Qed.

Lemma drop_zero_sign_wf x : F32.wf x → F32.wf (drop_zero_sign x).
Proof.
  unfold drop_zero_sign. destruct (x =? neg_zero); [|auto].
  intros _. unfold F32.wf, F32.zero. lia.
Qed.

Lemma drop_zero_sign_finite x :
  F32.is_finite x = true → F32.is_finite (drop_zero_sign x) = true.
Proof. unfold drop_zero_sign. destruct (x =? neg_zero); [reflexivity | auto]. Qed.


End F32Facts.

(** ** Lanes *)

Module SimdFacts.

Lemma bitselect32_ones a b : F32.wf a → bitselect32 a b all_ones = a.
Proof.
  intros Ha. unfold bitselect32, all_ones.
  rewrite Z.lxor_nilpotent, Z.land_0_r, Z.lor_0_r.
  rewrite Z.land_ones by lia. apply Z.mod_small. exact Ha.
Qed.

Lemma bitselect32_zero a b : F32.wf b → bitselect32 a b 0 = b.
Proof.
  intros Hb. unfold bitselect32, all_ones.
  rewrite Z.land_0_r, Z.lxor_0_l, Z.lor_0_l.
  rewrite Z.land_ones by lia. apply Z.mod_small. exact Hb.
Qed.

(** The mask-and-select of a lane and the branch of the scalar loop
    store the same pair. *)
Lemma lane_out_point_out cs x y : lane_out cs x y = point_out cs x y.
Proof.
  unfold lane_out, point_out.
  set (X := F32.add (F32.add (F32.mul (m0_s cs) x) _) _).
  set (Y := F32.add (F32.add (F32.mul (m1_s cs) x) _) _).
  set (W := F32.add (F32.add (F32.mul (m2_s cs) x) _) _).
  rewrite F32Facts.ge_lt. unfold F32.lt, SFltb.
  destruct (SFcompare (F32.decode (F32.abs W)) (F32.decode MATRIX_SVD_EPSILON))
    as [[]|] eqn:Hc.
  - rewrite !bitselect32_ones by apply F32Facts.encode_wf. reflexivity.
  - rewrite !bitselect32_zero by (unfold F32.wf, F32.quiet_NaN; lia). reflexivity.
  - rewrite !bitselect32_ones by apply F32Facts.encode_wf. reflexivity.
  - rewrite !bitselect32_zero by (unfold F32.wf, F32.quiet_NaN; lia).
    assert (HW : F32.decode W = S754_nan).
    { rewrite F32Facts.decode_abs in Hc.
      destruct (F32.decode W); try reflexivity; discriminate Hc. }
    rewrite !F32Facts.mul_recip_nan by exact HW. reflexivity.
Qed.

End SimdFacts.

(** ** Memory and the two loops *)

Module LoopFacts.

(** Rewrites a lookup through a stack of inserts, deciding the address
    comparisons by linear arithmetic. *)
#[local] Opaque F32.mul F32.add F32.div F32.lt F32.ge F32.abs.

Ltac through_inserts :=
  repeat (rewrite lookup_insert; case_decide; try lia); try reflexivity.

Lemma store_is_Some (m : mem) p idx v :
  is_Some (m !! (p + idx)) → store m p idx v = Some (<[p + idx := v]> m).
Proof. intros [w Hw]. unfold store. rewrite Hw. reflexivity. Qed.

Lemma readable_insert (m : mem) k v p n :
  readable m p n → readable (<[k := v]> m) p n.
Proof.
  intros H a Ha. rewrite lookup_insert. case_decide; [eauto | auto].
Qed.

Lemma transformed_refl f pin pout lo hi (m : mem) :
  hi ≤ lo → transformed f pin pout lo hi m m.
Proof. intros H. split; [intros; lia | reflexivity]. Qed.

(** Two consecutive ranges of slots compose, when the first range of
    output slots is not an input of the second. *)
Lemma transformed_app f pin pout lo mid hi (m m1 m2 : mem) :
  lo ≤ mid ≤ hi →
  disjoint (pin + 2 * mid) (2 * (hi - mid)) (pout + 2 * lo) (2 * (mid - lo)) →
  transformed f pin pout lo mid m m1 →
  transformed f pin pout mid hi m1 m2 →
  transformed f pin pout lo hi m m2.
Proof.
  intros Hle Hd [H1 F1] [H2 F2]. split.
  - intros j x y Hj Hx Hy.
    destruct (Z_lt_dec j mid) as [Hlt|Hge].
    + destruct (H1 j x y ltac:(lia) Hx Hy) as [E1 E2].
      rewrite !F2 by lia. auto.
    + apply H2; [lia | |].
      * rewrite F1; [exact Hx | unfold disjoint in Hd; lia].
      * rewrite F1; [exact Hy | unfold disjoint in Hd; lia].
  - intros a Ha. rewrite F2, F1 by lia. reflexivity.
Qed.

(** One round of the scalar loop. *)
Lemma scalar_body_spec cs pin pout i (m : mem) :
  readable m (pin + 2 * i) 2 → readable m (pout + 2 * i) 2 →
  ∃ m', scalar_body cs pin pout i m = Some m' ∧
        transformed (point_out cs) pin pout i (i + 1) m m' ∧
        (∀ p n, readable m p n → readable m' p n).
Proof.
  intros Hin Hout.
  destruct (Hin (pin + 2 * i) ltac:(lia)) as [x Hx].
  destruct (Hin (pin + 2 * i + 1) ltac:(lia)) as [y Hy].
  pose proof (Hout (pout + 2 * i) ltac:(lia)) as Ho0.
  pose proof (Hout (pout + 2 * i + 1) ltac:(lia)) as Ho1.
  unfold scalar_body, load.
  replace (pin + i * 2) with (pin + 2 * i) by lia.
  replace (pin + (i * 2 + 1)) with (pin + 2 * i + 1) by lia.
  rewrite Hx, Hy. cbn [mbind option_bind].
  assert (Hstores : ∀ u v,
    (m1 ← store m pout (i * 2) u; store m1 pout (i * 2 + 1) v)
    = Some (<[pout + 2 * i + 1 := v]> (<[pout + 2 * i := u]> m))).
  { intros u v.
    replace (i * 2 + 1) with (2 * i + 1) by lia.
    replace (i * 2) with (2 * i) by lia.
    rewrite store_is_Some by exact Ho0. cbn [mbind option_bind].
    rewrite store_is_Some.
    - f_equal. f_equal. lia.
    - replace (pout + (2 * i + 1)) with (pout + 2 * i + 1) by lia.
      rewrite lookup_insert_ne by lia. exact Ho1. }
  set (r := point_out cs x y).
  exists (<[pout + 2 * i + 1 := r.2]> (<[pout + 2 * i := r.1]> m)).
  split; [|split].
  - subst r. unfold point_out. cbv zeta.
    destruct (F32.lt _ MATRIX_SVD_EPSILON); rewrite Hstores; reflexivity.
  - split.
    + intros j x' y' Hj Hx' Hy'.
      assert (j = i) by lia. subst j.
      rewrite Hx in Hx'. rewrite Hy in Hy'.
      injection Hx' as <-. injection Hy' as <-.
      split; through_inserts.
    + intros a Ha. through_inserts.
  - intros p n Hp. do 2 apply readable_insert. exact Hp.
Qed.

Lemma scalar_loop_unfold cs pin pout n i (m : mem) :
  scalar_loop cs pin pout n i m =
  if decide (i < n) then
    m' ← scalar_body cs pin pout i m; scalar_loop cs pin pout n (i + 1) m'
  else Some (i, m).
Proof.
  rewrite scalar_loop_equation_1. unfold scalar_loop_unfold_clause_1.
  destruct (Z_lt_dec i n); case_decide; try lia; [|reflexivity].
  destruct (scalar_body cs pin pout i m); reflexivity.
Qed.

(** The scalar loop from [i] to [n]. *)
Lemma scalar_loop_spec cs pin pout n (k : nat) : ∀ i (m : mem),
  n = i + Z.of_nat k →
  readable m (pin + 2 * i) (2 * (n - i)) →
  readable m (pout + 2 * i) (2 * (n - i)) →
  disjoint (pin + 2 * i) (2 * (n - i)) (pout + 2 * i) (2 * (n - i)) →
  ∃ m', scalar_loop cs pin pout n i m = Some (n, m') ∧
        transformed (point_out cs) pin pout i n m m' ∧
        (∀ p l, readable m p l → readable m' p l).
Proof.
  induction k as [|k IH]; intros i m Hn Hin Hout Hd.
  - rewrite scalar_loop_unfold. case_decide; [lia|].
    exists m. replace n with i by lia.
    split; [reflexivity | split; [apply transformed_refl; lia | auto]].
  - rewrite scalar_loop_unfold. case_decide; [|lia].
    destruct (scalar_body_spec cs pin pout i m) as (m1 & E1 & T1 & R1).
    { intros a Ha. apply Hin. lia. }
    { intros a Ha. apply Hout. lia. }
    rewrite E1. cbn [mbind option_bind].
    destruct (IH (i + 1) m1) as (m2 & E2 & T2 & R2).
    + lia.
    + apply R1. intros a Ha. apply Hin. lia.
    + apply R1. intros a Ha. apply Hout. lia.
    + unfold disjoint in *. lia.
    + exists m2. split; [exact E2 | split].
      * apply (transformed_app _ _ _ i (i + 1) n m m1 m2); auto; [lia|].
        unfold disjoint in *. lia.
      * auto.
Qed.

(** One round of the SIMD loop: four slots, each as the scalar loop
    would have written it. *)
Lemma simd_body_spec cs pin pout i (m : mem) :
  readable m (pin + 2 * i) 8 → readable m (pout + 2 * i) 8 →
  ∃ m', simd_body (splat_all cs) pin pout i m = Some m' ∧
        transformed (point_out cs) pin pout i (i + 4) m m' ∧
        (∀ p n, readable m p n → readable m' p n).
Proof.
  intros Hin Hout.
  destruct (Hin (pin + i * 2) ltac:(lia)) as [x0 Hx0].
  destruct (Hin (pin + (i * 2 + 1)) ltac:(lia)) as [y0 Hy0].
  destruct (Hin (pin + (i * 2 + 2)) ltac:(lia)) as [x1 Hx1].
  destruct (Hin (pin + (i * 2 + 3)) ltac:(lia)) as [y1 Hy1].
  destruct (Hin (pin + (i * 2 + 4)) ltac:(lia)) as [x2 Hx2].
  destruct (Hin (pin + (i * 2 + 4 + 1)) ltac:(lia)) as [y2 Hy2].
  destruct (Hin (pin + (i * 2 + 4 + 2)) ltac:(lia)) as [x3 Hx3].
  destruct (Hin (pin + (i * 2 + 4 + 3)) ltac:(lia)) as [y3 Hy3].
  destruct (Hout (pout + i * 2) ltac:(lia)) as [o0 Ho0].
  destruct (Hout (pout + (i * 2 + 1)) ltac:(lia)) as [o1 Ho1].
  destruct (Hout (pout + (i * 2 + 2)) ltac:(lia)) as [o2 Ho2].
  destruct (Hout (pout + (i * 2 + 3)) ltac:(lia)) as [o3 Ho3].
  destruct (Hout (pout + (i * 2 + 4)) ltac:(lia)) as [o4 Ho4].
  destruct (Hout (pout + (i * 2 + 4 + 1)) ltac:(lia)) as [o5 Ho5].
  destruct (Hout (pout + (i * 2 + 4 + 2)) ltac:(lia)) as [o6 Ho6].
  destruct (Hout (pout + (i * 2 + 4 + 3)) ltac:(lia)) as [o7 Ho7].
  unfold simd_body, wasm_v128_load, wasm_v128_store, load.
  rewrite Hx0, Hy0, Hx1, Hy1, Hx2, Hy2, Hx3, Hy3. cbn [mbind option_bind].
  rewrite Ho0, Ho1, Ho2, Ho3. cbn [mbind option_bind].
  rewrite !(lookup_insert_ne _ _ (pout + (i * 2 + 4))) by lia.
  rewrite !(lookup_insert_ne _ _ (pout + (i * 2 + 4 + 1))) by lia.
  rewrite !(lookup_insert_ne _ _ (pout + (i * 2 + 4 + 2))) by lia.
  rewrite !(lookup_insert_ne _ _ (pout + (i * 2 + 4 + 3))) by lia.
  rewrite Ho4, Ho5, Ho6, Ho7. cbn [mbind option_bind].
  eexists. split; [reflexivity | split].
  - split.
    + intros j x y Hj Hx Hy.
      rewrite <- SimdFacts.lane_out_point_out.
      assert (Hc : j = i ∨ j = i + 1 ∨ j = i + 2 ∨ j = i + 3) by lia.
      destruct Hc as [-> | [-> | [-> | ->]]].
      * replace (pin + 2 * i) with (pin + i * 2) in Hx by lia.
        replace (pin + 2 * i + 1) with (pin + (i * 2 + 1)) in Hy by lia.
        rewrite Hx0 in Hx. rewrite Hy0 in Hy.
        injection Hx as <-. injection Hy as <-.
        split; through_inserts.
      * replace (pin + 2 * (i + 1)) with (pin + (i * 2 + 2)) in Hx by lia.
        replace (pin + 2 * (i + 1) + 1) with (pin + (i * 2 + 3)) in Hy by lia.
        rewrite Hx1 in Hx. rewrite Hy1 in Hy.
        injection Hx as <-. injection Hy as <-.
        split; through_inserts.
      * replace (pin + 2 * (i + 2)) with (pin + (i * 2 + 4)) in Hx by lia.
        replace (pin + 2 * (i + 2) + 1) with (pin + (i * 2 + 4 + 1)) in Hy by lia.
        rewrite Hx2 in Hx. rewrite Hy2 in Hy.
        injection Hx as <-. injection Hy as <-.
        split; through_inserts.
      * replace (pin + 2 * (i + 3)) with (pin + (i * 2 + 4 + 2)) in Hx by lia.
        replace (pin + 2 * (i + 3) + 1) with (pin + (i * 2 + 4 + 3)) in Hy by lia.
        rewrite Hx3 in Hx. rewrite Hy3 in Hy.
        injection Hx as <-. injection Hy as <-.
        split; through_inserts.
    + intros a Ha. through_inserts.
  - intros p n Hp. do 8 apply readable_insert. exact Hp.
Qed.

Lemma simd_loop_unfold cv pin pout n i (m : mem) :
  simd_loop cv pin pout n i m =
  if decide (i < n) then
    m' ← simd_body cv pin pout i m; simd_loop cv pin pout n (i + 4) m'
  else Some (i, m).
Proof.
  rewrite simd_loop_equation_1. unfold simd_loop_unfold_clause_1.
  destruct (Z_lt_dec i n); case_decide; try lia; [|reflexivity].
  destruct (simd_body cv pin pout i m); reflexivity.
Qed.

(** The SIMD loop from [i] to [n], [k] rounds of four slots. *)
Lemma simd_loop_spec cs pin pout n (k : nat) : ∀ i (m : mem),
  n = i + 4 * Z.of_nat k →
  readable m (pin + 2 * i) (2 * (n - i)) →
  readable m (pout + 2 * i) (2 * (n - i)) →
  disjoint (pin + 2 * i) (2 * (n - i)) (pout + 2 * i) (2 * (n - i)) →
  ∃ m', simd_loop (splat_all cs) pin pout n i m = Some (n, m') ∧
        transformed (point_out cs) pin pout i n m m' ∧
        (∀ p l, readable m p l → readable m' p l).
Proof.
  induction k as [|k IH]; intros i m Hn Hin Hout Hd.
  - rewrite simd_loop_unfold. case_decide; [lia|].
    exists m. replace n with i by lia.
    split; [reflexivity | split; [apply transformed_refl; lia | auto]].
  - rewrite simd_loop_unfold. case_decide; [|lia].
    destruct (simd_body_spec cs pin pout i m) as (m1 & E1 & T1 & R1).
    { intros a Ha. apply Hin. lia. }
    { intros a Ha. apply Hout. lia. }
    rewrite E1. cbn [mbind option_bind].
    destruct (IH (i + 4) m1) as (m2 & E2 & T2 & R2).
    + lia.
    + apply R1. intros a Ha. apply Hin. lia.
    + apply R1. intros a Ha. apply Hout. lia.
    + unfold disjoint in *. lia.
    + exists m2. split; [exact E2 | split].
      * apply (transformed_app _ _ _ i (i + 4) n m m1 m2); auto; [lia|].
        unfold disjoint in *. lia.
      * auto.
Qed.

Lemma read_coeffs_Some (m : mem) mp :
  readable m mp 9 → is_Some (read_coeffs m mp).
Proof.
  intros H. unfold read_coeffs, coeff, load.
  destruct (H (mp + (0 + 3 * 0)) ltac:(lia)) as [c0 ->].
  destruct (H (mp + (1 + 3 * 0)) ltac:(lia)) as [c1 ->].
  destruct (H (mp + (2 + 3 * 0)) ltac:(lia)) as [c2 ->].
  destruct (H (mp + (0 + 3 * 1)) ltac:(lia)) as [c3 ->].
  destruct (H (mp + (1 + 3 * 1)) ltac:(lia)) as [c4 ->].
  destruct (H (mp + (2 + 3 * 1)) ltac:(lia)) as [c5 ->].
  destruct (H (mp + (0 + 3 * 2)) ltac:(lia)) as [c6 ->].
  destruct (H (mp + (1 + 3 * 2)) ltac:(lia)) as [c7 ->].
  destruct (H (mp + (2 + 3 * 2)) ltac:(lia)) as [c8 ->].
  cbn [mbind option_bind]. eauto.
Qed.

(** The coefficients read back the same while the matrix is left
    alone. *)
Lemma read_coeffs_frame (m m' : mem) mp :
  (∀ a, mp ≤ a < mp + 9 → m' !! a = m !! a) →
  read_coeffs m' mp = read_coeffs m mp.
Proof.
  intros H. unfold read_coeffs, coeff, load.
  rewrite !H by lia. reflexivity.
Qed.

(** [num_points - num_points % 4] is the largest multiple of four
    below a positive count, and not positive otherwise. *)
Lemma num_points_simd_range n :
  let s := n - Z.rem n 4 in
  (n ≤ 0 → s ≤ 0) ∧ (0 < n → 0 ≤ s ≤ n ∧ n - s < 4 ∧ s = 4 * Z.of_nat (Z.to_nat (n ÷ 4))).
Proof.
  cbv zeta.
  pose proof (Z.quot_rem' n 4) as Hq.
  split; intros Hn.
  - pose proof (Z.rem_bound_abs n 4 ltac:(lia)).
    pose proof (Z.rem_nonpos n 4 ltac:(lia) Hn).
    lia.
  - assert (0 ≤ Z.rem n 4 < 4) by (apply Z.rem_bound_pos; lia).
    assert (0 ≤ n ÷ 4) by (apply Z.quot_pos; lia).
    lia.
Qed.

(** What a whole call writes, given what the caller owes. *)
Lemma transform_points_batch_spec (m : mem) mp pin pout n :
  call_ok m mp pin pout n →
  ∃ cs m', read_coeffs m mp = Some cs ∧
           transform_points_batch m mp pin pout n = Some m' ∧
           transformed (point_out cs) pin pout 0 n m m'.
Proof.
  intros [Hm Hi Ho Hio Hmo _].
  destruct (read_coeffs_Some m mp Hm) as [cs Hcs].
  exists cs. unfold transform_points_batch. rewrite Hcs. cbn [mbind option_bind].
  destruct (num_points_simd_range n) as [Hneg Hpos].
  set (s := n - Z.rem n 4) in *.
  destruct (Z_le_gt_dec n 0) as [Hn|Hn].
  - (* nothing to do *)
    specialize (Hneg Hn).
    rewrite simd_loop_unfold. case_decide; [lia|]. cbn [mbind option_bind].
    destruct (0 <? n) eqn:E; [apply Z.ltb_lt in E; lia|].
    exists m. split; [reflexivity | split; [reflexivity|]].
    apply transformed_refl. lia.
  - destruct (Hpos ltac:(lia)) as (Hs & Hr & Hk).
    destruct (simd_loop_spec cs pin pout s (Z.to_nat (n ÷ 4)) 0 m)
      as (m1 & E1 & T1 & R1).
    { lia. }
    { intros a Ha. apply Hi. lia. }
    { intros a Ha. apply Ho. lia. }
    { unfold disjoint in *. lia. }
    rewrite E1. cbn [mbind option_bind].
    destruct (s <? n) eqn:E.
    + apply Z.ltb_lt in E.
      assert (Hcs1 : read_coeffs m1 mp = Some cs).
      { rewrite <- Hcs. apply read_coeffs_frame. intros a Ha.
        apply T1. unfold disjoint in Hmo. lia. }
      rewrite Hcs1. cbn [mbind option_bind].
      destruct (scalar_loop_spec cs pin pout n (Z.to_nat (n - s)) s m1)
        as (m2 & E2 & T2 & R2).
      { lia. }
      { apply R1. intros a Ha. apply Hi. lia. }
      { apply R1. intros a Ha. apply Ho. lia. }
      { unfold disjoint in *. lia. }
      rewrite E2. cbn [mbind option_bind].
      exists m2. split; [reflexivity | split; [reflexivity|]].
      apply (transformed_app _ _ _ 0 s n m m1 m2); auto; try lia.
      unfold disjoint in *. lia.
    + apply Z.ltb_ge in E. assert (s = n) by lia.
      exists m1. split; [reflexivity | split; [reflexivity|]].
      congruence.
Qed.

(** The same for the scalar loop run alone. *)
Lemma transform_points_scalar_spec (m : mem) mp pin pout n :
  call_ok m mp pin pout n →
  ∃ cs m', read_coeffs m mp = Some cs ∧
           transform_points_scalar m mp pin pout n = Some m' ∧
           transformed (point_out cs) pin pout 0 n m m'.
Proof.
  intros [Hm Hi Ho Hio Hmo _].
  destruct (read_coeffs_Some m mp Hm) as [cs Hcs].
  exists cs. unfold transform_points_scalar. rewrite Hcs. cbn [mbind option_bind].
  destruct (Z_le_gt_dec n 0) as [Hn|Hn].
  - rewrite scalar_loop_unfold. case_decide; [lia|]. cbn [mbind option_bind].
    exists m. split; [reflexivity | split; [reflexivity|]].
    apply transformed_refl. lia.
  - destruct (scalar_loop_spec cs pin pout n (Z.to_nat n) 0 m)
      as (m1 & E1 & T1 & R1).
    { lia. }
    { intros a Ha. apply Hi. lia. }
    { intros a Ha. apply Ho. lia. }
    { unfold disjoint in *. lia. }
    rewrite E1. cbn [mbind option_bind].
    exists m1. auto.
Qed.

(** [transformed] pins the resulting memory down. *)
Lemma transformed_unique f pin pout n (m m1 m2 : mem) :
  readable m pin (2 * n) →
  transformed f pin pout 0 n m m1 →
  transformed f pin pout 0 n m m2 →
  m1 = m2.
Proof.
  intros Hi [V1 F1] [V2 F2]. apply map_eq. intros a.
  destruct (decide (pout + 2 * 0 ≤ a < pout + 2 * n)) as [Ha|Ha].
  - set (j := (a - pout) / 2).
    assert (Hj : a = pout + 2 * j ∨ a = pout + 2 * j + 1).
    { pose proof (Z.div_mod (a - pout) 2 ltac:(lia)).
      pose proof (Z.mod_pos_bound (a - pout) 2 ltac:(lia)).
      fold j in H. lia. }
    assert (Hjn : 0 ≤ j < n) by lia.
    clearbody j.
    destruct (Hi (pin + 2 * j) ltac:(lia)) as [x Hx].
    destruct (Hi (pin + 2 * j + 1) ltac:(lia)) as [y Hy].
    destruct (V1 j x y Hjn Hx Hy) as [A1 B1].
    destruct (V2 j x y Hjn Hx Hy) as [A2 B2].
    destruct Hj as [-> | ->]; congruence.
  - rewrite F1, F2 by exact Ha. reflexivity.
Qed.

End LoopFacts.

(** ** Executable checks *)

Module CheckFacts.

Lemma readableb_ok (m : mem) p n : readableb m p n = true → readable m p n.
Proof.
  unfold readableb. rewrite forallb_forall. intros H a Ha.
  specialize (H (Z.to_nat (a - p))). cbv beta in H.
  rewrite Z2Nat.id in H by lia.
  replace (p + (a - p)) with a in H by lia.
  apply bool_decide_eq_true in H; [exact H|].
  apply in_seq. lia.
Qed.

Lemma disjointb_ok p n q k : disjointb p n q k = true → disjoint p n q k.
Proof. unfold disjointb, disjoint. lia. Qed.

Lemma call_okb_ok (m : mem) mp pin pout n :
  call_okb m mp pin pout n = true → call_ok m mp pin pout n.
Proof.
  unfold call_okb. rewrite !andb_true_iff.
  intros [[[[[[H1 H2] H3] H4] H5] H6] H7].
  split; auto using readableb_ok, disjointb_ok. lia.
Qed.

Lemma finite_batchb_ok (m : mem) pin n :
  finite_batchb m pin n = true → finite_batch m pin n.
Proof.
  unfold finite_batchb. rewrite forallb_forall. intros H a x Ha Hx.
  specialize (H (Z.to_nat (a - pin))). cbv beta in H.
  rewrite Z2Nat.id in H by lia.
  replace (pin + (a - pin)) with a in H by lia.
  rewrite Hx in H. unfold F32.wf.
  assert (Hin : In (Z.to_nat (a - pin)) (seq 0 (Z.to_nat (2 * n)))) by (apply in_seq; lia).
  specialize (H Hin). unfold F32.wfb in H. rewrite !andb_true_iff in H.
  destruct H as [[H1 H2] H3]. split; [lia | exact H3].
Qed.

End CheckFacts.

(** ** transform_points_batch *)

Module PolicyFacts.

#[local] Opaque F32.mul F32.add F32.div F32.lt F32.ge F32.abs.

(** The coefficients the loops use are the entries [M(r, c)] of the
    matrix view, column-major. *)
Lemma read_coeffs_view (m : mem) mp cs :
  read_coeffs m mp = Some cs →
  cs = ScalarCoeffs (view m mp 0 0) (view m mp 1 0) (view m mp 2 0)
                    (view m mp 0 1) (view m mp 1 1) (view m mp 2 1)
                    (view m mp 0 2) (view m mp 1 2) (view m mp 2 2).
Proof.
  unfold read_coeffs, view. intros H.
  destruct (coeff m mp 0 0); [|discriminate H].
  destruct (coeff m mp 1 0); [|discriminate H].
  destruct (coeff m mp 2 0); [|discriminate H].
  destruct (coeff m mp 0 1); [|discriminate H].
  destruct (coeff m mp 1 1); [|discriminate H].
  destruct (coeff m mp 2 1); [|discriminate H].
  destruct (coeff m mp 0 2); [|discriminate H].
  destruct (coeff m mp 1 2); [|discriminate H].
  destruct (coeff m mp 2 2); [|discriminate H].
  cbn in H. injection H as <-. reflexivity.
Qed.

Lemma point_out_reciprocal (m : mem) mp cs x y :
  read_coeffs m mp = Some cs →
  point_out cs x y = reciprocal_policy (view m mp) x y.
Proof.
  intros H. rewrite (read_coeffs_view m mp cs H). reflexivity.
Qed.

End PolicyFacts.

(** C3, as the code has it: slot [i] of the output holds [(NaN, NaN)]
    when [|W| < SVD_EPS] and [(X * (1 / W), Y * (1 / W))] otherwise,
    with [X = M00*x + M01*y + M02], [Y = M10*x + M11*y + M12] and
    [W = M20*x + M21*y + M22]: the quotient is taken as a product with
    the rounded reciprocal of [W]. *)
Theorem slot_holds_reciprocal_policy (m : mem) mp pin pout n :
  call_ok m mp pin pout n →
  writes_slots (fun x y x' y' => (x', y') = reciprocal_policy (view m mp) x y)
               m mp pin pout n.
Proof.
  intros Hok.
  destruct (LoopFacts.transform_points_batch_spec m mp pin pout n Hok)
    as (cs & m' & Hcs & E & [V F]).
  exists m'. split; [exact E|].
  intros i x y Hi Hx Hy.
  destruct (V i x y Hi Hx Hy) as [A B].
  rewrite (PolicyFacts.point_out_reciprocal m mp cs x y Hcs) in A, B.
  eexists _, _. split; [exact A | split; [exact B|]].
  destruct (reciprocal_policy (view m mp) x y). reflexivity.
Qed.

Lemma slot_holds_reciprocal_policy_witness :
  writes_slots (fun x y x' y' => (x', y') = reciprocal_policy (view mem_five 0) x y)
               mem_five 0 9 19 5.
Proof.
  apply (slot_holds_reciprocal_policy mem_five 0 9 19 5).
  apply CheckFacts.call_okb_ok. vm_compute. reflexivity.
Defined.

(** C3, as stated, fails: through [diag(1, 1, 3)] the point [(5, 0)]
    has [X = 5] and [W = 3]; the code stores [5 * (1/3)], the pattern
    [0x3FD55556], where [5 / 3] is [0x3FD55555]. *)
Lemma slot_is_not_the_quotient :
  call_ok mem_thirds 0 9 11 1 ∧
  ¬ writes_slots (fun x y x' y' => (x', y') = quotient_policy (view mem_thirds 0) x y)
                 mem_thirds 0 9 11 1.
Proof.
  split; [apply CheckFacts.call_okb_ok; vm_compute; reflexivity|].
  intros (m' & E & H).
  destruct (H 0 (f32_of_Z 5) 0 ltac:(lia) eq_refl eq_refl) as (x' & y' & Hx' & Hy' & R).
  assert (Hrun : (m1 ← transform_points_batch mem_thirds 0 9 11 1; m1 !! 11)
                 = Some 0x3FD55556) by (vm_compute; reflexivity).
  rewrite E in Hrun. cbn [mbind option_bind] in Hrun.
  change (11 + 2 * 0) with 11 in Hx'.
  assert (Hx : Some x' = Some 0x3FD55556) by (rewrite <- Hx'; exact Hrun).
  injection Hx as ->.
  assert (Hq : (quotient_policy (view mem_thirds 0) (f32_of_Z 5) 0).1 = 0x3FD55555)
    by (vm_compute; reflexivity).
  rewrite <- R in Hq. cbn [fst] in Hq. discriminate Hq.
Qed.

(** C9: with a non-positive count nothing is written; in general
    only the [2 * num_points] cells of the output batch can change,
    and the input batch is read back as it was. *)
Theorem only_output_slots_written (m : mem) mp pin pout n :
  call_ok m mp pin pout n →
  ∃ m', transform_points_batch m mp pin pout n = Some m' ∧
        (n ≤ 0 → m' = m) ∧
        (∀ a, ¬ (pout ≤ a < pout + 2 * n) → m' !! a = m !! a) ∧
        (∀ a, pin ≤ a < pin + 2 * n → m' !! a = m !! a).
Proof.
  intros Hok.
  destruct (LoopFacts.transform_points_batch_spec m mp pin pout n Hok)
    as (cs & m' & Hcs & E & [V F]).
  exists m'. split; [exact E|].
  assert (Hframe : ∀ a, ¬ (pout ≤ a < pout + 2 * n) → m' !! a = m !! a).
  { intros a Ha. apply F. lia. }
  split; [|split].
  - intros Hn. apply map_eq. intros a. apply Hframe. lia.
  - exact Hframe.
  - intros a Ha. apply Hframe.
    destruct Hok as [_ _ _ Hd _ _]. unfold disjoint in Hd. lia.
Qed.

Lemma only_output_slots_written_witness :
  ∃ m', transform_points_batch mem_five 0 9 19 5 = Some m' ∧
        (5 ≤ 0 → m' = mem_five) ∧
        (∀ a, ¬ (19 ≤ a < 19 + 2 * 5) → m' !! a = mem_five !! a) ∧
        (∀ a, 9 ≤ a < 9 + 2 * 5 → m' !! a = mem_five !! a).
Proof.
  apply (only_output_slots_written mem_five 0 9 19 5).
  apply CheckFacts.call_okb_ok. vm_compute. reflexivity.
Defined.

(** C10: slot [i] of the output is a function of the matrix and of
    slot [i] of the input alone: two calls on memories that hold the
    same matrix and agree on input slot [i] agree on output slot
    [i]. *)
Theorem output_slot_depends_on_its_input_slot (m1 m2 : mem) mp pin pout n i :
  call_ok m1 mp pin pout n → call_ok m2 mp pin pout n →
  (∀ a, mp ≤ a < mp + 9 → m1 !! a = m2 !! a) →
  0 ≤ i < n →
  m1 !! (pin + 2 * i) = m2 !! (pin + 2 * i) →
  m1 !! (pin + 2 * i + 1) = m2 !! (pin + 2 * i + 1) →
  ∃ m1' m2', transform_points_batch m1 mp pin pout n = Some m1' ∧
             transform_points_batch m2 mp pin pout n = Some m2' ∧
             m1' !! (pout + 2 * i) = m2' !! (pout + 2 * i) ∧
             m1' !! (pout + 2 * i + 1) = m2' !! (pout + 2 * i + 1).
Proof.
  intros Hok1 Hok2 HM Hi Hx Hy.
  destruct (LoopFacts.transform_points_batch_spec m1 mp pin pout n Hok1)
    as (cs1 & m1' & Hcs1 & E1 & [V1 _]).
  destruct (LoopFacts.transform_points_batch_spec m2 mp pin pout n Hok2)
    as (cs2 & m2' & Hcs2 & E2 & [V2 _]).
  assert (cs2 = cs1).
  { rewrite (LoopFacts.read_coeffs_frame m2 m1 mp HM) in Hcs1. congruence. }
  subst cs2.
  destruct (ok_in _ _ _ _ _ Hok1 (pin + 2 * i) ltac:(lia)) as [x Hx1].
  destruct (ok_in _ _ _ _ _ Hok1 (pin + 2 * i + 1) ltac:(lia)) as [y Hy1].
  destruct (V1 i x y Hi Hx1 Hy1) as [A1 B1].
  rewrite Hx in Hx1. rewrite Hy in Hy1.
  destruct (V2 i x y Hi Hx1 Hy1) as [A2 B2].
  exists m1', m2'. repeat split; congruence.
Qed.

Lemma output_slot_depends_on_its_input_slot_witness :
  ∃ m1' m2', transform_points_batch mem_five 0 9 19 5 = Some m1' ∧
             transform_points_batch mem_five_other 0 9 19 5 = Some m2' ∧
             m1' !! (19 + 2 * 1) = m2' !! (19 + 2 * 1) ∧
             m1' !! (19 + 2 * 1 + 1) = m2' !! (19 + 2 * 1 + 1).
Proof.
  apply (output_slot_depends_on_its_input_slot mem_five mem_five_other 0 9 19 5 1).
  - apply CheckFacts.call_okb_ok. vm_compute. reflexivity.
  - apply CheckFacts.call_okb_ok. vm_compute. reflexivity.
  - intros a Ha.
    assert (Hc : a = 0 ∨ a = 1 ∨ a = 2 ∨ a = 3 ∨ a = 4 ∨ a = 5 ∨ a = 6 ∨ a = 7 ∨ a = 8)
      by lia.
    destruct Hc as [->|[->|[->|[->|[->|[->|[->|[->| ->]]]]]]]]; vm_compute; reflexivity.
  - lia.
  - vm_compute. reflexivity.
  - vm_compute. reflexivity.
Defined.

(** ** The identity matrix *)

Module IdentityFacts.

Import F32Facts.

(** [x + (±0) + 0] is [x] with the sign of a zero dropped. *)
Lemma add_zeros_r x s :
  F32.wf x → F32.is_finite x = true →
  F32.add (F32.add x (F32.sign_bit s)) F32.zero = drop_zero_sign x.
Proof.
  intros Hx Hf.
  destruct (finite_cases x Hx Hf) as [(sx & Hd & ->) | (sx & m & e & Hd & Hb & Hr)].
  - destruct sx, s; vm_compute; reflexivity.
  - rewrite (drop_zero_sign_nonzero x sx m e Hd).
    assert (H1 : F32.add x (F32.sign_bit s) = x).
    { unfold F32.add. rewrite Hd, decode_sign_bit. exact Hr. }
    rewrite H1. unfold F32.add. rewrite Hd.
    change (F32.decode F32.zero) with (S754_zero false). exact Hr.
Qed.

(** [(±0) + y + 0] is [y] with the sign of a zero dropped. *)
Lemma add_zeros_l y s :
  F32.wf y → F32.is_finite y = true →
  F32.add (F32.add (F32.sign_bit s) y) F32.zero = drop_zero_sign y.
Proof.
  intros Hy Hf.
  destruct (finite_cases y Hy Hf) as [(sy & Hd & ->) | (sy & m & e & Hd & Hb & Hr)].
  - destruct sy, s; vm_compute; reflexivity.
  - rewrite (drop_zero_sign_nonzero y sy m e Hd).
    assert (H1 : F32.add (F32.sign_bit s) y = y).
    { unfold F32.add. rewrite Hd, decode_sign_bit. exact Hr. }
    rewrite H1. unfold F32.add. rewrite Hd.
    change (F32.decode F32.zero) with (S754_zero false). exact Hr.
Qed.

(** Through the identity a finite point comes out as it went in, up
    to the sign of a zero. *)
Lemma point_out_identity x y :
  F32.wf x → F32.wf y → F32.is_finite x = true → F32.is_finite y = true →
  point_out identity_coeffs x y = (drop_zero_sign x, drop_zero_sign y).
Proof.
  intros Hx Hy Fx Fy.
  destruct (mul_zero_l x Fx) as [zx Hzx].
  destruct (mul_zero_l y Fy) as [zy Hzy].
  unfold point_out, identity_coeffs.
  cbn [m0_s m1_s m2_s m3_s m4_s m5_s m6_s m7_s m8_s].
  rewrite Hzx, Hzy, (mul_one_l x Hx Fx), (mul_one_l y Hy Fy).
  rewrite zeros_plus_one.
  assert (Hlt : F32.lt (F32.abs F32.one) MATRIX_SVD_EPSILON = false) by (vm_compute; reflexivity).
  assert (Hinv : F32.div F32.one F32.one = F32.one) by (vm_compute; reflexivity).
  rewrite Hlt, Hinv.
  rewrite (add_zeros_r x zy Hx Fx), (add_zeros_l y zx Hy Fy).
  rewrite !mul_one_r by auto using drop_zero_sign_wf, drop_zero_sign_finite.
  reflexivity.
Qed.

Lemma SFcompare_refl_finite s m e :
  SFcompare (S754_finite s m e) (S754_finite s m e) = Some Eq.
Proof.
  cbn [SFcompare]. rewrite Z.compare_refl.
  change (Pos.compare_cont Eq m m) with (Pos.compare m m).
  rewrite Pos.compare_refl. destruct s; reflexivity.
Qed.

(** Dropping the sign of a zero does not change the value. *)
Lemma same_value_drop_zero_sign x :
  F32.wf x → F32.is_finite x = true → same_value (drop_zero_sign x) x = true.
Proof.
  intros Hx Hf. unfold same_value, SFeqb.
  destruct (finite_cases x Hx Hf) as [(s & Hd & ->) | (s & m & e & Hd & Hb & Hr)].
  - destruct s; reflexivity.
  - rewrite (drop_zero_sign_nonzero x s m e Hd), Hd, SFcompare_refl_finite.
    reflexivity.
Qed.

End IdentityFacts.

(** C7, as the code has it: through the identity matrix every point
    with finite coordinates is written back unchanged, bit for bit
    except that a zero comes out as [+0]; this for every batch size.
    In particular the output has the value of the input. *)
Theorem identity_keeps_finite_points (m : mem) mp pin pout n :
  call_ok m mp pin pout n →
  read_coeffs m mp = Some identity_coeffs →
  finite_batch m pin n →
  writes_slots (fun x y x' y' =>
                  x' = drop_zero_sign x ∧ y' = drop_zero_sign y ∧
                  same_value x' x = true ∧ same_value y' y = true)
               m mp pin pout n.
Proof.
  intros Hok Hid Hfin.
  destruct (LoopFacts.transform_points_batch_spec m mp pin pout n Hok)
    as (cs & m' & Hcs & E & [V F]).
  assert (cs = identity_coeffs) by congruence. subst cs.
  exists m'. split; [exact E|].
  intros i x y Hi Hx Hy.
  destruct (Hfin (pin + 2 * i) x ltac:(lia) Hx) as [Wx Fx].
  destruct (Hfin (pin + 2 * i + 1) y ltac:(lia) Hy) as [Wy Fy].
  destruct (V i x y Hi Hx Hy) as [A B].
  rewrite (IdentityFacts.point_out_identity x y Wx Wy Fx Fy) in A, B.
  exists (drop_zero_sign x), (drop_zero_sign y).
  repeat split; auto using IdentityFacts.same_value_drop_zero_sign.
Qed.

Lemma identity_keeps_finite_points_witness :
  writes_slots (fun x y x' y' =>
                  x' = drop_zero_sign x ∧ y' = drop_zero_sign y ∧
                  same_value x' x = true ∧ same_value y' y = true)
               mem_five 0 9 19 5.
Proof.
  apply (identity_keeps_finite_points mem_five 0 9 19 5).
  - apply CheckFacts.call_okb_ok. vm_compute. reflexivity.
  - vm_compute. reflexivity.
  - apply CheckFacts.finite_batchb_ok. vm_compute. reflexivity.
Defined.

(** C7, as stated, fails: the point [(+inf, 0)] goes through the
    identity to [(NaN, NaN)], since [W = 0 * inf + 0 * 0 + 1] is NaN. *)
Lemma identity_loses_infinite_point :
  call_ok mem_inf 0 9 11 1 ∧
  read_coeffs mem_inf 0 = Some identity_coeffs ∧
  ¬ writes_slots (fun x y x' y' => same_value x' x = true ∧ same_value y' y = true)
                 mem_inf 0 9 11 1.
Proof.
  split; [apply CheckFacts.call_okb_ok; vm_compute; reflexivity|].
  split; [vm_compute; reflexivity|].
  intros (m' & E & H).
  destruct (H 0 pos_inf 0 ltac:(lia) eq_refl eq_refl) as (x' & y' & Hx' & Hy' & Rx & Ry).
  assert (Hrun : (m1 ← transform_points_batch mem_inf 0 9 11 1; m1 !! 11)
                 = Some F32.quiet_NaN) by (vm_compute; reflexivity).
  rewrite E in Hrun. cbn [mbind option_bind] in Hrun.
  change (11 + 2 * 0) with 11 in Hx'.
  assert (Hx : Some x' = Some F32.quiet_NaN) by (rewrite <- Hx'; exact Hrun).
  injection Hx as ->.
  vm_compute in Rx. discriminate Rx.
Qed.

(** ** Eigen views over memory *)

Module ViewFacts.

Lemma store_list_spec (l : list f32) : ∀ (m : mem) p,
  readable m p (Z.of_nat (length l)) →
  ∃ m', store_list m p l = Some m' ∧
        (∀ k v, l !! k = Some v → m' !! (p + Z.of_nat k) = Some v) ∧
        (∀ a, ¬ (p ≤ a < p + Z.of_nat (length l)) → m' !! a = m !! a) ∧
        (∀ q n, readable m q n → readable m' q n).
Proof.
  induction l as [|x l IH]; intros m p Hr.
  - exists m. cbn [store_list length]. repeat split; auto.
    intros k v Hk. rewrite lookup_nil in Hk. discriminate Hk.
  - cbn [store_list length] in *.
    rewrite LoopFacts.store_is_Some by (apply Hr; lia).
    cbn [mbind option_bind].
    destruct (IH (<[p + 0 := x]> m) (p + 1)) as (m' & E & V & F & R).
    { apply LoopFacts.readable_insert. intros a Ha. apply Hr. lia. }
    exists m'. split; [exact E | split; [|split]].
    + intros [|k] v Hk.
      * cbn in Hk. injection Hk as <-.
        rewrite F by lia. change (Z.of_nat 0) with 0. apply lookup_insert_eq.
      * cbn in Hk. specialize (V k v Hk).
        replace (p + Z.of_nat (S k)) with (p + 1 + Z.of_nat k) by lia. exact V.
    + intros a Ha. rewrite F by lia. apply lookup_insert_ne. lia.
    + intros q n Hq. apply R. apply LoopFacts.readable_insert. exact Hq.
Qed.

(** [setConstant] fills the view and nothing else. *)
Lemma setConstant_spec (m : mem) p (n : nat) v :
  readable m p (Z.of_nat n) →
  ∃ m', setConstant m p n v = Some m' ∧
        (∀ k, 0 ≤ k < Z.of_nat n → m' !! (p + k) = Some v) ∧
        (∀ a, ¬ (p ≤ a < p + Z.of_nat n) → m' !! a = m !! a).
Proof.
  intros Hr. unfold setConstant.
  destruct (store_list_spec (replicate n v) m p) as (m' & E & V & F & _).
  { rewrite length_replicate. exact Hr. }
  rewrite length_replicate in F.
  exists m'. split; [exact E | split; [|exact F]].
  intros k Hk. specialize (V (Z.to_nat k) v).
  rewrite Z2Nat.id in V by lia. apply V.
  apply lookup_replicate. split; [reflexivity | lia].
Qed.

Lemma load_vec_is_Some (n : nat) : ∀ (m : mem) p,
  readable m p (Z.of_nat n) → is_Some (load_vec m p n).
Proof.
  induction n as [|n IH]; intros m p Hr; cbn [load_vec].
  - eauto.
  - destruct (Hr p ltac:(lia)) as [x ->]. cbn [mbind option_bind].
    destruct (IH m (p + 1)) as [xs ->]; [|cbn; eauto].
    intros a Ha. apply Hr. lia.
Qed.

End ViewFacts.

(** ** invert_matrix *)

Module InvertFacts.

Lemma ge_not_lt a b : F32.ge a b = true → F32.lt a b = false.
Proof.
  rewrite F32Facts.ge_lt. unfold F32.lt, SFltb.
  destruct (SFcompare (F32.decode a) (F32.decode b)) as [[]|]; congruence.
Qed.

End InvertFacts.

(** C5: when the magnitude of the determinant the LU decomposition
    reports is below [INV_EPS], [invert_matrix] returns 0 and all nine
    entries of the output matrix are NaN. *)
Theorem singular_matrix_gives_nan `{FullPivLU} (m : mem) m_ptr out_ptr (M : Matrix3f) :
  load_vec m m_ptr 9 = Some M →
  readable m out_ptr 9 →
  F32.lt (F32.abs (lu_determinant M)) MATRIX_INVERSE_EPSILON = true →
  ∃ m', invert_matrix m m_ptr out_ptr = Some (0, m') ∧
        (∀ k, 0 ≤ k < 9 → m' !! (out_ptr + k) = Some F32.quiet_NaN) ∧
        (∀ a, ¬ (out_ptr ≤ a < out_ptr + 9) → m' !! a = m !! a).
Proof.
  intros HM Hout Hdet. unfold invert_matrix.
  rewrite HM. cbn [mbind option_bind]. rewrite Hdet.
  destruct (ViewFacts.setConstant_spec m out_ptr 9 F32.quiet_NaN Hout)
    as (m' & E & V & F).
  rewrite E. cbn [mbind option_bind]. exists m'. auto.
Qed.

Lemma singular_matrix_gives_nan_witness :
  ∃ m', @invert_matrix lu_by_cofactors mem_equal_rows 0 9 = Some (0, m') ∧
        (∀ k, 0 ≤ k < 9 → m' !! (9 + k) = Some F32.quiet_NaN) ∧
        (∀ a, ¬ (9 ≤ a < 9 + 9) → m' !! a = mem_equal_rows !! a).
Proof.
  apply (@singular_matrix_gives_nan lu_by_cofactors mem_equal_rows 0 9
           (vmap f32_of_Z [# 1; 1; 0;  2; 2; 0;  3; 3; 1])).
  - vm_compute. reflexivity.
  - apply CheckFacts.readableb_ok. vm_compute. reflexivity.
  - vm_compute. reflexivity.
Defined.

(** C4: when the magnitude of the determinant is at least [INV_EPS],
    [invert_matrix] returns 1 and the output holds whatever inverse
    the decomposition computed; a NaN or an infinity in it does not
    change the status. *)
Theorem regular_matrix_gives_success `{FullPivLU} (m : mem) m_ptr out_ptr (M : Matrix3f) :
  load_vec m m_ptr 9 = Some M →
  readable m out_ptr 9 →
  F32.ge (F32.abs (lu_determinant M)) MATRIX_INVERSE_EPSILON = true →
  ∃ m', invert_matrix m m_ptr out_ptr = Some (1, m') ∧
        (∀ k v, vec_to_list (lu_inverse M) !! k = Some v →
                m' !! (out_ptr + Z.of_nat k) = Some v) ∧
        (∀ a, ¬ (out_ptr ≤ a < out_ptr + 9) → m' !! a = m !! a).
Proof.
  intros HM Hout Hdet. unfold invert_matrix.
  rewrite HM. cbn [mbind option_bind].
  rewrite (InvertFacts.ge_not_lt _ _ Hdet).
  destruct (ViewFacts.store_list_spec (vec_to_list (lu_inverse M)) m out_ptr)
    as (m' & E & V & F & R).
  { rewrite length_vec_to_list. exact Hout. }
  rewrite length_vec_to_list in F.
  rewrite E. cbn [mbind option_bind].
  destruct (ViewFacts.load_vec_is_Some 9 m' out_ptr (R _ _ Hout)) as [out ->].
  cbn [mbind option_bind].
  exists m'. split; [|auto].
  destruct (any F32.is_nan out || any F32.is_inf out); reflexivity.
Qed.

(** The inverse by cofactors of [diag(1e20, 1e20, 1e20)] has NaN on its
    diagonal, the determinant being infinite: the status is 1 all the
    same. *)
Lemma regular_matrix_gives_success_witness :
  ∃ m', @invert_matrix lu_by_cofactors mem_huge_diagonal 0 9 = Some (1, m') ∧
        (∀ k v, vec_to_list (adjugate_inverse
                   [# f32_1e20; 0; 0;  0; f32_1e20; 0;  0; 0; f32_1e20]) !! k = Some v →
                m' !! (9 + Z.of_nat k) = Some v) ∧
        (∀ a, ¬ (9 ≤ a < 9 + 9) → m' !! a = mem_huge_diagonal !! a).
Proof.
  apply (@regular_matrix_gives_success lu_by_cofactors mem_huge_diagonal 0 9
           [# f32_1e20; 0; 0;  0; f32_1e20; 0;  0; 0; f32_1e20]).
  - vm_compute. reflexivity.
  - apply CheckFacts.readableb_ok. vm_compute. reflexivity.
  - vm_compute. reflexivity.
Defined.

Example huge_diagonal_inverse_has_nan :
  any F32.is_nan (adjugate_inverse
    [# f32_1e20; 0; 0;  0; f32_1e20; 0;  0; 0; f32_1e20]) = true.
Proof. vm_compute. reflexivity. Qed.

(** ** solve_homography_svd *)

(** C6: when the decomposition converges and some singular value has
    magnitude below [SVD_EPS * max(singular values)], the output vector
    is filled with NaN and the call returns false. *)
Theorem small_singular_value_gives_nan `{JacobiSVD} (m : mem) a_ptr b_ptr x_ptr
    (A : Matrix8f) :
  load_vec m a_ptr 64 = Some A →
  readable m x_ptr 8 →
  svd_info A = Success →
  any (fun s => F32.lt (F32.abs s)
                  (F32.mul MATRIX_SVD_EPSILON (maxCoeff (svd_singularValues A))))
      (svd_singularValues A) = true →
  ∃ m', solve_homography_svd m a_ptr b_ptr x_ptr = Some (false, m') ∧
        (∀ k, 0 ≤ k < 8 → m' !! (x_ptr + k) = Some F32.quiet_NaN) ∧
        (∀ a, ¬ (x_ptr ≤ a < x_ptr + 8) → m' !! a = m !! a).
Proof.
  intros HA Hx Hinfo Hany. unfold solve_homography_svd.
  rewrite HA. cbn [mbind option_bind].
  case_decide as Hd; [congruence|].
  rewrite Hany.
  destruct (ViewFacts.setConstant_spec m x_ptr 8 F32.quiet_NaN Hx)
    as (m' & E & V & F).
  rewrite E. cbn [mbind option_bind]. exists m'. auto.
Qed.

Lemma small_singular_value_gives_nan_witness :
  ∃ m', @solve_homography_svd (svd_of_diagonal rank_seven) mem_rank_seven 0 64 72
        = Some (false, m') ∧
        (∀ k, 0 ≤ k < 8 → m' !! (72 + k) = Some F32.quiet_NaN) ∧
        (∀ a, ¬ (72 ≤ a < 72 + 8) → m' !! a = mem_rank_seven !! a).
Proof.
  assert (HA : is_Some (load_vec mem_rank_seven 0 64)).
  { apply ViewFacts.load_vec_is_Some. apply CheckFacts.readableb_ok.
    vm_compute. reflexivity. }
  destruct HA as [A HA].
  apply (@small_singular_value_gives_nan (svd_of_diagonal rank_seven)
           mem_rank_seven 0 64 72 A).
  - exact HA.
  - apply CheckFacts.readableb_ok. vm_compute. reflexivity.
  - reflexivity.
  - vm_compute. reflexivity.
Defined.

(** C1 does not hold of the code: on the third failure path the
    solved vector stays in the output.  For [A = I / 2] and
    [b = (FLT_MAX, 0, ..., 0)], with [U = V = I] and all singular
    values 1/2, the scaled right-hand side overflows to [+inf]; the
    product with [V] gives [(+inf, NaN, ..., NaN)]: the call returns
    false and [x(0)] is [+inf]. *)
Theorem solve_failure_keeps_solved_vector :
  ∃ m', @solve_homography_svd (svd_of_diagonal halves) mem_half_identity 0 64 72
        = Some (false, m') ∧
        m' !! 72 = Some pos_inf ∧ F32.is_nan pos_inf = false.
Proof.
  assert (Hrun : ∃ m', @solve_homography_svd (svd_of_diagonal halves)
                          mem_half_identity 0 64 72 = Some (false, m')).
  { assert (Hf : fst <$> @solve_homography_svd (svd_of_diagonal halves)
                          mem_half_identity 0 64 72 = Some false)
      by (vm_compute; reflexivity).
    destruct (solve_homography_svd mem_half_identity 0 64 72) as [[r m']|];
      [|discriminate Hf].
    cbn in Hf. injection Hf as ->. eauto. }
  destruct Hrun as [m' E]. exists m'. split; [exact E|].
  split; [|reflexivity].
  assert (Hx : ('(_, m1) ← @solve_homography_svd (svd_of_diagonal halves)
                               mem_half_identity 0 64 72; m1 !! 72) = Some pos_inf)
    by (vm_compute; reflexivity).
  rewrite E in Hx. exact Hx.
Qed.

(** ** Where NaN comes from *)

Module NanFacts.

Import F32Facts.

Lemma is_nan_quiet_NaN : F32.is_nan F32.quiet_NaN = true.
Proof. reflexivity. Qed.

Lemma is_nan_decode a : F32.is_nan a = true → F32.decode a = S754_nan.
Proof. unfold F32.is_nan. destruct (F32.decode a); congruence. Qed.

(** A NaN operand makes the result NaN. *)
Lemma mul_nan_l a b : F32.is_nan a = true → F32.mul a b = F32.quiet_NaN.
Proof. intros H. unfold F32.mul. rewrite (is_nan_decode a H). reflexivity. Qed.

Lemma mul_nan_r a b : F32.is_nan b = true → F32.mul a b = F32.quiet_NaN.
Proof.
  intros H. unfold F32.mul. rewrite (is_nan_decode b H), SFmul_nan_r. reflexivity.
Qed.

Lemma add_nan_l a b : F32.is_nan a = true → F32.add a b = F32.quiet_NaN.
Proof. intros H. unfold F32.add. rewrite (is_nan_decode a H). reflexivity. Qed.

Lemma add_nan_r a b : F32.is_nan b = true → F32.add a b = F32.quiet_NaN.
Proof.
  intros H. unfold F32.add. rewrite (is_nan_decode b H).
  destruct (F32.decode a); reflexivity.
Qed.

Lemma sub_nan_l a b : F32.is_nan a = true → F32.sub a b = F32.quiet_NaN.
Proof. intros H. unfold F32.sub. rewrite (is_nan_decode a H). reflexivity. Qed.

Lemma sub_nan_r a b : F32.is_nan b = true → F32.sub a b = F32.quiet_NaN.
Proof.
  intros H. unfold F32.sub. rewrite (is_nan_decode b H).
  destruct (F32.decode a); reflexivity.
Qed.

(** The fields of a pattern assembled from its parts. *)
Lemma fields_of_sum s E F :
  0 ≤ E < 2 ^ 8 → 0 ≤ F < 2 ^ 23 →
  F32.biased_exp (F32.sign_bit s + E * 2 ^ 23 + F) = E ∧
  F32.fraction (F32.sign_bit s + E * 2 ^ 23 + F) = F.
Proof.
  intros HE HF. unfold F32.biased_exp, F32.fraction, F32.sign_bit.
  destruct s; split; Z.to_euclidean_division_equations; lia.
Qed.

(** A finite value whose exponent is in range does not encode as NaN. *)
Lemma encode_finite_not_nan s m e :
  -149 ≤ e ≤ 104 → F32.is_nan (F32.encode (S754_finite s m e)) = false.
Proof.
  intros He. unfold F32.is_nan, F32.decode. cbn [F32.encode].
  set (E := if Z.pos m <? 2 ^ 23 then 0 else (e + 150) mod 2 ^ 8).
  assert (HE : 0 ≤ E < 255).
  { subst E. destruct (Z.pos m <? 2 ^ 23); [lia|].
    rewrite Z.mod_small; lia. }
  assert (HF : 0 ≤ Z.pos m mod 2 ^ 23 < 2 ^ 23) by (apply Z.mod_pos_bound; lia).
  destruct (fields_of_sum s E (Z.pos m mod 2 ^ 23) ltac:(lia) HF) as [-> ->].
  destruct (E =? 0).
  - destruct (Z.pos m mod 2 ^ 23); reflexivity.
  - destruct (E =? 255) eqn:E255; [apply Z.eqb_eq in E255; lia|].
    destruct (Z.pos m mod 2 ^ 23 + 2 ^ 23) eqn:EF; try reflexivity; lia.
Qed.

Lemma encode_zero_not_nan s : F32.is_nan (F32.encode (S754_zero s)) = false.
Proof. destruct s; reflexivity. Qed.

Lemma encode_inf_not_nan s : F32.is_nan (F32.encode (S754_infinity s)) = false.
Proof. destruct s; reflexivity. Qed.

(** The exponent of a decoded finite value. *)
Lemma decode_finite_range b s m e :
  F32.decode b = S754_finite s m e → -149 ≤ e ≤ 104.
Proof.
  unfold F32.decode.
  assert (HE : 0 ≤ F32.biased_exp b < 2 ^ 8) by (apply Z.mod_pos_bound; lia).
  destruct (F32.biased_exp b =? 0) eqn:E0.
  - destruct (F32.fraction b); intros H; try discriminate H.
    injection H as _ _ <-. lia.
  - apply Z.eqb_neq in E0.
    destruct (F32.biased_exp b =? 255) eqn:E255.
    + destruct (F32.fraction b =? 0); discriminate.
    + apply Z.eqb_neq in E255.
      destruct (F32.fraction b + 2 ^ 23); intros H; try discriminate H.
      injection H as _ _ <-. lia.
Qed.

Lemma iter_pos_invariant {A} (P : A → Prop) (f : A → A) :
  (∀ x, P x → P (f x)) → ∀ n x, P x → P (iter_pos f n x).
Proof.
  intros Hf. induction n as [n IH|n IH|]; intros x Hx; cbn [iter_pos]; auto.
Qed.

Lemma shr_1_nonneg r : 0 ≤ shr_m r → 0 ≤ shr_m (shr_1 r).
Proof.
  destruct r as [m rb sb]. cbn [shr_m]. intros Hm.
  destruct m as [|[p|p|]|p]; cbn; lia.
Qed.

(** Shifting to the format's exponent keeps the mantissa non-negative
    and leaves an exponent not below [emin]. *)
Lemma shr_fexp_range m e l :
  0 ≤ m →
  0 ≤ shr_m (shr_fexp F32.prec F32.emax m e l).1 ∧
  -149 ≤ (shr_fexp F32.prec F32.emax m e l).2.
Proof.
  intros Hm. unfold shr_fexp, shr.
  set (n := fexp F32.prec F32.emax (Zdigits2 m + e) - e).
  assert (Hn : -149 ≤ n + e).
  { subst n. unfold fexp, emin, F32.prec, F32.emax. lia. }
  assert (H0 : 0 ≤ shr_m (shr_record_of_loc m l)).
  { destruct l as [|[]]; exact Hm. }
  destruct n as [|p|p] eqn:En; cbn [fst snd]; split; try lia; try exact H0.
  apply iter_pos_invariant; [apply shr_1_nonneg | exact H0].
Qed.

Lemma round_nearest_even_nonneg m l : 0 ≤ m → 0 ≤ round_nearest_even m l.
Proof.
  intros Hm. unfold round_nearest_even.
  destruct l as [|[]]; try lia. destruct (Z.even m); lia.
Qed.

(** Rounding never produces NaN. *)
Lemma round_not_nan s m e l :
  0 ≤ m → F32.is_nan (F32.encode (binary_round_aux F32.prec F32.emax s m e l)) = false.
Proof.
  intros Hm. unfold binary_round_aux.
  pose proof (shr_fexp_range m e l Hm) as [H1 _].
  destruct (shr_fexp F32.prec F32.emax m e l) as [mrs' e'].
  cbn [fst] in H1.
  pose proof (shr_fexp_range (round_nearest_even (shr_m mrs') (loc_of_shr_record mrs'))
                e' loc_Exact (round_nearest_even_nonneg _ _ H1)) as [H2 H3].
  destruct (shr_fexp F32.prec F32.emax _ e' loc_Exact) as [mrs'' e''].
  cbn [fst snd] in H2, H3.
  destruct (shr_m mrs'') as [|p|p]; [apply encode_zero_not_nan | | lia].
  destruct (e'' <=? F32.emax - F32.prec) eqn:E; [|apply encode_inf_not_nan].
  apply Z.leb_le in E. apply encode_finite_not_nan.
  unfold F32.emax, F32.prec in E. lia.
Qed.

Lemma normalize_not_nan m e :
  F32.is_nan (F32.encode (binary_normalize F32.prec F32.emax m e false)) = false.
Proof.
  unfold binary_normalize, binary_round.
  destruct m as [|p|p]; [reflexivity | |].
  - destruct (shl_align p e _) as [mz ez]. apply round_not_nan. lia.
  - destruct (shl_align p e _) as [mz ez]. apply round_not_nan. lia.
Qed.

(** A NaN product has a NaN or an infinite factor. *)
Lemma mul_nan_inv a b :
  F32.is_nan (F32.mul a b) = true →
  F32.is_nan a = true ∨ F32.is_nan b = true ∨ F32.is_inf a = true ∨ F32.is_inf b = true.
Proof.
  unfold F32.mul, F32.is_inf. unfold F32.is_nan at 2 3.
  destruct (F32.decode a) as [sa|sa| |sa ma ea], (F32.decode b) as [sb|sb| |sb mb eb];
    cbn [SFmul]; auto;
    rewrite ?encode_zero_not_nan, ?encode_inf_not_nan; try discriminate.
  rewrite round_not_nan by lia. discriminate.
Qed.

(** A NaN sum or difference has a NaN or an infinite operand. *)
Lemma add_nan_inv a b :
  F32.is_nan (F32.add a b) = true →
  F32.is_nan a = true ∨ F32.is_nan b = true ∨ F32.is_inf a = true ∨ F32.is_inf b = true.
Proof.
  unfold F32.add, F32.is_inf. unfold F32.is_nan at 2 3.
  destruct (F32.decode a) as [sa|sa| |sa ma ea] eqn:Ea,
           (F32.decode b) as [sb|sb| |sb mb eb] eqn:Eb;
    cbn [SFadd]; auto.
  - destruct sa, sb; cbn; discriminate.
  - rewrite (encode_finite_not_nan sb mb eb (decode_finite_range b _ _ _ Eb)). discriminate.
  - rewrite (encode_finite_not_nan sa ma ea (decode_finite_range a _ _ _ Ea)). discriminate.
  - rewrite normalize_not_nan. discriminate.
Qed.

Lemma sub_nan_inv a b :
  F32.is_nan (F32.sub a b) = true →
  F32.is_nan a = true ∨ F32.is_nan b = true ∨ F32.is_inf a = true ∨ F32.is_inf b = true.
Proof.
  unfold F32.sub, F32.is_inf. unfold F32.is_nan at 2 3.
  destruct (F32.decode a) as [sa|sa| |sa ma ea] eqn:Ea,
           (F32.decode b) as [sb|sb| |sb mb eb] eqn:Eb;
    cbn [SFsub]; auto.
  - destruct sa, sb; cbn; discriminate.
  - rewrite (encode_finite_not_nan (negb sb) mb eb (decode_finite_range b _ _ _ Eb)).
    discriminate.
  - rewrite (encode_finite_not_nan sa ma ea (decode_finite_range a _ _ _ Ea)). discriminate.
  - rewrite normalize_not_nan. discriminate.
Qed.

End NanFacts.

(** Through the identity a point with an infinite or NaN coordinate
    comes out as [(NaN, NaN)]: [0 * x] is NaN, and so is [W]. *)
Lemma point_out_identity_not_finite x y :
  F32.is_finite x = false ∨ F32.is_finite y = false →
  point_out identity_coeffs x y = (F32.quiet_NaN, F32.quiet_NaN).
Proof.
  intros H.
  assert (Hz : ∀ v, F32.is_finite v = false → F32.mul F32.zero v = F32.quiet_NaN).
  { intros v Hv. unfold F32.mul, F32.is_finite in *.
    change (F32.decode F32.zero) with (S754_zero false).
    destruct (F32.decode v); try discriminate Hv; reflexivity. }
  unfold point_out, identity_coeffs.
  cbn [m0_s m1_s m2_s m3_s m4_s m5_s m6_s m7_s m8_s].
  set (X := F32.add (F32.add (F32.mul F32.one x) _) _).
  set (Y := F32.add (F32.add (F32.mul F32.zero x) (F32.mul F32.one y)) _).
  assert (HW : F32.add (F32.add (F32.mul F32.zero x) (F32.mul F32.zero y)) F32.one
               = F32.quiet_NaN).
  { destruct H as [H|H]; rewrite (Hz _ H).
    - rewrite (NanFacts.add_nan_l F32.quiet_NaN (F32.mul F32.zero y)) by reflexivity.
      apply NanFacts.add_nan_l. reflexivity.
    - rewrite (NanFacts.add_nan_r (F32.mul F32.zero x) F32.quiet_NaN) by reflexivity.
      apply NanFacts.add_nan_l. reflexivity. }
  rewrite HW.
  change (F32.lt (F32.abs F32.quiet_NaN) MATRIX_SVD_EPSILON) with false.
  cbv iota.
  rewrite !F32Facts.mul_recip_nan by reflexivity. reflexivity.
Qed.

(** ** determinant *)

Module DetFacts.

#[local] Opaque F32.mul F32.add F32.sub F32.is_nan F32.is_inf.

Lemma is_nan_mul_l a b : F32.is_nan a = true → F32.is_nan (F32.mul a b) = true.
Proof. intros H. rewrite (NanFacts.mul_nan_l a b H). reflexivity. Qed.
Lemma is_nan_mul_r a b : F32.is_nan b = true → F32.is_nan (F32.mul a b) = true.
Proof. intros H. rewrite (NanFacts.mul_nan_r a b H). reflexivity. Qed.
Lemma is_nan_add_l a b : F32.is_nan a = true → F32.is_nan (F32.add a b) = true.
Proof. intros H. rewrite (NanFacts.add_nan_l a b H). reflexivity. Qed.
Lemma is_nan_add_r a b : F32.is_nan b = true → F32.is_nan (F32.add a b) = true.
Proof. intros H. rewrite (NanFacts.add_nan_r a b H). reflexivity. Qed.
Lemma is_nan_sub_l a b : F32.is_nan a = true → F32.is_nan (F32.sub a b) = true.
Proof. intros H. rewrite (NanFacts.sub_nan_l a b H). reflexivity. Qed.
Lemma is_nan_sub_r a b : F32.is_nan b = true → F32.is_nan (F32.sub a b) = true.
Proof. intros H. rewrite (NanFacts.sub_nan_r a b H). reflexivity. Qed.

(** Looks for the NaN operand below the head operation. *)
Ltac find_nan :=
  first [ assumption
        | apply is_nan_add_l; find_nan | apply is_nan_add_r; find_nan
        | apply is_nan_sub_l; find_nan | apply is_nan_sub_r; find_nan
        | apply is_nan_mul_l; find_nan | apply is_nan_mul_r; find_nan ].

(** Closes a disjunction of booleans one of which is a hypothesis. *)
Ltac pick_true H :=
  rewrite H; repeat (rewrite orb_true_r || rewrite orb_true_l); reflexivity.

(** Traces a NaN back through the operations to an operand. *)
Ltac trace_nan :=
  repeat match goal with
  | H : F32.is_nan (F32.add _ _) = true |- _ =>
      apply NanFacts.add_nan_inv in H; destruct H as [H|[H|[H|H]]]
  | H : F32.is_nan (F32.sub _ _) = true |- _ =>
      apply NanFacts.sub_nan_inv in H; destruct H as [H|[H|[H|H]]]
  | H : F32.is_nan (F32.mul _ _) = true |- _ =>
      apply NanFacts.mul_nan_inv in H; destruct H as [H|[H|[H|H]]]
  end.

Lemma nan_entry_gives_nan (M : Matrix3f) :
  any F32.is_nan M = true → F32.is_nan (Matrix3f_determinant M) = true.
Proof.
  inv_vec M. intros a0 a1 a2 a3 a4 a5 a6 a7 a8.
  unfold any, Matrix3f_determinant, det3_helper, coeff3.
  cbn [vec_to_list existsb nth Nat.add Nat.mul].
  rewrite !orb_true_iff.
  intros [H|[H|[H|[H|[H|[H|[H|[H|[H|H]]]]]]]]]; try discriminate H; find_nan.
Qed.

Lemma nan_has_a_source (M : Matrix3f) :
  F32.is_nan (Matrix3f_determinant M) = true →
  any F32.is_nan M = true ∨ existsb F32.is_inf (determinant_operands M) = true.
Proof.
  inv_vec M. intros a0 a1 a2 a3 a4 a5 a6 a7 a8.
  unfold any, determinant_operands, det3_operands, Matrix3f_determinant,
    det3_helper, coeff3.
  cbn [vec_to_list existsb nth Nat.add Nat.mul app].
  intros H. trace_nan;
    first [ left; pick_true H | right; pick_true H ].
Qed.

End DetFacts.

(** C8, as the closed form has it: [determinant] has no failure mode;
    a NaN entry makes the result NaN, and the result is NaN only if an
    entry is NaN or an operand of the closed form (an entry, a product
    or a difference) is infinite. *)
Theorem determinant_nan_sources (m : mem) m_ptr :
  readable m m_ptr 9 →
  ∃ M d, load_vec m m_ptr 9 = Some M ∧ determinant m m_ptr = Some d ∧
         (any F32.is_nan M = true → F32.is_nan d = true) ∧
         (F32.is_nan d = true →
          any F32.is_nan M = true ∨
          existsb F32.is_inf (determinant_operands M) = true).
Proof.
  intros Hr.
  destruct (ViewFacts.load_vec_is_Some 9 m m_ptr Hr) as [M HM].
  exists M, (Matrix3f_determinant M). unfold determinant. rewrite HM.
  split; [reflexivity | split; [reflexivity | split]].
  - apply DetFacts.nan_entry_gives_nan.
  - apply DetFacts.nan_has_a_source.
Qed.

Lemma determinant_nan_sources_witness :
  ∃ M d, load_vec mem_five 0 9 = Some M ∧ determinant mem_five 0 = Some d ∧
         (any F32.is_nan M = true → F32.is_nan d = true) ∧
         (F32.is_nan d = true →
          any F32.is_nan M = true ∨
          existsb F32.is_inf (determinant_operands M) = true).
Proof.
  apply (determinant_nan_sources mem_five 0).
  apply CheckFacts.readableb_ok. vm_compute. reflexivity.
Defined.

(** C8, as stated, fails: the matrix with [FLT_MAX] in every entry
    holds no NaN and no infinity, and its determinant is NaN, every
    product overflowing to [+inf] and every difference being
    [inf - inf]. *)
Lemma determinant_nan_without_nan_entry :
  ∃ M, load_vec mem_flt_max 0 9 = Some M ∧
       any F32.is_nan M = false ∧ any F32.is_inf M = false ∧
       determinant mem_flt_max 0 = Some F32.quiet_NaN ∧
       F32.is_nan F32.quiet_NaN = true.
Proof.
  exists (vreplicate 9 FLT_MAX). repeat split; vm_compute; reflexivity.
Qed.

(** * The bits of a NaN *)

Module BitsFacts.

(** *** One operation *)

Lemma arith_nan_fields s p :
  F32.biased_exp (Bits.arith_nan s p) = 255 ∧
  F32.fraction (Bits.arith_nan s p) = 2 ^ 22 + p mod 2 ^ 22.
Proof.
  pose proof (Z.mod_pos_bound p (2 ^ 22) ltac:(lia)) as Hp.
  unfold Bits.arith_nan.
  replace (F32.sign_bit s + 0x7FC00000 + p mod 2 ^ 22)
    with (F32.sign_bit s + 255 * 2 ^ 23 + (2 ^ 22 + p mod 2 ^ 22)) by lia.
  apply NanFacts.fields_of_sum; lia.
Qed.

Lemma is_nan_arith_nan s p : F32.is_nan (Bits.arith_nan s p) = true.
Proof.
  pose proof (Z.mod_pos_bound p (2 ^ 22) ltac:(lia)) as Hp.
  destruct (arith_nan_fields s p) as [HE HF].
  unfold F32.is_nan, F32.decode. rewrite HE, HF.
  change (255 =? 0) with false. change (255 =? 255) with true. cbv iota.
  destruct (2 ^ 22 + p mod 2 ^ 22 =? 0) eqn:E; [apply Z.eqb_eq in E; lia | reflexivity].
Qed.

Lemma arith_nan_wf s p : F32.wf (Bits.arith_nan s p).
Proof.
  pose proof (Z.mod_pos_bound p (2 ^ 22) ltac:(lia)) as Hp.
  unfold F32.wf, Bits.arith_nan. destruct s; cbn [F32.sign_bit]; lia.
Qed.

Lemma op_wf c o a b : F32.wf (Bits.op c o a b).
Proof.
  unfold Bits.op.
  destruct (Bits.exact o (F32.decode a) (F32.decode b));
    first [apply F32Facts.encode_wf | apply arith_nan_wf].
Qed.

Lemma canonical_encode o a b :
  Bits.canonical_op o a b = F32.encode (Bits.exact o (F32.decode a) (F32.decode b)).
Proof. destruct o; reflexivity. Qed.

Lemma nan_eq_refl a : nan_eq a a.
Proof. left. reflexivity. Qed.

Lemma nan_eq_sym a b : nan_eq a b → nan_eq b a.
Proof. intros [->|[Ha Hb]]; [left | right]; auto. Qed.

Lemma nan_eq_trans a b c : nan_eq a b → nan_eq b c → nan_eq a c.
Proof.
  intros [->|[Ha Hb]] [<-|[Hb' Hc]]; try (left; reflexivity); right; auto.
Qed.

Lemma nan_eq_decode a b : nan_eq a b → F32.decode a = F32.decode b.
Proof.
  intros [->|[Ha Hb]]; [reflexivity|].
  rewrite (NanFacts.is_nan_decode a Ha), (NanFacts.is_nan_decode b Hb). reflexivity.
Qed.

(** An operation of [Bits] and the operation of [F32] send operands
    that are equal up to NaN to results that are. *)
Lemma op_sim c o a b a' b' :
  nan_eq a a' → nan_eq b b' → nan_eq (Bits.op c o a b) (Bits.canonical_op o a' b').
Proof.
  intros Ha Hb. rewrite canonical_encode.
  rewrite <- (nan_eq_decode a a' Ha), <- (nan_eq_decode b b' Hb).
  unfold Bits.op.
  destruct (Bits.exact o (F32.decode a) (F32.decode b)); try (left; reflexivity).
  right. split; [apply is_nan_arith_nan | reflexivity].
Qed.

Lemma mul_sim c a b a' b' :
  nan_eq a a' → nan_eq b b' → nan_eq (Bits.mul c a b) (F32.mul a' b').
Proof. apply (op_sim c Bits.Mul). Qed.

Lemma add_sim c a b a' b' :
  nan_eq a a' → nan_eq b b' → nan_eq (Bits.add c a b) (F32.add a' b').
Proof. apply (op_sim c Bits.Add). Qed.

Lemma div_sim c a b a' b' :
  nan_eq a a' → nan_eq b b' → nan_eq (Bits.div c a b) (F32.div a' b').
Proof. apply (op_sim c Bits.Div). Qed.

(** With the canonical NaN for every choice, [Bits] is [F32]. *)
Lemma op_canonical o a b : Bits.op Bits.canonical o a b = Bits.canonical_op o a b.
Proof.
  rewrite canonical_encode. unfold Bits.op.
  destruct (Bits.exact o (F32.decode a) (F32.decode b)); reflexivity.
Qed.

(** The guards see the value alone. *)
Lemma lt_abs_sim a b e : nan_eq a b → F32.lt (F32.abs a) e = F32.lt (F32.abs b) e.
Proof.
  intros H. unfold F32.lt. rewrite !F32Facts.decode_abs, (nan_eq_decode a b H). reflexivity.
Qed.

Lemma ge_abs_sim a b e : nan_eq a b → F32.ge (F32.abs a) e = F32.ge (F32.abs b) e.
Proof.
  intros H. unfold F32.ge. rewrite !F32Facts.decode_abs, (nan_eq_decode a b H). reflexivity.
Qed.

Lemma quiet_NaN_wf : F32.wf F32.quiet_NaN.
Proof. unfold F32.wf, F32.quiet_NaN. lia. Qed.

(** The select of a lane. *)
Lemma bitselect_sim u u' w w' :
  F32.wf u → F32.wf u' → nan_eq u u' → nan_eq w w' →
  nan_eq (bitselect32 u F32.quiet_NaN
            (if F32.ge (F32.abs w) MATRIX_SVD_EPSILON then all_ones else 0))
         (bitselect32 u' F32.quiet_NaN
            (if F32.ge (F32.abs w') MATRIX_SVD_EPSILON then all_ones else 0)).
Proof.
  intros Hu Hu' Huu Hww. rewrite (ge_abs_sim w w' _ Hww).
  destruct (F32.ge (F32.abs w') MATRIX_SVD_EPSILON).
  - rewrite !SimdFacts.bitselect32_ones by assumption. exact Huu.
  - rewrite !SimdFacts.bitselect32_zero by apply quiet_NaN_wf. apply nan_eq_refl.
Qed.

#[local] Opaque F32.mul F32.add F32.div F32.lt F32.ge F32.abs Bits.op.

Lemma mul_wf c a b : F32.wf (Bits.mul c a b).
Proof. apply op_wf. Qed.

Lemma F32_mul_wf a b : F32.wf (F32.mul a b).
Proof. rewrite <- (op_canonical Bits.Mul). apply op_wf. Qed.

(** *** Memory *)

Lemma same_up_to_nan_refl P (m : mem) : same_up_to_nan P m m.
Proof. intros a. left. reflexivity. Qed.

Lemma same_up_to_nan_sym P (m1 m2 : mem) : same_up_to_nan P m1 m2 → same_up_to_nan P m2 m1.
Proof.
  intros H a. destruct (H a) as [E|(Pa & x & y & Hx & Hy & Nx & Ny)]; [left; auto|].
  right. split; [exact Pa|]. exists y, x. auto.
Qed.

Lemma same_up_to_nan_trans P (m1 m2 m3 : mem) :
  same_up_to_nan P m1 m2 → same_up_to_nan P m2 m3 → same_up_to_nan P m1 m3.
Proof.
  intros H12 H23 a.
  destruct (H12 a) as [E|(Pa & x & y & Hx & Hy & Nx & Ny)];
    destruct (H23 a) as [E'|(Pa' & y' & z & Hy' & Hz & Ny' & Nz)].
  - left. congruence.
  - right. split; [exact Pa'|]. exists y', z. rewrite E. auto.
  - right. split; [exact Pa|]. exists x, y. rewrite <- E'. auto.
  - right. split; [exact Pa|]. exists x, z. auto.
Qed.

Lemma same_up_to_nan_weaken (P Q : Z → Prop) (m1 m2 : mem) :
  (∀ a, P a → Q a) → same_up_to_nan P m1 m2 → same_up_to_nan Q m1 m2.
Proof.
  intros HPQ H a. destruct (H a) as [E|(Pa & R)]; [left; exact E | right; auto].
Qed.

Lemma same_outside P (m1 m2 : mem) a : same_up_to_nan P m1 m2 → ¬ P a → m1 !! a = m2 !! a.
Proof. intros H Ha. destruct (H a) as [E|[Pa _]]; [exact E | contradiction]. Qed.

(** A cell of two such memories: absent in both, or equal up to
    NaN. *)
Lemma lookup_sim P (m mc : mem) a :
  same_up_to_nan P m mc →
  (m !! a = None ∧ mc !! a = None) ∨
  (∃ x x', m !! a = Some x ∧ mc !! a = Some x' ∧ nan_eq x x').
Proof.
  intros H. destruct (H a) as [E|(_ & x & y & Hx & Hy & Nx & Ny)].
  - destruct (mc !! a) as [x|] eqn:Ec; [right | left; auto].
    exists x, x. split; [exact E | split; [reflexivity | apply nan_eq_refl]].
  - right. exists x, y. split; [exact Hx | split; [exact Hy | right; auto]].
Qed.

Lemma insert_sim P (m mc : mem) k x x' :
  same_up_to_nan P m mc → P k → nan_eq x x' →
  same_up_to_nan P (<[k := x]> m) (<[k := x']> mc).
Proof.
  intros H Pk Hx a. rewrite !lookup_insert. case_decide as Hk; [subst a | apply H].
  destruct Hx as [->|[Nx Nx']]; [left; reflexivity|].
  right. split; [exact Pk|]. exists x, x'. auto.
Qed.

Lemma store_sim P (m mc : mem) p idx x x' :
  same_up_to_nan P m mc → P (p + idx) → nan_eq x x' →
  both (same_up_to_nan P) (store m p idx x) (store mc p idx x').
Proof.
  intros H Pk Hx. unfold store.
  destruct (lookup_sim P m mc (p + idx) H) as [[-> ->]|(y & y' & -> & -> & _)];
    cbn [mbind option_bind both]; [exact I|].
  apply insert_sim; assumption.
Qed.

Lemma v128_store_sim P (m mc : mem) p idx (v v' : v128) :
  same_up_to_nan P m mc →
  (∀ k, 0 ≤ k < 4 → P (p + (idx + k))) →
  nan_eq (lane0 v) (lane0 v') → nan_eq (lane1 v) (lane1 v') →
  nan_eq (lane2 v) (lane2 v') → nan_eq (lane3 v) (lane3 v') →
  both (same_up_to_nan P) (wasm_v128_store m p idx v) (wasm_v128_store mc p idx v').
Proof.
  intros H HP H0 H1 H2 H3. unfold wasm_v128_store, load.
  destruct (lookup_sim P m mc (p + idx) H) as [[-> ->]|(y0 & y0' & -> & -> & _)];
    cbn [mbind option_bind both]; [exact I|].
  destruct (lookup_sim P m mc (p + (idx + 1)) H) as [[-> ->]|(y1 & y1' & -> & -> & _)];
    cbn [mbind option_bind both]; [exact I|].
  destruct (lookup_sim P m mc (p + (idx + 2)) H) as [[-> ->]|(y2 & y2' & -> & -> & _)];
    cbn [mbind option_bind both]; [exact I|].
  destruct (lookup_sim P m mc (p + (idx + 3)) H) as [[-> ->]|(y3 & y3' & -> & -> & _)];
    cbn [mbind option_bind both]; [exact I|].
  apply insert_sim; [|apply (HP 3); lia | exact H3].
  apply insert_sim; [|apply (HP 2); lia | exact H2].
  apply insert_sim; [|apply (HP 1); lia | exact H1].
  apply insert_sim; [exact H | | exact H0].
  replace (p + idx) with (p + (idx + 0)) by lia. apply (HP 0). lia.
Qed.

(** *** The two loop bodies *)

Lemma scalar_body_sim c P cs pin pout i (m mc : mem) :
  same_up_to_nan P m mc →
  P (pout + 2 * i) → P (pout + 2 * i + 1) →
  both (same_up_to_nan P) (Bits.scalar_body c cs pin pout i m)
                          (scalar_body cs pin pout i mc).
Proof.
  intros H P0 P1. unfold Bits.scalar_body, scalar_body, load.
  destruct (lookup_sim P m mc (pin + i * 2) H) as [[-> ->]|(x & x' & -> & -> & Hx)];
    cbn [mbind option_bind both]; [exact I|].
  destruct (lookup_sim P m mc (pin + (i * 2 + 1)) H) as [[-> ->]|(y & y' & -> & -> & Hy)];
    cbn [mbind option_bind both]; [exact I|].
  assert (Hsum : ∀ a b d,
    nan_eq (Bits.add c (Bits.add c (Bits.mul c a x) (Bits.mul c b y)) d)
           (F32.add (F32.add (F32.mul a x') (F32.mul b y')) d)).
  { intros a b d. apply add_sim; [apply add_sim|]; try apply mul_sim;
      first [assumption | apply nan_eq_refl]. }
  replace (pout + 2 * i) with (pout + i * 2) in P0 by lia.
  replace (pout + 2 * i + 1) with (pout + (i * 2 + 1)) in P1 by lia.
  assert (Hstores : ∀ u u' v v', nan_eq u u' → nan_eq v v' →
    both (same_up_to_nan P)
      (m1 ← store m pout (i * 2) u; store m1 pout (i * 2 + 1) v)
      (m1 ← store mc pout (i * 2) u'; store m1 pout (i * 2 + 1) v')).
  { intros u u' v v' Hu Hv.
    pose proof (store_sim P m mc pout (i * 2) u u' H P0 Hu) as S1.
    destruct (store m pout (i * 2) u) as [m1|], (store mc pout (i * 2) u') as [mc1|];
      cbn [both] in S1; try contradiction; cbn [mbind option_bind both]; [|exact I].
    apply store_sim; assumption. }
  cbv zeta. rewrite (lt_abs_sim _ _ MATRIX_SVD_EPSILON (Hsum (m2_s cs) (m5_s cs) (m8_s cs))).
  destruct (F32.lt _ MATRIX_SVD_EPSILON).
  - apply Hstores; apply nan_eq_refl.
  - apply Hstores; apply mul_sim; auto; apply div_sim; auto using nan_eq_refl.
Qed.

Lemma v128_load_sim P (m mc : mem) p idx :
  same_up_to_nan P m mc →
  both (fun v v' => nan_eq (lane0 v) (lane0 v') ∧ nan_eq (lane1 v) (lane1 v') ∧
                    nan_eq (lane2 v) (lane2 v') ∧ nan_eq (lane3 v) (lane3 v'))
       (wasm_v128_load m p idx) (wasm_v128_load mc p idx).
Proof.
  intros H. unfold wasm_v128_load, load.
  destruct (lookup_sim P m mc (p + idx) H) as [[-> ->]|(y0 & y0' & -> & -> & H0)];
    cbn [mbind option_bind both]; [exact I|].
  destruct (lookup_sim P m mc (p + (idx + 1)) H) as [[-> ->]|(y1 & y1' & -> & -> & H1)];
    cbn [mbind option_bind both]; [exact I|].
  destruct (lookup_sim P m mc (p + (idx + 2)) H) as [[-> ->]|(y2 & y2' & -> & -> & H2)];
    cbn [mbind option_bind both]; [exact I|].
  destruct (lookup_sim P m mc (p + (idx + 3)) H) as [[-> ->]|(y3 & y3' & -> & -> & H3)];
    cbn [mbind option_bind both]; [exact I|].
  cbn. auto.
Qed.

(** What a lane of the SIMD loop holds after the select. *)
Lemma lane_sim c a b d e f g x y x' y' :
  nan_eq x x' → nan_eq y y' →
  let X := Bits.add c (Bits.add c (Bits.mul c a x) (Bits.mul c b y)) d in
  let W := Bits.add c (Bits.add c (Bits.mul c e x) (Bits.mul c f y)) g in
  let X' := F32.add (F32.add (F32.mul a x') (F32.mul b y')) d in
  let W' := F32.add (F32.add (F32.mul e x') (F32.mul f y')) g in
  nan_eq (bitselect32 (Bits.mul c X (Bits.div c F32.one W)) F32.quiet_NaN
            (if F32.ge (F32.abs W) MATRIX_SVD_EPSILON then all_ones else 0))
         (bitselect32 (F32.mul X' (F32.div F32.one W')) F32.quiet_NaN
            (if F32.ge (F32.abs W') MATRIX_SVD_EPSILON then all_ones else 0)).
Proof.
  intros Hx Hy X W X' W'.
  assert (Hsum : ∀ a b d,
    nan_eq (Bits.add c (Bits.add c (Bits.mul c a x) (Bits.mul c b y)) d)
           (F32.add (F32.add (F32.mul a x') (F32.mul b y')) d)).
  { intros a0 b0 d0. apply add_sim; [apply add_sim|]; try apply mul_sim;
      first [assumption | apply nan_eq_refl]. }
  apply bitselect_sim.
  - apply mul_wf.
  - apply F32_mul_wf.
  - apply mul_sim; [apply Hsum | apply div_sim; [apply nan_eq_refl | apply Hsum]].
  - apply Hsum.
Qed.

Lemma simd_body_sim c P cs pin pout i (m mc : mem) :
  same_up_to_nan P m mc →
  (∀ k, 0 ≤ k < 8 → P (pout + (2 * i + k))) →
  both (same_up_to_nan P) (Bits.simd_body c (splat_all cs) pin pout i m)
                          (simd_body (splat_all cs) pin pout i mc).
Proof.
  intros H HP. unfold Bits.simd_body, simd_body.
  pose proof (v128_load_sim P m mc pin (i * 2) H) as L1.
  destruct (wasm_v128_load m pin (i * 2)) as [[x0 y0 x1 y1]|],
           (wasm_v128_load mc pin (i * 2)) as [[x0' y0' x1' y1']|];
    cbn [both] in L1; try contradiction; cbn [mbind option_bind both]; [|exact I].
  pose proof (v128_load_sim P m mc pin (i * 2 + 4) H) as L2.
  destruct (wasm_v128_load m pin (i * 2 + 4)) as [[x2 y2 x3 y3]|],
           (wasm_v128_load mc pin (i * 2 + 4)) as [[x2' y2' x3' y3']|];
    cbn [both] in L2; try contradiction; cbn [mbind option_bind both]; [|exact I].
  cbn [lane0 lane1 lane2 lane3] in L1, L2.
  destruct L1 as (Hx0 & Hy0 & Hx1 & Hy1). destruct L2 as (Hx2 & Hy2 & Hx3 & Hy3).
  cbv zeta.
  match goal with
  | |- both _ (m1 ← wasm_v128_store m pout (i * 2) ?v; wasm_v128_store m1 pout _ ?w)
              (m2 ← wasm_v128_store mc pout (i * 2) ?v'; wasm_v128_store m2 pout _ ?w') =>
      pose proof (v128_store_sim P m mc pout (i * 2) v v' H) as S1;
      assert (S2 : ∀ m1 mc1, same_up_to_nan P m1 mc1 →
                both (same_up_to_nan P) (wasm_v128_store m1 pout (i * 2 + 4) w)
                                        (wasm_v128_store mc1 pout (i * 2 + 4) w'))
  end.
  { intros m1 mc1 H1. apply v128_store_sim; [exact H1 | |..].
    - intros k Hk. replace (pout + (i * 2 + 4 + k)) with (pout + (2 * i + (4 + k))) by lia.
      apply HP. lia.
    - apply lane_sim; assumption.
    - apply lane_sim; assumption.
    - apply lane_sim; assumption.
    - apply lane_sim; assumption. }
  assert (HP1 : ∀ k, 0 ≤ k < 4 → P (pout + (i * 2 + k))).
  { intros k Hk. replace (pout + (i * 2 + k)) with (pout + (2 * i + k)) by lia.
    apply HP. lia. }
  assert (S1' := S1 HP1 ltac:(apply lane_sim; assumption) ltac:(apply lane_sim; assumption)
                        ltac:(apply lane_sim; assumption) ltac:(apply lane_sim; assumption)).
  clear S1.
  destruct (wasm_v128_store m pout (i * 2) _) as [m1|],
           (wasm_v128_store mc pout (i * 2) _) as [mc1|];
    cbn [both] in S1'; try contradiction; cbn [mbind option_bind both]; [|exact I].
  apply S2. exact S1'.
Qed.

(** *** The two loops *)

Lemma bits_scalar_loop_unfold c cs pin pout n i (m : mem) :
  Bits.scalar_loop c cs pin pout n i m =
  if decide (i < n) then
    m' ← Bits.scalar_body c cs pin pout i m; Bits.scalar_loop c cs pin pout n (i + 1) m'
  else Some (i, m).
Proof.
  rewrite Bits.scalar_loop_equation_1. unfold Bits.scalar_loop_unfold_clause_1.
  destruct (Z_lt_dec i n); case_decide; try lia; [|reflexivity].
  destruct (Bits.scalar_body c cs pin pout i m); reflexivity.
Qed.

Lemma bits_simd_loop_unfold c cv pin pout n i (m : mem) :
  Bits.simd_loop c cv pin pout n i m =
  if decide (i < n) then
    m' ← Bits.simd_body c cv pin pout i m; Bits.simd_loop c cv pin pout n (i + 4) m'
  else Some (i, m).
Proof.
  rewrite Bits.simd_loop_equation_1. unfold Bits.simd_loop_unfold_clause_1.
  destruct (Z_lt_dec i n); case_decide; try lia; [|reflexivity].
  destruct (Bits.simd_body c cv pin pout i m); reflexivity.
Qed.

Lemma scalar_loop_sim c P cs pin pout n (k : nat) : ∀ i (m mc : mem),
  n - i ≤ Z.of_nat k →
  (∀ a, pout + 2 * i ≤ a < pout + 2 * n → P a) →
  same_up_to_nan P m mc →
  both (loop_sim P i) (Bits.scalar_loop c cs pin pout n i m)
                      (scalar_loop cs pin pout n i mc).
Proof.
  induction k as [|k IH]; intros i m mc Hk HP H;
    rewrite bits_scalar_loop_unfold, LoopFacts.scalar_loop_unfold; case_decide; try lia.
  - cbn [both]. repeat split; [cbn; lia | exact H].
  - pose proof (scalar_body_sim c P cs pin pout i m mc H
                  ltac:(apply HP; lia) ltac:(apply HP; lia)) as B.
    destruct (Bits.scalar_body c cs pin pout i m) as [m1|],
             (scalar_body cs pin pout i mc) as [mc1|];
      cbn [both] in B; try contradiction; cbn [mbind option_bind both]; [|exact I].
    pose proof (IH (i + 1) m1 mc1 ltac:(lia) ltac:(intros a Ha; apply HP; lia) B) as L.
    destruct (Bits.scalar_loop c cs pin pout n (i + 1) m1) as [r|],
             (scalar_loop cs pin pout n (i + 1) mc1) as [r'|];
      cbn [both] in L |- *; try contradiction; [|exact I].
    destruct L as (E & Hi & S). repeat split; [exact E | lia | exact S].
  - cbn [both]. repeat split; [cbn; lia | exact H].
Qed.

Lemma simd_loop_sim c P cs pin pout n (k : nat) : ∀ i (m mc : mem),
  n - i ≤ Z.of_nat k →
  (4 | n - i) →
  (∀ a, pout + 2 * i ≤ a < pout + 2 * n → P a) →
  same_up_to_nan P m mc →
  both (loop_sim P i) (Bits.simd_loop c (splat_all cs) pin pout n i m)
                      (simd_loop (splat_all cs) pin pout n i mc).
Proof.
  induction k as [|k IH]; intros i m mc Hk Hdiv HP H;
    rewrite bits_simd_loop_unfold, LoopFacts.simd_loop_unfold; case_decide; try lia.
  - cbn [both]. repeat split; [cbn; lia | exact H].
  - assert (Hstep : i + 4 ≤ n) by (destruct Hdiv as [q Hq]; lia).
    pose proof (simd_body_sim c P cs pin pout i m mc H
                  ltac:(intros j Hj; apply HP; lia)) as B.
    destruct (Bits.simd_body c (splat_all cs) pin pout i m) as [m1|],
             (simd_body (splat_all cs) pin pout i mc) as [mc1|];
      cbn [both] in B; try contradiction; cbn [mbind option_bind both]; [|exact I].
    assert (Hdiv' : (4 | n - (i + 4))).
    { destruct Hdiv as [q Hq]. exists (q - 1). lia. }
    pose proof (IH (i + 4) m1 mc1 ltac:(lia) Hdiv' ltac:(intros a Ha; apply HP; lia) B) as L.
    destruct (Bits.simd_loop c (splat_all cs) pin pout n (i + 4) m1) as [r|],
             (simd_loop (splat_all cs) pin pout n (i + 4) mc1) as [r'|];
      cbn [both] in L |- *; try contradiction; [|exact I].
    destruct L as (E & Hi & S). repeat split; [exact E | lia | exact S].
  - cbn [both]. repeat split; [cbn; lia | exact H].
Qed.

(** *** A whole call *)

Lemma read_coeffs_sim P (m mc : mem) mp :
  (∀ a, mp ≤ a < mp + 9 → ¬ P a) →
  same_up_to_nan P m mc → read_coeffs m mp = read_coeffs mc mp.
Proof.
  intros HP H. apply LoopFacts.read_coeffs_frame.
  intros a Ha. apply (same_outside P m mc a H). apply HP. exact Ha.
Qed.

(** A call of [Bits] and a call of the one-NaN model, on memories that
    are the same up to the NaNs of [P], trap together or return
    memories that are the same up to the NaNs of [P]. *)
Lemma transform_points_batch_sim c (P : Z → Prop) (m mc : mem) mp pin pout n :
  (∀ a, pout ≤ a < pout + 2 * n → P a) →
  (∀ a, mp ≤ a < mp + 9 → ¬ P a) →
  same_up_to_nan P m mc →
  both (same_up_to_nan P) (Bits.transform_points_batch c m mp pin pout n)
                          (transform_points_batch mc mp pin pout n).
Proof.
  intros HPout HPm H. unfold Bits.transform_points_batch, transform_points_batch.
  rewrite (read_coeffs_sim P m mc mp HPm H).
  destruct (read_coeffs mc mp) as [cs|]; cbn [mbind option_bind both]; [|exact I].
  destruct (LoopFacts.num_points_simd_range n) as [Hneg Hpos].
  assert (Hdiv : (4 | n - Z.rem n 4 - 0)).
  { exists (n ÷ 4). pose proof (Z.quot_rem' n 4). lia. }
  assert (Hs : n - Z.rem n 4 ≤ 0 ∨ n - Z.rem n 4 ≤ n).
  { destruct (Z_le_gt_dec n 0); [left; auto | right; apply Hpos; lia]. }
  set (s := n - Z.rem n 4) in *.
  pose proof (simd_loop_sim c P cs pin pout s (Z.to_nat s) 0 m mc ltac:(lia) Hdiv
                ltac:(intros a Ha; apply HPout; lia) H) as L.
  destruct (Bits.simd_loop c (splat_all cs) pin pout s 0 m) as [[i m1]|],
           (simd_loop (splat_all cs) pin pout s 0 mc) as [[i' mc1]|];
    cbn [both] in L; try contradiction; cbn [mbind option_bind both]; [|exact I].
  destruct L as (E & Hi & S). cbn [fst snd] in E, Hi, S. subst i'.
  destruct (i <? n); [|exact S].
  rewrite (read_coeffs_sim P m1 mc1 mp HPm S).
  destruct (read_coeffs mc1 mp) as [cs'|]; cbn [mbind option_bind both]; [|exact I].
  pose proof (scalar_loop_sim c P cs' pin pout n (Z.to_nat (n - i)) i m1 mc1 ltac:(lia)
                ltac:(intros a Ha; apply HPout; lia) S) as L2.
  destruct (Bits.scalar_loop c cs' pin pout n i m1) as [[j m2]|],
           (scalar_loop cs' pin pout n i mc1) as [[j' mc2]|];
    cbn [both] in L2; try contradiction; cbn [mbind option_bind both]; [|exact I].
  apply L2.
Qed.

Lemma transform_points_scalar_sim c (P : Z → Prop) (m mc : mem) mp pin pout n :
  (∀ a, pout ≤ a < pout + 2 * n → P a) →
  (∀ a, mp ≤ a < mp + 9 → ¬ P a) →
  same_up_to_nan P m mc →
  both (same_up_to_nan P) (Bits.transform_points_scalar c m mp pin pout n)
                          (transform_points_scalar mc mp pin pout n).
Proof.
  intros HPout HPm H. unfold Bits.transform_points_scalar, transform_points_scalar.
  rewrite (read_coeffs_sim P m mc mp HPm H).
  destruct (read_coeffs mc mp) as [cs|]; cbn [mbind option_bind both]; [|exact I].
  pose proof (scalar_loop_sim c P cs pin pout n (Z.to_nat n) 0 m mc ltac:(lia)
                ltac:(intros a Ha; apply HPout; lia) H) as L.
  destruct (Bits.scalar_loop c cs pin pout n 0 m) as [[j m2]|],
           (scalar_loop cs pin pout n 0 mc) as [[j' mc2]|];
    cbn [both] in L; try contradiction; cbn [mbind option_bind both]; [|exact I].
  apply L.
Qed.

(** What the one-NaN model returns, a call of [Bits] returns up to the
    NaNs of the output batch. *)
Lemma transfer c (m mc' : mem) mp pin pout n :
  disjoint mp 9 pout (2 * n) →
  transform_points_batch m mp pin pout n = Some mc' →
  ∃ m', Bits.transform_points_batch c m mp pin pout n = Some m' ∧
        same_up_to_nan (output_window pout n) m' mc'.
Proof.
  intros Hd E.
  pose proof (transform_points_batch_sim c (output_window pout n) m m mp pin pout n
                ltac:(intros a Ha; exact Ha)
                ltac:(unfold output_window, disjoint in *; intros a Ha; lia)
                (same_up_to_nan_refl _ m)) as S.
  rewrite E in S.
  destruct (Bits.transform_points_batch c m mp pin pout n) as [m'|];
    cbn [both] in S; [eauto | contradiction].
Qed.

Lemma transfer_scalar c (m mc' : mem) mp pin pout n :
  disjoint mp 9 pout (2 * n) →
  transform_points_scalar m mp pin pout n = Some mc' →
  ∃ m', Bits.transform_points_scalar c m mp pin pout n = Some m' ∧
        same_up_to_nan (output_window pout n) m' mc'.
Proof.
  intros Hd E.
  pose proof (transform_points_scalar_sim c (output_window pout n) m m mp pin pout n
                ltac:(intros a Ha; exact Ha)
                ltac:(unfold output_window, disjoint in *; intros a Ha; lia)
                (same_up_to_nan_refl _ m)) as S.
  rewrite E in S.
  destruct (Bits.transform_points_scalar c m mp pin pout n) as [m'|];
    cbn [both] in S; [eauto | contradiction].
Qed.

(** In the one-NaN model both paths return the same memory. *)
Lemma paths_agree_with_one_nan (m : mem) mp pin pout n :
  call_ok m mp pin pout n →
  ∃ m', transform_points_batch m mp pin pout n = Some m' ∧
        transform_points_scalar m mp pin pout n = Some m'.
Proof.
  intros Hok.
  destruct (LoopFacts.transform_points_batch_spec m mp pin pout n Hok)
    as (cs & m1 & Hcs & E1 & T1).
  destruct (LoopFacts.transform_points_scalar_spec m mp pin pout n Hok)
    as (cs' & m2 & Hcs' & E2 & T2).
  assert (cs' = cs) by congruence. subst cs'.
  exists m1. split; [exact E1|]. rewrite E2. f_equal. symmetry.
  apply (LoopFacts.transformed_unique (point_out cs) pin pout n m);
    [apply Hok | exact T1 | exact T2].
Qed.

End BitsFacts.

(** ** The engine of the canonical NaN *)

Module CanonFacts.

Lemma mul_canonical : Bits.mul Bits.canonical = F32.mul.
Proof.
  apply functional_extensionality; intros a. apply functional_extensionality; intros b.
  apply (BitsFacts.op_canonical Bits.Mul).
Qed.

Lemma add_canonical : Bits.add Bits.canonical = F32.add.
Proof.
  apply functional_extensionality; intros a. apply functional_extensionality; intros b.
  apply (BitsFacts.op_canonical Bits.Add).
Qed.

Lemma div_canonical : Bits.div Bits.canonical = F32.div.
Proof.
  apply functional_extensionality; intros a. apply functional_extensionality; intros b.
  apply (BitsFacts.op_canonical Bits.Div).
Qed.

#[local] Opaque F32.mul F32.add F32.div F32.lt F32.ge F32.abs.
#[local] Opaque Bits.op Bits.mul Bits.add Bits.div.

Lemma scalar_body_canonical cs pin pout i (m : mem) :
  Bits.scalar_body Bits.canonical cs pin pout i m = scalar_body cs pin pout i m.
Proof.
  unfold Bits.scalar_body, scalar_body. cbv zeta.
  destruct (load m pin (i * 2)) as [x|]; cbn [mbind option_bind]; [|reflexivity].
  destruct (load m pin (i * 2 + 1)) as [y|]; cbn [mbind option_bind]; [|reflexivity].
  cbn [mbind option_bind].
  rewrite mul_canonical, add_canonical, div_canonical. reflexivity.
Qed.

Lemma simd_body_canonical cv pin pout i (m : mem) :
  Bits.simd_body Bits.canonical cv pin pout i m = simd_body cv pin pout i m.
Proof.
  unfold Bits.simd_body, simd_body. cbv zeta.
  destruct (wasm_v128_load m pin (i * 2)) as [v|]; cbn [mbind option_bind]; [|reflexivity].
  destruct (wasm_v128_load m pin (i * 2 + 4)) as [w|]; cbn [mbind option_bind]; [|reflexivity].
  cbn [mbind option_bind].
  unfold Bits.wasm_f32x4_mul, Bits.wasm_f32x4_add, Bits.wasm_f32x4_div,
    wasm_f32x4_mul, wasm_f32x4_add, wasm_f32x4_div.
  rewrite mul_canonical, add_canonical, div_canonical. reflexivity.
Qed.

Lemma scalar_loop_canonical cs pin pout n (k : nat) : ∀ i (m : mem),
  n - i ≤ Z.of_nat k →
  Bits.scalar_loop Bits.canonical cs pin pout n i m = scalar_loop cs pin pout n i m.
Proof.
  induction k as [|k IH]; intros i m Hk;
    rewrite BitsFacts.bits_scalar_loop_unfold, LoopFacts.scalar_loop_unfold;
    case_decide; try lia; [reflexivity | | reflexivity].
  rewrite scalar_body_canonical.
  destruct (scalar_body cs pin pout i m) as [m1|]; cbn [mbind option_bind]; [|reflexivity].
  cbn [mbind option_bind]. apply IH. lia.
Qed.

Lemma simd_loop_canonical cv pin pout n (k : nat) : ∀ i (m : mem),
  n - i ≤ Z.of_nat k →
  Bits.simd_loop Bits.canonical cv pin pout n i m = simd_loop cv pin pout n i m.
Proof.
  induction k as [|k IH]; intros i m Hk;
    rewrite BitsFacts.bits_simd_loop_unfold, LoopFacts.simd_loop_unfold;
    case_decide; try lia; [reflexivity | | reflexivity].
  rewrite simd_body_canonical.
  destruct (simd_body cv pin pout i m) as [m1|]; cbn [mbind option_bind]; [|reflexivity].
  cbn [mbind option_bind]. apply IH. lia.
Qed.

(** The model with one NaN is [Bits] on the engine that always
    returns the canonical NaN. *)
Lemma transform_points_batch_canonical (m : mem) mp pin pout n :
  Bits.transform_points_batch Bits.canonical m mp pin pout n
  = transform_points_batch m mp pin pout n.
Proof.
  unfold Bits.transform_points_batch, transform_points_batch.
  destruct (read_coeffs m mp) as [cs|]; cbn [mbind option_bind]; [|reflexivity].
  cbv zeta.
  rewrite (simd_loop_canonical _ pin pout _ (Z.to_nat (n - Z.rem n 4))) by lia.
  destruct (simd_loop _ pin pout _ 0 m) as [[i m1]|]; cbn [mbind option_bind]; [|reflexivity].
  cbn [mbind option_bind].
  destruct (i <? n); [|reflexivity].
  destruct (read_coeffs m1 mp) as [cs'|]; cbn [mbind option_bind]; [|reflexivity].
  rewrite (scalar_loop_canonical _ pin pout n (Z.to_nat (n - i))) by lia. reflexivity.
Qed.

Lemma transform_points_scalar_canonical (m : mem) mp pin pout n :
  Bits.transform_points_scalar Bits.canonical m mp pin pout n
  = transform_points_scalar m mp pin pout n.
Proof.
  unfold Bits.transform_points_scalar, transform_points_scalar.
  destruct (read_coeffs m mp) as [cs|]; cbn [mbind option_bind]; [|reflexivity].
  rewrite (scalar_loop_canonical _ pin pout n (Z.to_nat n)) by lia. reflexivity.
Qed.

End CanonFacts.

(** ** The two paths *)

(** C2, as the code has it: whatever sign and payload the engine
    gives the NaNs it makes, the vectorised path followed by the
    scalar tail, and the scalar loop run over all [num_points] points,
    both return, and their memories hold the same bits in every cell,
    except that a cell of the output batch may hold a NaN of one
    pattern after one path and a NaN of another pattern after the
    other. *)
Theorem simd_path_equals_scalar_path_up_to_nan (c : Bits.nan_choice) (m : mem)
    mp pin pout n :
  call_ok m mp pin pout n →
  ∃ m1 m2, Bits.transform_points_batch c m mp pin pout n = Some m1 ∧
           Bits.transform_points_scalar c m mp pin pout n = Some m2 ∧
           same_up_to_nan (output_window pout n) m1 m2.
Proof.
  intros Hok.
  destruct (BitsFacts.paths_agree_with_one_nan m mp pin pout n Hok) as (mc & E1 & E2).
  destruct (BitsFacts.transfer c m mc mp pin pout n (ok_matrix_out _ _ _ _ _ Hok) E1)
    as (m1 & B1 & S1).
  destruct (BitsFacts.transfer_scalar c m mc mp pin pout n (ok_matrix_out _ _ _ _ _ Hok) E2)
    as (m2 & B2 & S2).
  exists m1, m2. split; [exact B1 | split; [exact B2|]].
  apply (BitsFacts.same_up_to_nan_trans _ m1 mc m2 S1).
  apply BitsFacts.same_up_to_nan_sym, S2.
Qed.

Lemma simd_path_equals_scalar_path_up_to_nan_witness :
  ∃ m1 m2, Bits.transform_points_batch Bits.x86 mem_four_inf 0 9 17 4 = Some m1 ∧
           Bits.transform_points_scalar Bits.x86 mem_four_inf 0 9 17 4 = Some m2 ∧
           same_up_to_nan (output_window 17 4) m1 m2.
Proof.
  apply (simd_path_equals_scalar_path_up_to_nan Bits.x86 mem_four_inf 0 9 17 4).
  apply CheckFacts.call_okb_ok. vm_compute. reflexivity.
Defined.

(** C2, as stated, fails: on an x86 host the point [(+inf, 4)] has a
    NaN [W] under the identity; the SIMD lane selects the constant
    [nan_v], which is [0x7FC00000], and the scalar loop stores the NaN
    that [X * (1 / W)] is, [0xFFC00000]. *)
Lemma simd_and_scalar_differ_in_nan_bits :
  call_ok mem_four_inf 0 9 17 4 ∧
  (m1 ← Bits.transform_points_batch Bits.x86 mem_four_inf 0 9 17 4; m1 !! 17)
    = Some 0x7FC00000 ∧
  (m2 ← Bits.transform_points_scalar Bits.x86 mem_four_inf 0 9 17 4; m2 !! 17)
    = Some 0xFFC00000 ∧
  Bits.transform_points_batch Bits.x86 mem_four_inf 0 9 17 4
  ≠ Bits.transform_points_scalar Bits.x86 mem_four_inf 0 9 17 4.
Proof.
  assert (H1 : (m1 ← Bits.transform_points_batch Bits.x86 mem_four_inf 0 9 17 4; m1 !! 17)
               = Some 0x7FC00000) by (vm_compute; reflexivity).
  assert (H2 : (m2 ← Bits.transform_points_scalar Bits.x86 mem_four_inf 0 9 17 4; m2 !! 17)
               = Some 0xFFC00000) by (vm_compute; reflexivity).
  split; [apply CheckFacts.call_okb_ok; vm_compute; reflexivity|].
  split; [exact H1 | split; [exact H2|]].
  intros E. rewrite E, H2 in H1. discriminate H1.
Qed.

(** * Further properties of the code *)

(** ** Which calls return *)

Module SafetyFacts.

#[local] Opaque F32.mul F32.add F32.div F32.lt F32.ge F32.abs.

(** A store that returns has found its cell, changed it alone and
    kept the set of cells. *)
Lemma store_Some_inv (m m' : mem) p idx v :
  store m p idx v = Some m' →
  is_Some (m !! (p + idx)) ∧ m' = <[p + idx := v]> m ∧ dom m' = dom m.
Proof.
  unfold store. destruct (m !! (p + idx)) as [w|] eqn:E; [|discriminate].
  cbn. intros [= <-]. split; [eauto | split; [reflexivity|]].
  apply dom_insert_lookup_L. eauto.
Qed.

Lemma dom_absorb (k : Z) (X : gset Z) : k ∈ X → {[k]} ∪ X = X.
Proof.
  intros Hk. apply set_eq. intros a.
  rewrite elem_of_union, elem_of_singleton. split; [|auto].
  intros [-> | H]; assumption.
Qed.

Lemma readable_dom (m m' : mem) p n :
  dom m' = dom m → readable m p n ↔ readable m' p n.
Proof.
  intros Hd. unfold readable.
  split; intros H a Ha; specialize (H a Ha);
    apply elem_of_dom; apply elem_of_dom in H; congruence.
Qed.

(** A window is readable when its first slot and the rest are. *)
Lemma readable_cons (m : mem) p k n :
  0 ≤ k → 0 ≤ n →
  readable m p k → readable m (p + k) n → readable m p (k + n).
Proof.
  intros Hk Hn H1 H2 a Ha.
  destruct (Z_lt_dec a (p + k)); [apply H1 | apply H2]; lia.
Qed.

(** A round of the scalar loop that returns has read its slot and
    written the slot of the same index, and nothing else. *)
Lemma scalar_body_Some_inv cs pin pout i (m m' : mem) :
  scalar_body cs pin pout i m = Some m' →
  readable m (pin + 2 * i) 2 ∧ readable m (pout + 2 * i) 2 ∧
  dom m' = dom m ∧
  (∀ a, ¬ (pout + 2 * i ≤ a < pout + 2 * i + 2) → m' !! a = m !! a).
Proof.
  unfold scalar_body, load.
  destruct (m !! (pin + i * 2)) as [x|] eqn:Ex; [|discriminate].
  destruct (m !! (pin + (i * 2 + 1))) as [y|] eqn:Ey; [|discriminate].
  cbn [mbind option_bind].
  assert (Hst : ∀ u v,
    (m1 ← store m pout (i * 2) u; store m1 pout (i * 2 + 1) v) = Some m' →
    readable m (pout + 2 * i) 2 ∧ dom m' = dom m ∧
    (∀ a, ¬ (pout + 2 * i ≤ a < pout + 2 * i + 2) → m' !! a = m !! a)).
  { intros u v H.
    destruct (store m pout (i * 2) u) as [m1|] eqn:E1; [|discriminate H].
    cbn [mbind option_bind] in H.
    apply store_Some_inv in E1 as (S1 & -> & D1).
    apply store_Some_inv in H as (S2 & -> & D2).
    rewrite lookup_insert_ne in S2 by lia.
    split; [|split].
    - intros a Ha.
      assert (Hc : a = pout + i * 2 ∨ a = pout + (i * 2 + 1)) by lia.
      destruct Hc as [-> | ->]; assumption.
    - congruence.
    - intros a Ha. rewrite !lookup_insert_ne by lia. reflexivity. }
  assert (Hin : readable m (pin + 2 * i) 2).
  { intros a Ha.
    assert (Hc : a = pin + i * 2 ∨ a = pin + (i * 2 + 1)) by lia.
    destruct Hc as [-> | ->]; eauto. }
  destruct (F32.lt _ MATRIX_SVD_EPSILON); intros H;
    destruct (Hst _ _ H) as (A & B & C); auto.
Qed.

(** The same for a round of the SIMD loop and its four slots. *)
Lemma simd_body_Some_inv cv pin pout i (m m' : mem) :
  simd_body cv pin pout i m = Some m' →
  readable m (pin + 2 * i) 8 ∧ readable m (pout + 2 * i) 8 ∧
  dom m' = dom m ∧
  (∀ a, ¬ (pout + 2 * i ≤ a < pout + 2 * i + 8) → m' !! a = m !! a).
Proof.
  unfold simd_body, wasm_v128_load, wasm_v128_store, load.
  destruct (m !! (pin + i * 2)) as [x0|] eqn:Ex0; [|discriminate].
  destruct (m !! (pin + (i * 2 + 1))) as [y0|] eqn:Ey0; [|discriminate].
  destruct (m !! (pin + (i * 2 + 2))) as [x1|] eqn:Ex1; [|discriminate].
  destruct (m !! (pin + (i * 2 + 3))) as [y1|] eqn:Ey1; [|discriminate].
  destruct (m !! (pin + (i * 2 + 4))) as [x2|] eqn:Ex2; [|discriminate].
  destruct (m !! (pin + (i * 2 + 4 + 1))) as [y2|] eqn:Ey2; [|discriminate].
  destruct (m !! (pin + (i * 2 + 4 + 2))) as [x3|] eqn:Ex3; [|discriminate].
  destruct (m !! (pin + (i * 2 + 4 + 3))) as [y3|] eqn:Ey3; [|discriminate].
  cbn [mbind option_bind].
  destruct (m !! (pout + i * 2)) as [o0|] eqn:Eo0; [|discriminate].
  destruct (m !! (pout + (i * 2 + 1))) as [o1|] eqn:Eo1; [|discriminate].
  destruct (m !! (pout + (i * 2 + 2))) as [o2|] eqn:Eo2; [|discriminate].
  destruct (m !! (pout + (i * 2 + 3))) as [o3|] eqn:Eo3; [|discriminate].
  cbn [mbind option_bind].
  rewrite !(lookup_insert_ne _ _ (pout + (i * 2 + 4))) by lia.
  rewrite !(lookup_insert_ne _ _ (pout + (i * 2 + 4 + 1))) by lia.
  rewrite !(lookup_insert_ne _ _ (pout + (i * 2 + 4 + 2))) by lia.
  rewrite !(lookup_insert_ne _ _ (pout + (i * 2 + 4 + 3))) by lia.
  destruct (m !! (pout + (i * 2 + 4))) as [o4|] eqn:Eo4; [|discriminate].
  destruct (m !! (pout + (i * 2 + 4 + 1))) as [o5|] eqn:Eo5; [|discriminate].
  destruct (m !! (pout + (i * 2 + 4 + 2))) as [o6|] eqn:Eo6; [|discriminate].
  destruct (m !! (pout + (i * 2 + 4 + 3))) as [o7|] eqn:Eo7; [|discriminate].
  cbn [mbind option_bind]. intros [= <-].
  split; [|split; [|split]].
  - intros a Ha.
    assert (Hc : a = pin + i * 2 ∨ a = pin + (i * 2 + 1) ∨ a = pin + (i * 2 + 2)
                 ∨ a = pin + (i * 2 + 3) ∨ a = pin + (i * 2 + 4)
                 ∨ a = pin + (i * 2 + 4 + 1) ∨ a = pin + (i * 2 + 4 + 2)
                 ∨ a = pin + (i * 2 + 4 + 3)) by lia.
    destruct Hc as [->|[->|[->|[->|[->|[->|[->| ->]]]]]]]; eauto.
  - intros a Ha.
    assert (Hc : a = pout + i * 2 ∨ a = pout + (i * 2 + 1) ∨ a = pout + (i * 2 + 2)
                 ∨ a = pout + (i * 2 + 3) ∨ a = pout + (i * 2 + 4)
                 ∨ a = pout + (i * 2 + 4 + 1) ∨ a = pout + (i * 2 + 4 + 2)
                 ∨ a = pout + (i * 2 + 4 + 3)) by lia.
    destruct Hc as [->|[->|[->|[->|[->|[->|[->| ->]]]]]]]; eauto.
  - rewrite !dom_insert_L.
    rewrite (dom_absorb (pout + i * 2)) by (apply elem_of_dom; eauto).
    rewrite (dom_absorb (pout + (i * 2 + 1))) by (apply elem_of_dom; eauto).
    rewrite (dom_absorb (pout + (i * 2 + 2))) by (apply elem_of_dom; eauto).
    rewrite (dom_absorb (pout + (i * 2 + 3))) by (apply elem_of_dom; eauto).
    rewrite (dom_absorb (pout + (i * 2 + 4))) by (apply elem_of_dom; eauto).
    rewrite (dom_absorb (pout + (i * 2 + 4 + 1))) by (apply elem_of_dom; eauto).
    rewrite (dom_absorb (pout + (i * 2 + 4 + 2))) by (apply elem_of_dom; eauto).
    rewrite (dom_absorb (pout + (i * 2 + 4 + 3))) by (apply elem_of_dom; eauto).
    reflexivity.
  - intros a Ha. rewrite !lookup_insert_ne by lia. reflexivity.
Qed.


(** The scalar loop returns when its slots are in memory. *)
Lemma scalar_loop_returns cs pin pout n (k : nat) : ∀ i (m : mem),
  n = i + Z.of_nat k →
  readable m (pin + 2 * i) (2 * (n - i)) →
  readable m (pout + 2 * i) (2 * (n - i)) →
  ∃ m', scalar_loop cs pin pout n i m = Some (n, m').
Proof.
  induction k as [|k IH]; intros i m Hn Hin Hout.
  - rewrite LoopFacts.scalar_loop_unfold. case_decide; [lia|].
    exists m. f_equal. f_equal. lia.
  - rewrite LoopFacts.scalar_loop_unfold. case_decide; [|lia].
    destruct (LoopFacts.scalar_body_spec cs pin pout i m) as (m1 & E1 & _ & R1).
    { intros a Ha. apply Hin. lia. }
    { intros a Ha. apply Hout. lia. }
    rewrite E1. cbn [mbind option_bind].
    apply IH; [lia | |]; apply R1; intros a Ha; [apply Hin | apply Hout]; lia.
Qed.

(** A scalar loop that returns has run to [num_points], found every
    slot on its way and touched the output slots alone. *)
Lemma scalar_loop_Some_inv cs pin pout n (k : nat) : ∀ i (m : mem) j m',
  Z.to_nat (n - i) = k →
  scalar_loop cs pin pout n i m = Some (j, m') →
  j = Z.max i n ∧
  readable m (pin + 2 * i) (2 * (n - i)) ∧
  readable m (pout + 2 * i) (2 * (n - i)) ∧
  dom m' = dom m ∧
  (∀ a, ¬ (pout + 2 * i ≤ a < pout + 2 * n) → m' !! a = m !! a).
Proof.
  induction k as [|k IH]; intros i m j m' Hk; rewrite LoopFacts.scalar_loop_unfold.
  - case_decide; [lia|]. intros [= <- <-].
    repeat split; try lia; try (intros a Ha; lia); reflexivity.
  - case_decide; [|lia].
    destruct (scalar_body cs pin pout i m) as [m1|] eqn:E1; [|discriminate].
    cbn [mbind option_bind]. intros E.
    apply scalar_body_Some_inv in E1 as (I1 & O1 & D1 & F1).
    apply IH in E as (-> & I2 & O2 & D2 & F2); [|lia].
    split; [lia|]. split; [|split; [|split]].
    + replace (2 * (n - i)) with (2 + 2 * (n - (i + 1))) by lia.
      apply readable_cons; [lia | lia | exact I1 |].
      apply (readable_dom m m1 _ _ D1).
      replace (pin + 2 * i + 2) with (pin + 2 * (i + 1)) by lia. exact I2.
    + replace (2 * (n - i)) with (2 + 2 * (n - (i + 1))) by lia.
      apply readable_cons; [lia | lia | exact O1 |].
      apply (readable_dom m m1 _ _ D1).
      replace (pout + 2 * i + 2) with (pout + 2 * (i + 1)) by lia. exact O2.
    + congruence.
    + intros a Ha. rewrite F2, F1 by lia. reflexivity.
Qed.

Lemma simd_loop_returns cv pin pout n (k : nat) : ∀ i (m : mem),
  n = i + 4 * Z.of_nat k →
  readable m (pin + 2 * i) (2 * (n - i)) →
  readable m (pout + 2 * i) (2 * (n - i)) →
  ∃ m', simd_loop cv pin pout n i m = Some (n, m').
Proof.
  induction k as [|k IH]; intros i m Hn Hin Hout.
  - rewrite LoopFacts.simd_loop_unfold. case_decide; [lia|].
    exists m. f_equal. f_equal. lia.
  - rewrite LoopFacts.simd_loop_unfold. case_decide; [|lia].
    destruct (simd_body cv pin pout i m) as [m1|] eqn:E1.
    + cbn [mbind option_bind].
      apply simd_body_Some_inv in E1 as (_ & _ & D1 & _).
      apply IH; [lia | |]; apply (readable_dom m m1 _ _ D1);
        intros a Ha; [apply Hin | apply Hout]; lia.
    + exfalso. revert E1.
      unfold simd_body, wasm_v128_load, wasm_v128_store, load.
      destruct (Hin (pin + i * 2) ltac:(lia)) as [x0 ->].
      destruct (Hin (pin + (i * 2 + 1)) ltac:(lia)) as [y0 ->].
      destruct (Hin (pin + (i * 2 + 2)) ltac:(lia)) as [x1 ->].
      destruct (Hin (pin + (i * 2 + 3)) ltac:(lia)) as [y1 ->].
      destruct (Hin (pin + (i * 2 + 4)) ltac:(lia)) as [x2 ->].
      destruct (Hin (pin + (i * 2 + 4 + 1)) ltac:(lia)) as [y2 ->].
      destruct (Hin (pin + (i * 2 + 4 + 2)) ltac:(lia)) as [x3 ->].
      destruct (Hin (pin + (i * 2 + 4 + 3)) ltac:(lia)) as [y3 ->].
      destruct (Hout (pout + i * 2) ltac:(lia)) as [o0 Ho0].
      destruct (Hout (pout + (i * 2 + 1)) ltac:(lia)) as [o1 Ho1].
      destruct (Hout (pout + (i * 2 + 2)) ltac:(lia)) as [o2 Ho2].
      destruct (Hout (pout + (i * 2 + 3)) ltac:(lia)) as [o3 Ho3].
      destruct (Hout (pout + (i * 2 + 4)) ltac:(lia)) as [o4 Ho4].
      destruct (Hout (pout + (i * 2 + 4 + 1)) ltac:(lia)) as [o5 Ho5].
      destruct (Hout (pout + (i * 2 + 4 + 2)) ltac:(lia)) as [o6 Ho6].
      destruct (Hout (pout + (i * 2 + 4 + 3)) ltac:(lia)) as [o7 Ho7].
      cbn [mbind option_bind]. rewrite Ho0, Ho1, Ho2, Ho3. cbn [mbind option_bind].
      rewrite !(lookup_insert_ne _ _ (pout + (i * 2 + 4))) by lia.
      rewrite !(lookup_insert_ne _ _ (pout + (i * 2 + 4 + 1))) by lia.
      rewrite !(lookup_insert_ne _ _ (pout + (i * 2 + 4 + 2))) by lia.
      rewrite !(lookup_insert_ne _ _ (pout + (i * 2 + 4 + 3))) by lia.
      rewrite Ho4, Ho5, Ho6, Ho7. discriminate.
Qed.

Lemma simd_loop_Some_inv cv pin pout n (k : nat) : ∀ i (m : mem) j m',
  n = i + 4 * Z.of_nat k →
  simd_loop cv pin pout n i m = Some (j, m') →
  j = n ∧
  readable m (pin + 2 * i) (2 * (n - i)) ∧
  readable m (pout + 2 * i) (2 * (n - i)) ∧
  dom m' = dom m ∧
  (∀ a, ¬ (pout + 2 * i ≤ a < pout + 2 * n) → m' !! a = m !! a).
Proof.
  induction k as [|k IH]; intros i m j m' Hk; rewrite LoopFacts.simd_loop_unfold.
  - case_decide; [lia|]. intros [= <- <-].
    repeat split; try lia; try (intros a Ha; lia); reflexivity.
  - case_decide; [|lia].
    destruct (simd_body cv pin pout i m) as [m1|] eqn:E1; [|discriminate].
    cbn [mbind option_bind]. intros E.
    apply simd_body_Some_inv in E1 as (I1 & O1 & D1 & F1).
    apply IH in E as (-> & I2 & O2 & D2 & F2); [|lia].
    split; [reflexivity|]. split; [|split; [|split]].
    + replace (2 * (n - i)) with (8 + 2 * (n - (i + 4))) by lia.
      apply readable_cons; [lia | lia | exact I1 |].
      apply (readable_dom m m1 _ _ D1).
      replace (pin + 2 * i + 8) with (pin + 2 * (i + 4)) by lia. exact I2.
    + replace (2 * (n - i)) with (8 + 2 * (n - (i + 4))) by lia.
      apply readable_cons; [lia | lia | exact O1 |].
      apply (readable_dom m m1 _ _ D1).
      replace (pout + 2 * i + 8) with (pout + 2 * (i + 4)) by lia. exact O2.
    + congruence.
    + intros a Ha. rewrite F2, F1 by lia. reflexivity.
Qed.

Lemma read_coeffs_Some_inv (m : mem) mp cs :
  read_coeffs m mp = Some cs → readable m mp 9.
Proof.
  unfold read_coeffs, coeff, load. intros H.
  destruct (m !! (mp + (0 + 3 * 0))) eqn:E0; [|discriminate H].
  destruct (m !! (mp + (1 + 3 * 0))) eqn:E1; [|discriminate H].
  destruct (m !! (mp + (2 + 3 * 0))) eqn:E2; [|discriminate H].
  destruct (m !! (mp + (0 + 3 * 1))) eqn:E3; [|discriminate H].
  destruct (m !! (mp + (1 + 3 * 1))) eqn:E4; [|discriminate H].
  destruct (m !! (mp + (2 + 3 * 1))) eqn:E5; [|discriminate H].
  destruct (m !! (mp + (0 + 3 * 2))) eqn:E6; [|discriminate H].
  destruct (m !! (mp + (1 + 3 * 2))) eqn:E7; [|discriminate H].
  destruct (m !! (mp + (2 + 3 * 2))) eqn:E8; [|discriminate H].
  intros a Ha.
  assert (Hc : a = mp + (0 + 3 * 0) ∨ a = mp + (1 + 3 * 0) ∨ a = mp + (2 + 3 * 0)
               ∨ a = mp + (0 + 3 * 1) ∨ a = mp + (1 + 3 * 1) ∨ a = mp + (2 + 3 * 1)
               ∨ a = mp + (0 + 3 * 2) ∨ a = mp + (1 + 3 * 2) ∨ a = mp + (2 + 3 * 2))
    by lia.
  destruct Hc as [->|[->|[->|[->|[->|[->|[->|[->| ->]]]]]]]]; eauto.
Qed.

(** What a returning call has done, whatever the overlap of its
    buffers. *)
Lemma transform_points_batch_Some_inv (m m' : mem) mp pin pout n :
  transform_points_batch m mp pin pout n = Some m' →
  readable m mp 9 ∧ readable m pin (2 * n) ∧ readable m pout (2 * n) ∧
  dom m' = dom m ∧
  (∀ a, ¬ (pout ≤ a < pout + 2 * n) → m' !! a = m !! a).
Proof.
  unfold transform_points_batch.
  destruct (read_coeffs m mp) as [cs|] eqn:Hcs; [|discriminate].
  cbn [mbind option_bind].
  apply read_coeffs_Some_inv in Hcs.
  destruct (LoopFacts.num_points_simd_range n) as [Hneg Hpos].
  set (s := n - Z.rem n 4) in *.
  destruct (simd_loop _ pin pout s 0 m) as [[i m1]|] eqn:E1; [|discriminate].
  cbn [mbind option_bind].
  destruct (Z_le_gt_dec n 0) as [Hn|Hn].
  - specialize (Hneg Hn).
    rewrite LoopFacts.simd_loop_unfold in E1. case_decide; [lia|].
    injection E1 as <- <-.
    destruct (0 <? n) eqn:E; [apply Z.ltb_lt in E; lia|].
    intros [= <-]. repeat split; auto; intros a Ha; lia.
  - destruct (Hpos ltac:(lia)) as (Hs & Hr & Hk).
    apply (simd_loop_Some_inv _ _ _ _ (Z.to_nat (n ÷ 4))) in E1
      as (-> & I1 & O1 & D1 & F1); [|lia].
    destruct (s <? n) eqn:E.
    + apply Z.ltb_lt in E.
      destruct (read_coeffs m1 mp) as [cs'|]; [|discriminate].
      cbn [mbind option_bind].
      destruct (scalar_loop cs' pin pout n s m1) as [[j m2]|] eqn:E2; [|discriminate].
      cbn [mbind option_bind]. intros [= <-].
      apply (scalar_loop_Some_inv _ _ _ _ (Z.to_nat (n - s))) in E2
        as (_ & I2 & O2 & D2 & F2); [|reflexivity].
      split; [exact Hcs|]. split; [|split; [|split]].
      * replace (2 * n) with (2 * s + 2 * (n - s)) by lia.
        apply readable_cons; [lia | lia | |].
        -- intros a Ha. apply I1. lia.
        -- apply (readable_dom m m1 _ _ D1). exact I2.
      * replace (2 * n) with (2 * s + 2 * (n - s)) by lia.
        apply readable_cons; [lia | lia | |].
        -- intros a Ha. apply O1. lia.
        -- apply (readable_dom m m1 _ _ D1). exact O2.
      * congruence.
      * intros a Ha. rewrite F2, F1 by lia. reflexivity.
    + apply Z.ltb_ge in E. assert (s = n) by lia. intros [= <-].
      split; [exact Hcs|]. split; [|split; [|split]].
      * intros a Ha. apply I1. lia.
      * intros a Ha. apply O1. lia.
      * exact D1.
      * intros a Ha. apply F1. lia.
Qed.

(** A call returns when the matrix and both batches are in memory,
    whatever the overlap of its buffers. *)
Lemma transform_points_batch_returns (m : mem) mp pin pout n :
  readable m mp 9 → readable m pin (2 * n) → readable m pout (2 * n) →
  is_Some (transform_points_batch m mp pin pout n).
Proof.
  intros Hm Hi Ho. unfold transform_points_batch.
  destruct (LoopFacts.read_coeffs_Some m mp Hm) as [cs Hcs].
  rewrite Hcs. cbn [mbind option_bind].
  destruct (LoopFacts.num_points_simd_range n) as [Hneg Hpos].
  set (s := n - Z.rem n 4) in *.
  destruct (Z_le_gt_dec n 0) as [Hn|Hn].
  - specialize (Hneg Hn).
    rewrite LoopFacts.simd_loop_unfold. case_decide; [lia|]. cbn [mbind option_bind].
    destruct (0 <? n) eqn:E; [apply Z.ltb_lt in E; lia|]. eauto.
  - destruct (Hpos ltac:(lia)) as (Hs & Hr & Hk).
    destruct (simd_loop_returns (splat_all cs) pin pout s (Z.to_nat (n ÷ 4)) 0 m)
      as [m1 E1].
    { lia. }
    { intros a Ha. apply Hi. lia. }
    { intros a Ha. apply Ho. lia. }
    rewrite E1. cbn [mbind option_bind].
    apply (simd_loop_Some_inv _ _ _ _ (Z.to_nat (n ÷ 4))) in E1
      as (_ & _ & _ & D1 & _); [|lia].
    destruct (s <? n) eqn:E; [|eauto].
    apply Z.ltb_lt in E.
    destruct (LoopFacts.read_coeffs_Some m1 mp) as [cs' ->].
    { apply (readable_dom m m1 _ _ D1). exact Hm. }
    cbn [mbind option_bind].
    destruct (scalar_loop_returns cs' pin pout n (Z.to_nat (n - s)) s m1) as [m2 ->].
    { lia. }
    { apply (readable_dom m m1 _ _ D1). intros a Ha. apply Hi. lia. }
    { apply (readable_dom m m1 _ _ D1). intros a Ha. apply Ho. lia. }
    cbn. eauto.
Qed.

End SafetyFacts.

(** ** Batches that overlap *)

Module OverlapFacts.

Lemma call_ok_overlapb_ok (m : mem) mp pin pout n :
  call_ok_overlapb m mp pin pout n = true → call_ok_overlap m mp pin pout n.
Proof.
  unfold call_ok_overlapb. rewrite !andb_true_iff.
  intros [[[[[[H1 H2] H3] H4] H5] H6] H7].
  split; auto using CheckFacts.readableb_ok, CheckFacts.disjointb_ok;
    unfold overlap_safe; lia.
Qed.

Lemma scalar_loop_overlap cs pin pout n (k : nat) : ∀ i (m : mem),
  0 ≤ i → n = i + Z.of_nat k →
  readable m (pin + 2 * i) (2 * (n - i)) →
  readable m (pout + 2 * i) (2 * (n - i)) →
  overlap_safe pin pout n →
  ∃ m', scalar_loop cs pin pout n i m = Some (n, m') ∧
        transformed (point_out cs) pin pout i n m m' ∧
        (∀ p l, readable m p l → readable m' p l).
Proof.
  induction k as [|k IH]; intros i m Hi Hn Hin Hout Hd.
  - rewrite LoopFacts.scalar_loop_unfold. case_decide; [lia|].
    exists m. replace n with i by lia.
    split; [reflexivity | split; [apply LoopFacts.transformed_refl; lia | auto]].
  - rewrite LoopFacts.scalar_loop_unfold. case_decide; [|lia].
    destruct (LoopFacts.scalar_body_spec cs pin pout i m) as (m1 & E1 & T1 & R1).
    { intros a Ha. apply Hin. lia. }
    { intros a Ha. apply Hout. lia. }
    rewrite E1. cbn [mbind option_bind].
    destruct (IH (i + 1) m1) as (m2 & E2 & T2 & R2).
    + lia.
    + lia.
    + apply R1. intros a Ha. apply Hin. lia.
    + apply R1. intros a Ha. apply Hout. lia.
    + exact Hd.
    + exists m2. split; [exact E2 | split].
      * apply (LoopFacts.transformed_app _ _ _ i (i + 1) n m m1 m2); auto; [lia|].
        unfold disjoint, overlap_safe in *. lia.
      * auto.
Qed.

Lemma simd_loop_overlap cs pin pout n s (k : nat) : ∀ i (m : mem),
  0 ≤ i → s = i + 4 * Z.of_nat k → s ≤ n →
  readable m (pin + 2 * i) (2 * (s - i)) →
  readable m (pout + 2 * i) (2 * (s - i)) →
  overlap_safe pin pout n →
  ∃ m', simd_loop (splat_all cs) pin pout s i m = Some (s, m') ∧
        transformed (point_out cs) pin pout i s m m' ∧
        (∀ p l, readable m p l → readable m' p l).
Proof.
  induction k as [|k IH]; intros i m Hi Hs Hsn Hin Hout Hd.
  - rewrite LoopFacts.simd_loop_unfold. case_decide; [lia|].
    exists m. replace s with i by lia.
    split; [reflexivity | split; [apply LoopFacts.transformed_refl; lia | auto]].
  - rewrite LoopFacts.simd_loop_unfold. case_decide; [|lia].
    destruct (LoopFacts.simd_body_spec cs pin pout i m) as (m1 & E1 & T1 & R1).
    { intros a Ha. apply Hin. lia. }
    { intros a Ha. apply Hout. lia. }
    rewrite E1. cbn [mbind option_bind].
    destruct (IH (i + 4) m1) as (m2 & E2 & T2 & R2).
    + lia.
    + lia.
    + lia.
    + apply R1. intros a Ha. apply Hin. lia.
    + apply R1. intros a Ha. apply Hout. lia.
    + exact Hd.
    + exists m2. split; [exact E2 | split].
      * apply (LoopFacts.transformed_app _ _ _ i (i + 4) s m m1 m2); auto; [lia|].
        unfold disjoint, overlap_safe in *. lia.
      * auto.
Qed.

(** What a whole call writes when the output batch may share cells
    with the input batch. *)
Lemma transform_points_batch_overlap (m : mem) mp pin pout n :
  call_ok_overlap m mp pin pout n →
  ∃ cs m', read_coeffs m mp = Some cs ∧
           transform_points_batch m mp pin pout n = Some m' ∧
           transformed (point_out cs) pin pout 0 n m m'.
Proof.
  intros [Hm Hi Ho Hio Hmo _].
  destruct (LoopFacts.read_coeffs_Some m mp Hm) as [cs Hcs].
  exists cs. unfold transform_points_batch. rewrite Hcs. cbn [mbind option_bind].
  destruct (LoopFacts.num_points_simd_range n) as [Hneg Hpos].
  set (s := n - Z.rem n 4) in *.
  destruct (Z_le_gt_dec n 0) as [Hn|Hn].
  - specialize (Hneg Hn).
    rewrite LoopFacts.simd_loop_unfold. case_decide; [lia|]. cbn [mbind option_bind].
    destruct (0 <? n) eqn:E; [apply Z.ltb_lt in E; lia|].
    exists m. split; [reflexivity | split; [reflexivity|]].
    apply LoopFacts.transformed_refl. lia.
  - destruct (Hpos ltac:(lia)) as (Hs & Hr & Hk).
    destruct (simd_loop_overlap cs pin pout n s (Z.to_nat (n ÷ 4)) 0 m)
      as (m1 & E1 & T1 & R1); try lia; try exact Hio.
    { intros a Ha. apply Hi. lia. }
    { intros a Ha. apply Ho. lia. }
    rewrite E1. cbn [mbind option_bind].
    destruct (s <? n) eqn:E.
    + apply Z.ltb_lt in E.
      assert (Hcs1 : read_coeffs m1 mp = Some cs).
      { rewrite <- Hcs. apply LoopFacts.read_coeffs_frame. intros a Ha.
        apply T1. unfold disjoint in Hmo. lia. }
      rewrite Hcs1. cbn [mbind option_bind].
      destruct (scalar_loop_overlap cs pin pout n (Z.to_nat (n - s)) s m1)
        as (m2 & E2 & T2 & R2); try lia; try exact Hio.
      { apply R1. intros a Ha. apply Hi. lia. }
      { apply R1. intros a Ha. apply Ho. lia. }
      rewrite E2. cbn [mbind option_bind].
      exists m2. split; [reflexivity | split; [reflexivity|]].
      apply (LoopFacts.transformed_app _ _ _ 0 s n m m1 m2); auto; try lia.
      unfold disjoint, overlap_safe in *. lia.
    + apply Z.ltb_ge in E. assert (s = n) by lia.
      exists m1. split; [reflexivity | split; [reflexivity|]].
      congruence.
Qed.

Lemma transform_points_scalar_overlap (m : mem) mp pin pout n :
  call_ok_overlap m mp pin pout n →
  ∃ cs m', read_coeffs m mp = Some cs ∧
           transform_points_scalar m mp pin pout n = Some m' ∧
           transformed (point_out cs) pin pout 0 n m m'.
Proof.
  intros [Hm Hi Ho Hio Hmo _].
  destruct (LoopFacts.read_coeffs_Some m mp Hm) as [cs Hcs].
  exists cs. unfold transform_points_scalar. rewrite Hcs. cbn [mbind option_bind].
  destruct (Z_le_gt_dec n 0) as [Hn|Hn].
  - rewrite LoopFacts.scalar_loop_unfold. case_decide; [lia|]. cbn [mbind option_bind].
    exists m. split; [reflexivity | split; [reflexivity|]].
    apply LoopFacts.transformed_refl. lia.
  - destruct (scalar_loop_overlap cs pin pout n (Z.to_nat n) 0 m)
      as (m1 & E1 & T1 & R1); try lia; try exact Hio.
    { intros a Ha. apply Hi. lia. }
    { intros a Ha. apply Ho. lia. }
    rewrite E1. cbn [mbind option_bind].
    exists m1. auto.
Qed.

End OverlapFacts.

(** ** One point *)

Module PointFacts.

Import F32Facts.

Lemma not_finite_encode_inf s : F32.is_finite (F32.encode (S754_infinity s)) = false.
Proof. destruct s; reflexivity. Qed.

(** A product with a factor that is not finite is not finite. *)
Lemma mul_not_finite_r a b :
  F32.is_finite b = false → F32.is_finite (F32.mul a b) = false.
Proof.
  unfold F32.mul. unfold F32.is_finite at 1.
  destruct (F32.decode a) as [sa|sa| |sa ma ea], (F32.decode b) as [sb|sb| |sb mb eb];
    try discriminate; intros _; cbn [SFmul];
    first [apply not_finite_encode_inf | reflexivity].
Qed.

(** A sum with a term that is not finite is not finite. *)
Lemma add_not_finite_l a b :
  F32.is_finite a = false → F32.is_finite (F32.add a b) = false.
Proof.
  unfold F32.add. unfold F32.is_finite at 1.
  destruct (F32.decode a) as [sa|sa| |sa ma ea], (F32.decode b) as [sb|sb| |sb mb eb];
    try discriminate; intros _; cbn [SFadd];
    try (destruct sa, sb; reflexivity);
    first [apply not_finite_encode_inf | reflexivity].
Qed.

Lemma add_not_finite_r a b :
  F32.is_finite b = false → F32.is_finite (F32.add a b) = false.
Proof.
  unfold F32.add. unfold F32.is_finite at 1.
  destruct (F32.decode a) as [sa|sa| |sa ma ea], (F32.decode b) as [sb|sb| |sb mb eb];
    try discriminate; intros _; cbn [SFadd];
    try (destruct sa, sb; reflexivity);
    first [apply not_finite_encode_inf | reflexivity].
Qed.

(** Neither branch of the policy gives anything but NaN when [X] and
    [W] are not finite: [W] is not below the threshold, and [X * (1/W)]
    is [inf * 0] or has a NaN factor. *)
Lemma quotient_not_finite X W :
  F32.is_finite X = false → F32.is_finite W = false →
  F32.lt (F32.abs W) MATRIX_SVD_EPSILON = false ∧
  F32.mul X (F32.div F32.one W) = F32.quiet_NaN.
Proof.
  unfold F32.is_finite. intros HX HW.
  unfold F32.lt. rewrite decode_abs.
  destruct (F32.decode W) as [sw|sw| |sw mw ew] eqn:EW; try discriminate HW.
  - split; [reflexivity|].
    unfold F32.mul, F32.div. rewrite EW, decode_one. cbn [SFdiv xorb].
    change (F32.encode (S754_zero sw)) with (F32.sign_bit sw).
    rewrite decode_sign_bit.
    destruct (F32.decode X) as [sx|sx| |sx mx ex]; try discriminate HX; reflexivity.
  - split; [reflexivity|]. apply mul_recip_nan. exact EW.
Qed.

(** A point with a coordinate that is not finite comes out as
    [(NaN, NaN)], whatever the matrix. *)
Lemma point_out_not_finite cs x y :
  F32.is_finite x = false ∨ F32.is_finite y = false →
  point_out cs x y = (F32.quiet_NaN, F32.quiet_NaN).
Proof.
  intros H. unfold point_out.
  set (X := F32.add (F32.add (F32.mul (m0_s cs) x) _) _).
  set (Y := F32.add (F32.add (F32.mul (m1_s cs) x) _) _).
  set (W := F32.add (F32.add (F32.mul (m2_s cs) x) _) _).
  assert (Hsum : ∀ a b c, F32.is_finite
            (F32.add (F32.add (F32.mul a x) (F32.mul b y)) c) = false).
  { intros a b c. apply add_not_finite_l.
    destruct H as [H|H].
    - apply add_not_finite_l, mul_not_finite_r, H.
    - apply add_not_finite_r, mul_not_finite_r, H. }
  destruct (quotient_not_finite X W (Hsum _ _ _) (Hsum _ _ _)) as [-> ->].
  destruct (quotient_not_finite Y W (Hsum _ _ _) (Hsum _ _ _)) as [_ ->].
  reflexivity.
Qed.

(** [(±0) * y] is a zero when [y] is finite. *)
Lemma mul_zero_finite z y :
  is_zero z = true → F32.is_finite y = true → ∃ s, F32.mul z y = F32.sign_bit s.
Proof.
  unfold is_zero, F32.is_finite, F32.mul. intros Hz Hy.
  destruct (F32.decode z) as [sz|sz| |sz mz ez]; try discriminate Hz.
  destruct (F32.decode y) as [sy|sy| |sy my ey]; try discriminate Hy;
    exists (xorb sz sy); reflexivity.
Qed.

(** A sum that is a NaN is the canonical one. *)
Lemma add_nan_canonical a b :
  F32.is_nan (F32.add a b) = true → F32.add a b = F32.quiet_NaN.
Proof.
  unfold F32.add.
  destruct (F32.decode a) as [sa|sa| |sa ma ea] eqn:Ea,
           (F32.decode b) as [sb|sb| |sb mb eb] eqn:Eb;
    cbn [SFadd]; try reflexivity;
    rewrite ?NanFacts.encode_zero_not_nan, ?NanFacts.encode_inf_not_nan;
    try discriminate.
  - destruct sa, sb; cbn; try reflexivity; discriminate.
  - rewrite (NanFacts.encode_finite_not_nan sb mb eb
               (NanFacts.decode_finite_range b _ _ _ Eb)). discriminate.
  - destruct sa, sb; cbn; try reflexivity; discriminate.
  - rewrite (NanFacts.encode_finite_not_nan sa ma ea
               (NanFacts.decode_finite_range a _ _ _ Ea)). discriminate.
  - rewrite NanFacts.normalize_not_nan. discriminate.
Qed.

(** [X * 1] is [X], bit for bit, for every pattern but a NaN that is
    not the canonical one. *)
Lemma mul_one_r_pattern X :
  F32.wf X → (F32.is_nan X = true → X = F32.quiet_NaN) → F32.mul X F32.one = X.
Proof.
  intros Hw Hn.
  destruct (F32.is_finite X) eqn:Hf; [apply mul_one_r; assumption|].
  destruct (F32.is_nan X) eqn:Hnan.
  - rewrite (Hn eq_refl). reflexivity.
  - pose proof (encode_decode X Hw Hnan) as Hr.
    unfold F32.mul. rewrite decode_one.
    unfold F32.is_finite in Hf. unfold F32.is_nan in Hnan.
    destruct (F32.decode X) as [s|s| |s m e]; try discriminate.
    cbn [SFmul]. rewrite xorb_false_r. exact Hr.
Qed.

Lemma add_times_one a b : F32.mul (F32.add a b) F32.one = F32.add a b.
Proof.
  apply mul_one_r_pattern; [apply encode_wf | apply add_nan_canonical].
Qed.

(** Through an affine matrix a finite point has [W = 1]: the sentinel
    is not written for [W], and the products with [1 / W] change
    nothing. *)
Lemma point_out_affine cs x y :
  affine cs → F32.is_finite x = true → F32.is_finite y = true →
  point_out cs x y =
  (F32.add (F32.add (F32.mul (m0_s cs) x) (F32.mul (m3_s cs) y)) (m6_s cs),
   F32.add (F32.add (F32.mul (m1_s cs) x) (F32.mul (m4_s cs) y)) (m7_s cs)).
Proof.
  intros (H2 & H5 & H8) Fx Fy. unfold point_out.
  destruct (mul_zero_finite _ x H2 Fx) as [s2 ->].
  destruct (mul_zero_finite _ y H5 Fy) as [s5 ->].
  rewrite H8, zeros_plus_one.
  assert (Hlt : F32.lt (F32.abs F32.one) MATRIX_SVD_EPSILON = false) by (vm_compute; reflexivity).
  assert (Hinv : F32.div F32.one F32.one = F32.one) by (vm_compute; reflexivity).
  rewrite Hlt, Hinv, !add_times_one. reflexivity.
Qed.

End PointFacts.

(** ** Views of memory *)

Module MapFacts.

(** A view that is read lies in memory, and holds the cells. *)
Lemma load_vec_Some_inv (n : nat) : ∀ (m : mem) p (v : vec f32 n),
  load_vec m p n = Some v →
  readable m p (Z.of_nat n) ∧
  ∀ k x, vec_to_list v !! k = Some x → m !! (p + Z.of_nat k) = Some x.
Proof.
  induction n as [|n IH]; intros m p v; cbn [load_vec].
  - intros [= <-]. split; [intros a Ha; lia|].
    intros k x Hk. cbn in Hk. rewrite lookup_nil in Hk. discriminate Hk.
  - destruct (m !! p) as [x|] eqn:Ex; [|discriminate]. cbn [mbind option_bind].
    destruct (load_vec m (p + 1) n) as [xs|] eqn:Exs; [|discriminate].
    cbn [mbind option_bind]. intros [= <-].
    destruct (IH m (p + 1) xs Exs) as [R V]. split.
    + intros a Ha. destruct (decide (a = p)) as [->|Hne]; [eauto|].
      apply R. lia.
    + intros [|k] y Hk; cbn in Hk.
      * injection Hk as <-. rewrite Z.add_0_r. exact Ex.
      * replace (p + Z.of_nat (S k)) with (p + 1 + Z.of_nat k) by lia. auto.
Qed.

Lemma load_vec_is_Some_iff (n : nat) (m : mem) p :
  is_Some (load_vec m p n) ↔ readable m p (Z.of_nat n).
Proof.
  split; [|apply ViewFacts.load_vec_is_Some].
  intros [v Hv]. apply (load_vec_Some_inv n m p v Hv).
Qed.

(** A view reads the same in two memories that agree on its cells. *)
Lemma load_vec_ext (n : nat) : ∀ (m1 m2 : mem) p,
  (∀ a, p ≤ a < p + Z.of_nat n → m1 !! a = m2 !! a) →
  load_vec m1 p n = load_vec m2 p n.
Proof.
  induction n as [|n IH]; intros m1 m2 p H; cbn [load_vec]; [reflexivity|].
  rewrite (H p) by lia. rewrite (IH m1 m2 (p + 1)); [reflexivity|].
  intros a Ha. apply H. lia.
Qed.

(** A view reads the list its cells hold. *)
Lemma load_vec_of_lookups (n : nat) : ∀ (m : mem) p (l : list f32),
  length l = n →
  (∀ k x, l !! k = Some x → m !! (p + Z.of_nat k) = Some x) →
  vec_to_list <$> load_vec m p n = Some l.
Proof.
  induction n as [|n IH]; intros m p l Hl H; cbn [load_vec].
  - destruct l; [reflexivity | discriminate Hl].
  - destruct l as [|x l]; [discriminate Hl|].
    pose proof (H 0%nat x eq_refl) as H0. rewrite Z.add_0_r in H0.
    rewrite H0. cbn [mbind option_bind].
    assert (IH' : vec_to_list <$> load_vec m (p + 1) n = Some l).
    { apply IH; [cbn in Hl; lia|].
      intros k y Hk. specialize (H (S k) y Hk).
      replace (p + 1 + Z.of_nat k) with (p + Z.of_nat (S k)) by lia. exact H. }
    destruct (load_vec m (p + 1) n) as [xs|]; [|discriminate IH'].
    cbn in IH'. injection IH' as <-. reflexivity.
Qed.

(** An assignment that returns has found the view and kept the set of
    cells. *)
Lemma store_list_Some_inv (l : list f32) : ∀ (m m' : mem) p,
  store_list m p l = Some m' →
  readable m p (Z.of_nat (length l)) ∧ dom m' = dom m.
Proof.
  induction l as [|x l IH]; intros m m' p; cbn [store_list length].
  - intros [= <-]. split; [intros a Ha; lia | reflexivity].
  - destruct (store m p 0 x) as [m1|] eqn:E1; [|discriminate].
    cbn [mbind option_bind]. intros E.
    apply SafetyFacts.store_Some_inv in E1 as (S1 & -> & D1).
    apply IH in E as [R D]. split; [|congruence].
    intros a Ha. destruct (decide (a = p + 0)) as [->|Hne]; [exact S1|].
    apply (SafetyFacts.readable_dom m _ (p + 1) (Z.of_nat (length l)) D1); [exact R|].
    lia.
Qed.

Lemma store_list_is_Some_iff (l : list f32) (m : mem) p :
  is_Some (store_list m p l) ↔ readable m p (Z.of_nat (length l)).
Proof.
  split.
  - intros [m' H]. apply (store_list_Some_inv l m m' p H).
  - intros H. destruct (ViewFacts.store_list_spec l m p H) as (m' & E & _). eauto.
Qed.

(** Reading back what was assigned. *)
Lemma load_after_store (n : nat) (v : vec f32 n) (m m' : mem) p :
  store_list m p (vec_to_list v) = Some m' → load_vec m' p n = Some v.
Proof.
  intros E.
  pose proof (store_list_Some_inv _ _ _ _ E) as [R _].
  destruct (ViewFacts.store_list_spec (vec_to_list v) m p R) as (m2 & E2 & V & _).
  assert (m2 = m') by congruence. subst m2.
  pose proof (load_vec_of_lookups n m' p (vec_to_list v) (length_vec_to_list v) V) as H.
  destruct (load_vec m' p n) as [w|]; [|discriminate H].
  cbn in H. injection H as H. apply vec_to_list_inj2 in H. congruence.
Qed.

(** A view filled with a constant reads as that constant. *)
Lemma load_after_setConstant (n : nat) (m m' : mem) p c :
  setConstant m p n c = Some m' → load_vec m' p n = Some (vreplicate n c).
Proof.
  unfold setConstant. rewrite <- vec_to_list_replicate. apply load_after_store.
Qed.

End MapFacts.

(** ** Zeros and the guards *)

Module ZeroFacts.

Import F32Facts.

Lemma is_zero_sign_bit s : is_zero (F32.sign_bit s) = true.
Proof. destruct s; reflexivity. Qed.

Lemma is_zero_inv z : is_zero z = true → ∃ s, F32.decode z = S754_zero s.
Proof.
  unfold is_zero. destruct (F32.decode z) as [s|s| |s mz ez]; try discriminate. eauto.
Qed.

Lemma decode_sign_bit_zero s : F32.decode (F32.sign_bit s) = S754_zero s.
Proof. destruct s; reflexivity. Qed.

(** A sum of zeros is a zero. *)
Lemma add_zeros a b : is_zero a = true → is_zero b = true → is_zero (F32.add a b) = true.
Proof.
  intros Ha Hb. destruct (is_zero_inv a Ha) as [sa Ea], (is_zero_inv b Hb) as [sb Eb].
  unfold F32.add. rewrite Ea, Eb. destruct sa, sb; reflexivity.
Qed.

(** A zero times a finite number is a zero. *)
Lemma zero_times_finite z y :
  is_zero z = true → F32.is_finite y = true → is_zero (F32.mul z y) = true.
Proof.
  intros Hz Hy. destruct (PointFacts.mul_zero_finite z y Hz Hy) as [s ->].
  apply is_zero_sign_bit.
Qed.

Lemma finite_times_zero y z :
  F32.is_finite y = true → is_zero z = true → is_zero (F32.mul y z) = true.
Proof.
  unfold is_zero, F32.is_finite, F32.mul. intros Hy Hz.
  destruct (F32.decode z) as [sz|sz| |sz mz ez]; try discriminate Hz.
  destruct (F32.decode y) as [sy|sy| |sy my ey]; try discriminate Hy;
    destruct sy, sz; reflexivity.
Qed.

(** The magnitude of a zero is below every positive number and below
    no zero. *)
Lemma abs_zero z : is_zero z = true → F32.decode (F32.abs z) = S754_zero false.
Proof.
  intros Hz. destruct (is_zero_inv z Hz) as [s E]. rewrite decode_abs, E. reflexivity.
Qed.

Lemma lt_abs_zero_eps z : is_zero z = true → F32.lt (F32.abs z) MATRIX_SVD_EPSILON = true.
Proof. intros Hz. unfold F32.lt. rewrite (abs_zero z Hz). reflexivity. Qed.

Lemma lt_abs_zero_zero a z : is_zero a = true → is_zero z = true → F32.lt (F32.abs a) z = false.
Proof.
  intros Ha Hz. unfold F32.lt. rewrite (abs_zero a Ha).
  destruct (is_zero_inv z Hz) as [s ->]. reflexivity.
Qed.

(** The largest coefficient is one of the coefficients. *)
Lemma fold_max_in (l : list f32) : ∀ x,
  In (fold_left (fun a b => if F32.lt a b then b else a) l x) (x :: l).
Proof.
  induction l as [|y l IH]; intros x; cbn [fold_left].
  - left. reflexivity.
  - destruct (IH (if F32.lt x y then y else x)) as [H|H].
    + rewrite <- H. destruct (F32.lt x y); [right; left | left]; reflexivity.
    + right. right. exact H.
Qed.

Lemma maxCoeff_zero {n} (v : vec f32 n) :
  Forall (fun s => is_zero s = true) (vec_to_list v) → is_zero (maxCoeff v) = true.
Proof.
  unfold maxCoeff. intros H. destruct (vec_to_list v) as [|x l]; [reflexivity|].
  apply (proj1 (List.Forall_forall _ _) H), fold_max_in.
Qed.

Lemma existsb_false {A} (p : A → bool) (l : list A) :
  Forall (fun a => p a = false) l → existsb p l = false.
Proof.
  induction 1 as [|a l Ha _ IH]; [reflexivity|]. cbn [existsb]. rewrite Ha, IH. reflexivity.
Qed.

Lemma existsb_false_inv {A} (p : A → bool) (l : list A) :
  existsb p l = false → Forall (fun a => p a = false) l.
Proof.
  induction l as [|a l IH]; cbn [existsb]; intros H; constructor.
  - destruct (p a); [discriminate H | reflexivity].
  - apply IH. destruct (p a); [discriminate H | exact H].
Qed.

Lemma any_nan_replicate n : any F32.is_nan (vreplicate (S n) F32.quiet_NaN) = true.
Proof. reflexivity. Qed.

(** With a zero bottom row the scalar path stores NaN for every
    point. *)
Lemma point_out_zero_row cs x y :
  is_zero (m2_s cs) = true → is_zero (m5_s cs) = true → is_zero (m8_s cs) = true →
  point_out cs x y = (F32.quiet_NaN, F32.quiet_NaN).
Proof.
  intros H2 H5 H8.
  destruct (F32.is_finite x) eqn:Fx; [|apply PointFacts.point_out_not_finite; auto].
  destruct (F32.is_finite y) eqn:Fy; [|apply PointFacts.point_out_not_finite; auto].
  unfold point_out. cbv zeta.
  rewrite lt_abs_zero_eps; [reflexivity|].
  apply add_zeros; [apply add_zeros|]; auto using zero_times_finite.
Qed.

End ZeroFacts.

Module GuardFacts.

Lemma lt_abs_nan d b : F32.is_nan d = true → F32.lt (F32.abs d) b = false.
Proof.
  intros H. unfold F32.lt. rewrite F32Facts.decode_abs, (NanFacts.is_nan_decode d H).
  reflexivity.
Qed.

End GuardFacts.

(** ** Splitting a batch *)

Module SplitFacts.

Lemma transformed_shift f pin pout k n (m m' : mem) :
  transformed f (pin + 2 * k) (pout + 2 * k) 0 (n - k) m m' →
  transformed f pin pout k n m m'.
Proof.
  intros [V F]. split.
  - intros j x y Hj Hx Hy.
    replace (pin + 2 * j) with (pin + 2 * k + 2 * (j - k)) in Hx by lia.
    replace (pin + 2 * j + 1) with (pin + 2 * k + 2 * (j - k) + 1) in Hy by lia.
    replace (pout + 2 * j) with (pout + 2 * k + 2 * (j - k)) by lia.
    apply (V (j - k) x y); [lia | exact Hx | exact Hy].
  - intros a Ha. apply F. lia.
Qed.

Lemma call_ok_prefix (m : mem) mp pin pout n k :
  call_ok m mp pin pout n → 0 ≤ k ≤ n → call_ok m mp pin pout k.
Proof.
  intros [Hm Hi Ho Hio Hmo Hint] Hk. unfold disjoint in *.
  constructor; unfold disjoint; try lia.
  - exact Hm.
  - intros a Ha. apply Hi. lia.
  - intros a Ha. apply Ho. lia.
Qed.

Lemma call_ok_suffix (m m1 : mem) mp pin pout n k :
  call_ok m mp pin pout n → 0 ≤ k ≤ n → dom m1 = dom m →
  call_ok m1 mp (pin + 2 * k) (pout + 2 * k) (n - k).
Proof.
  intros [Hm Hi Ho Hio Hmo Hint] Hk Hd. unfold disjoint in *.
  constructor; unfold disjoint; try lia.
  - apply (SafetyFacts.readable_dom m m1 mp 9 Hd), Hm.
  - apply (SafetyFacts.readable_dom m m1 _ _ Hd). intros a Ha. apply Hi. lia.
  - apply (SafetyFacts.readable_dom m m1 _ _ Hd). intros a Ha. apply Ho. lia.
Qed.

(** In the model with one NaN a batch can be transformed in two
    calls. *)
Lemma split_with_one_nan (m : mem) mp pin pout n k :
  call_ok m mp pin pout n →
  0 ≤ k ≤ n →
  ∃ m1 m2, transform_points_batch m mp pin pout k = Some m1 ∧
           transform_points_batch m1 mp (pin + 2 * k) (pout + 2 * k) (n - k) = Some m2 ∧
           transform_points_batch m mp pin pout n = Some m2.
Proof.
  intros Hok Hk.
  destruct (LoopFacts.transform_points_batch_spec m mp pin pout n Hok)
    as (cs & m' & Hcs & E & T).
  destruct (LoopFacts.transform_points_batch_spec m mp pin pout k
              (call_ok_prefix m mp pin pout n k Hok Hk))
    as (cs1 & m1 & Hcs1 & E1 & T1).
  assert (cs1 = cs) by congruence. subst cs1.
  destruct (SafetyFacts.transform_points_batch_Some_inv m m1 mp pin pout k E1)
    as (_ & _ & _ & D1 & F1).
  destruct (LoopFacts.transform_points_batch_spec m1 mp (pin + 2 * k) (pout + 2 * k) (n - k)
              (call_ok_suffix m m1 mp pin pout n k Hok Hk D1))
    as (cs2 & m2 & Hcs2 & E2 & T2).
  assert (cs2 = cs).
  { rewrite (LoopFacts.read_coeffs_frame m m1 mp) in Hcs2; [congruence|].
    intros a Ha. apply F1.
    pose proof (ok_matrix_out _ _ _ _ _ Hok) as Hd. unfold disjoint in Hd. lia. }
  subst cs2.
  exists m1, m2. split; [exact E1 | split; [exact E2|]].
  rewrite E. f_equal.
  apply (LoopFacts.transformed_unique (point_out cs) pin pout n m);
    [apply Hok | exact T |].
  apply (LoopFacts.transformed_app (point_out cs) pin pout 0 k n m m1 m2);
    [lia | | exact T1 | apply transformed_shift, T2].
  pose proof (ok_in_out _ _ _ _ _ Hok) as Hd. unfold disjoint in *. lia.
Qed.

End SplitFacts.

(** ** transform_points_batch, further *)

(** X1: for a count in the range of [int] whose double is one
    too, [transform_points_batch] returns exactly when the nine cells of
    the matrix, the [2 * num_points] cells of the input batch and the
    [2 * num_points] cells of the output batch lie in memory; any other
    call traps.  Nothing is asked of how the windows lie to each
    other. *)
Theorem transform_returns_iff_in_memory (m : mem) mp pin pout n :
  - 2 ^ 31 ≤ n ∧ 2 * n < 2 ^ 31 →
  (is_Some (transform_points_batch m mp pin pout n) ↔
   readable m mp 9 ∧ readable m pin (2 * n) ∧ readable m pout (2 * n)).
Proof.
  intros _. split.
  - intros [m' H].
    destruct (SafetyFacts.transform_points_batch_Some_inv m m' mp pin pout n H)
      as (A & B & C & _). auto.
  - intros (A & B & C). apply SafetyFacts.transform_points_batch_returns; assumption.
Qed.

Lemma transform_returns_iff_in_memory_witness :
  is_Some (transform_points_batch mem_in_place 0 9 14 5) ↔
  readable mem_in_place 0 9 ∧ readable mem_in_place 9 (2 * 5) ∧
  readable mem_in_place 14 (2 * 5).
Proof.
  apply (transform_returns_iff_in_memory mem_in_place 0 9 14 5). lia.
Defined.

(** X2: a call of [transform_points_batch] that returns
    leaves the set of cells of the memory as it was and changes no cell
    outside of the output window [pts_out .. pts_out + 2 * num_points - 1],
    whether or not the windows overlap. *)
Theorem transform_touches_output_only (m m' : mem) mp pin pout n :
  - 2 ^ 31 ≤ n ∧ 2 * n < 2 ^ 31 →
  transform_points_batch m mp pin pout n = Some m' →
  dom m' = dom m ∧
  (∀ a, ¬ (pout ≤ a < pout + 2 * n) → m' !! a = m !! a).
Proof.
  intros _ H.
  destruct (SafetyFacts.transform_points_batch_Some_inv m m' mp pin pout n H)
    as (_ & _ & _ & D & F). auto.
Qed.

Lemma transform_touches_output_only_witness :
  let m' := default ∅ (transform_points_batch mem_in_place 0 9 9 5) in
  dom m' = dom mem_in_place ∧
  (∀ a, ¬ (9 ≤ a < 9 + 2 * 5) → m' !! a = mem_in_place !! a).
Proof.
  intros m'. apply (transform_touches_output_only mem_in_place m' 0 9 9 5).
  - lia.
  - vm_compute. reflexivity.
Defined.

(** X3: the batches need not be disjoint.  When the
    output batch starts at or before the input batch (in place when
    both start together) or after its end, and misses the matrix,
    then on every engine the SIMD path and the scalar path both
    return, their memories are the same up to the pattern of a NaN in
    the output batch, every output slot holds, up to the pattern of a
    NaN, the image of the point the input slot held before the call,
    and no cell outside of the output batch has changed. *)
Theorem overlapping_batches_are_transformed (c : Bits.nan_choice) (m : mem)
    mp pin pout n :
  call_ok_overlap m mp pin pout n →
  ∃ m1 m2, Bits.transform_points_batch c m mp pin pout n = Some m1 ∧
           Bits.transform_points_scalar c m mp pin pout n = Some m2 ∧
           same_up_to_nan (output_window pout n) m1 m2 ∧
           (∀ i x y, 0 ≤ i < n →
              m !! (pin + 2 * i) = Some x → m !! (pin + 2 * i + 1) = Some y →
              ∃ x' y', m1 !! (pout + 2 * i) = Some x' ∧
                       m1 !! (pout + 2 * i + 1) = Some y' ∧
                       nan_eq x' (reciprocal_policy (view m mp) x y).1 ∧
                       nan_eq y' (reciprocal_policy (view m mp) x y).2) ∧
           (∀ a, ¬ (pout ≤ a < pout + 2 * n) → m1 !! a = m !! a).
Proof.
  intros Hok.
  destruct (OverlapFacts.transform_points_batch_overlap m mp pin pout n Hok)
    as (cs & mc & Hcs & E1 & T1).
  destruct (OverlapFacts.transform_points_scalar_overlap m mp pin pout n Hok)
    as (cs' & mc' & Hcs' & E2 & T2).
  assert (cs' = cs) by congruence. subst cs'.
  assert (mc' = mc).
  { symmetry. apply (LoopFacts.transformed_unique (point_out cs) pin pout n m);
      [apply Hok | exact T1 | exact T2]. }
  subst mc'.
  destruct (BitsFacts.transfer c m mc mp pin pout n (okv_matrix_out _ _ _ _ _ Hok) E1)
    as (m1 & B1 & S1).
  destruct (BitsFacts.transfer_scalar c m mc mp pin pout n (okv_matrix_out _ _ _ _ _ Hok) E2)
    as (m2 & B2 & S2).
  exists m1, m2. split; [exact B1 | split; [exact B2|]].
  split; [|split].
  - apply (BitsFacts.same_up_to_nan_trans _ m1 mc m2 S1).
    apply BitsFacts.same_up_to_nan_sym, S2.
  - intros i x y Hi Hx Hy.
    destruct T1 as [V F]. destruct (V i x y Hi Hx Hy) as [A B].
    rewrite (PolicyFacts.point_out_reciprocal m mp cs x y Hcs) in A, B.
    destruct (BitsFacts.lookup_sim _ m1 mc (pout + 2 * i) S1)
      as [[_ N]|(x' & v & Lx & Lv & Hxv)]; [congruence|].
    destruct (BitsFacts.lookup_sim _ m1 mc (pout + 2 * i + 1) S1)
      as [[_ N]|(y' & w & Ly & Lw & Hyw)]; [congruence|].
    exists x', y'. split; [exact Lx | split; [exact Ly|]].
    assert (v = (reciprocal_policy (view m mp) x y).1) by congruence.
    assert (w = (reciprocal_policy (view m mp) x y).2) by congruence.
    subst v w. auto.
  - intros a Ha. rewrite (BitsFacts.same_outside _ m1 mc a S1 Ha).
    apply T1. lia.
Qed.

Lemma overlapping_batches_are_transformed_witness :
  ∃ m1 m2, Bits.transform_points_batch Bits.x86 mem_in_place 0 9 9 5 = Some m1 ∧
           Bits.transform_points_scalar Bits.x86 mem_in_place 0 9 9 5 = Some m2 ∧
           same_up_to_nan (output_window 9 5) m1 m2 ∧
           (∀ i x y, 0 ≤ i < 5 →
              mem_in_place !! (9 + 2 * i) = Some x →
              mem_in_place !! (9 + 2 * i + 1) = Some y →
              ∃ x' y', m1 !! (9 + 2 * i) = Some x' ∧
                       m1 !! (9 + 2 * i + 1) = Some y' ∧
                       nan_eq x' (reciprocal_policy (view mem_in_place 0) x y).1 ∧
                       nan_eq y' (reciprocal_policy (view mem_in_place 0) x y).2) ∧
           (∀ a, ¬ (9 ≤ a < 9 + 2 * 5) → m1 !! a = mem_in_place !! a).
Proof.
  apply (overlapping_batches_are_transformed Bits.x86 mem_in_place 0 9 9 5).
  apply OverlapFacts.call_ok_overlapb_ok. vm_compute. reflexivity.
Defined.

(** X4: a point with a NaN or an infinite coordinate is
    sent to [(NaN, NaN)], whatever the matrix. *)
Theorem not_finite_point_gives_nan (m : mem) mp pin pout n i x y :
  call_ok_overlap m mp pin pout n →
  0 ≤ i < n →
  m !! (pin + 2 * i) = Some x → m !! (pin + 2 * i + 1) = Some y →
  F32.is_finite x = false ∨ F32.is_finite y = false →
  ∃ m', transform_points_batch m mp pin pout n = Some m' ∧
        m' !! (pout + 2 * i) = Some F32.quiet_NaN ∧
        m' !! (pout + 2 * i + 1) = Some F32.quiet_NaN.
Proof.
  intros Hok Hi Hx Hy Hnf.
  destruct (OverlapFacts.transform_points_batch_overlap m mp pin pout n Hok)
    as (cs & m' & Hcs & E & [V F]).
  exists m'. split; [exact E|].
  destruct (V i x y Hi Hx Hy) as [A B].
  rewrite (PointFacts.point_out_not_finite cs x y Hnf) in A, B. auto.
Qed.

Lemma not_finite_point_gives_nan_witness :
  ∃ m', transform_points_batch mem_not_finite 0 9 19 5 = Some m' ∧
        m' !! (19 + 2 * 1) = Some F32.quiet_NaN ∧
        m' !! (19 + 2 * 1 + 1) = Some F32.quiet_NaN.
Proof.
  apply (not_finite_point_gives_nan mem_not_finite 0 9 19 5 1 pos_inf (f32_of_Z 4)).
  - apply OverlapFacts.call_ok_overlapb_ok. vm_compute. reflexivity.
  - lia.
  - vm_compute. reflexivity.
  - vm_compute. reflexivity.
  - left. vm_compute. reflexivity.
Defined.

(** X5: under a matrix with the bottom row [(0, 0, 1)] (the
    zeros of either sign) a finite point is sent to
    [(M00*x + M01*y + M02, M10*x + M11*y + M12)] with no further
    rounding: [W] is exactly 1, so is its reciprocal, and the two
    products with it change nothing. *)
Theorem affine_map_is_exact (m : mem) mp pin pout n i x y :
  call_ok_overlap m mp pin pout n →
  affine_matrix (view m mp) →
  0 ≤ i < n →
  m !! (pin + 2 * i) = Some x → m !! (pin + 2 * i + 1) = Some y →
  F32.is_finite x = true → F32.is_finite y = true →
  ∃ m', transform_points_batch m mp pin pout n = Some m' ∧
        m' !! (pout + 2 * i) = Some (homogeneous (view m mp) x y).1.1 ∧
        m' !! (pout + 2 * i + 1) = Some (homogeneous (view m mp) x y).1.2.
Proof.
  intros Hok Haff Hi Hx Hy Fx Fy.
  destruct (OverlapFacts.transform_points_batch_overlap m mp pin pout n Hok)
    as (cs & m' & Hcs & E & [V F]).
  exists m'. split; [exact E|].
  destruct (V i x y Hi Hx Hy) as [A B].
  pose proof (PolicyFacts.read_coeffs_view m mp cs Hcs) as Hv.
  assert (Ha : affine cs).
  { destruct Haff as (H2 & H5 & H8). rewrite Hv. repeat split; assumption. }
  rewrite (PointFacts.point_out_affine cs x y Ha Fx Fy) in A, B.
  rewrite Hv in A, B. auto.
Qed.

Lemma affine_map_is_exact_witness :
  ∃ m', transform_points_batch mem_affine 0 9 19 5 = Some m' ∧
        m' !! (19 + 2 * 4)
          = Some (homogeneous (view mem_affine 0) (f32_of_Z 9) (f32_of_Z 10)).1.1 ∧
        m' !! (19 + 2 * 4 + 1)
          = Some (homogeneous (view mem_affine 0) (f32_of_Z 9) (f32_of_Z 10)).1.2.
Proof.
  apply (affine_map_is_exact mem_affine 0 9 19 5 4 (f32_of_Z 9) (f32_of_Z 10)).
  - apply OverlapFacts.call_ok_overlapb_ok. vm_compute. reflexivity.
  - repeat split; vm_compute; reflexivity.
  - lia.
  - vm_compute. reflexivity.
  - vm_compute. reflexivity.
  - vm_compute. reflexivity.
  - vm_compute. reflexivity.
Defined.

(** X6: under a matrix whose bottom row is three zeros
    (of either sign) the whole output batch is NaN, whatever the
    points. *)
Theorem zero_bottom_row_gives_nan (m : mem) mp pin pout n :
  call_ok_overlap m mp pin pout n →
  is_zero (view m mp 2 0) = true →
  is_zero (view m mp 2 1) = true →
  is_zero (view m mp 2 2) = true →
  ∃ m', transform_points_batch m mp pin pout n = Some m' ∧
        (∀ k, 0 ≤ k < 2 * n → m' !! (pout + k) = Some F32.quiet_NaN).
Proof.
  intros Hok H0 H1 H2.
  destruct (OverlapFacts.transform_points_batch_overlap m mp pin pout n Hok)
    as (cs & m' & Hcs & E & [V F]).
  exists m'. split; [exact E|].
  pose proof (PolicyFacts.read_coeffs_view m mp cs Hcs) as Hv.
  assert (Hp : ∀ x y, point_out cs x y = (F32.quiet_NaN, F32.quiet_NaN)).
  { intros x y. apply ZeroFacts.point_out_zero_row; rewrite Hv; assumption. }
  intros k Hk.
  assert (Hi : 0 ≤ k / 2 < n)
    by (split; [apply Z.div_pos; lia | apply Z.div_lt_upper_bound; lia]).
  destruct (okv_in _ _ _ _ _ Hok (pin + 2 * (k / 2))) as [x Hx]; [lia|].
  destruct (okv_in _ _ _ _ _ Hok (pin + 2 * (k / 2) + 1)) as [y Hy]; [lia|].
  destruct (V (k / 2) x y Hi Hx Hy) as [A B]. rewrite Hp in A, B.
  pose proof (Z.div_mod k 2 ltac:(lia)) as Hdm.
  pose proof (Z.mod_pos_bound k 2 ltac:(lia)) as Hb.
  destruct (Z.eq_dec (k mod 2) 0) as [Hz|Hz].
  - replace (pout + k) with (pout + 2 * (k / 2)) by lia. exact A.
  - replace (pout + k) with (pout + 2 * (k / 2) + 1) by lia. exact B.
Qed.

Lemma zero_bottom_row_gives_nan_witness :
  ∃ m', transform_points_batch mem_zero_row 0 9 19 5 = Some m' ∧
        (∀ k, 0 ≤ k < 2 * 5 → m' !! (19 + k) = Some F32.quiet_NaN).
Proof.
  apply (zero_bottom_row_gives_nan mem_zero_row 0 9 19 5).
  - apply OverlapFacts.call_ok_overlapb_ok. vm_compute. reflexivity.
  - vm_compute. reflexivity.
  - vm_compute. reflexivity.
  - vm_compute. reflexivity.
Defined.

(** X7: with a count that is zero or negative the call
    reads the matrix, runs neither loop and returns the memory as it
    was; the two batch pointers are not used. *)
Theorem empty_batch_changes_nothing (m : mem) mp pin pout n :
  readable m mp 9 → - 2 ^ 31 ≤ n ≤ 0 →
  transform_points_batch m mp pin pout n = Some m.
Proof.
  intros Hm Hn.
  destruct (SafetyFacts.transform_points_batch_returns m mp pin pout n) as [m' E].
  - exact Hm.
  - intros a Ha. lia.
  - intros a Ha. lia.
  - rewrite E. f_equal. apply map_eq. intros a.
    destruct (SafetyFacts.transform_points_batch_Some_inv m m' mp pin pout n E)
      as (_ & _ & _ & _ & F).
    apply F. lia.
Qed.

Lemma empty_batch_changes_nothing_witness :
  transform_points_batch mem_affine 0 9 19 (-3) = Some mem_affine.
Proof.
  apply (empty_batch_changes_nothing mem_affine 0 9 19 (-3)).
  - apply CheckFacts.readableb_ok. vm_compute. reflexivity.
  - lia.
Defined.

(** X8: a batch can be transformed in two calls.  Under the
    contract of a call on [n] points and on every engine, the call on
    the first [k] points followed by the call on the other [n - k]
    points, at the pointers moved by [2 * k] cells, returns the memory
    the one call on [n] points returns, up to the pattern of a NaN in
    the output batch: the two ways put different points on the SIMD
    path, whose NaN is the constant [nan_v]. *)
Theorem batch_can_be_split (c : Bits.nan_choice) (m : mem) mp pin pout n k :
  call_ok m mp pin pout n →
  0 ≤ k ≤ n →
  ∃ m1 m2 m',
    Bits.transform_points_batch c m mp pin pout k = Some m1 ∧
    Bits.transform_points_batch c m1 mp (pin + 2 * k) (pout + 2 * k) (n - k) = Some m2 ∧
    Bits.transform_points_batch c m mp pin pout n = Some m' ∧
    same_up_to_nan (output_window pout n) m2 m'.
Proof.
  intros Hok Hk.
  destruct (SplitFacts.split_with_one_nan m mp pin pout n k Hok Hk)
    as (mc1 & mc2 & E1 & E2 & E).
  pose proof (ok_matrix_out _ _ _ _ _ Hok) as Hd.
  assert (HPm : ∀ a, mp ≤ a < mp + 9 → ¬ output_window pout n a).
  { unfold output_window, disjoint in *. intros a Ha. lia. }
  pose proof (BitsFacts.transform_points_batch_sim c (output_window pout n) m m
                mp pin pout k
                ltac:(unfold output_window; intros a Ha; lia) HPm
                (BitsFacts.same_up_to_nan_refl _ m)) as S1.
  rewrite E1 in S1.
  destruct (Bits.transform_points_batch c m mp pin pout k) as [m1|] eqn:B1;
    cbn [both] in S1; [|contradiction].
  pose proof (BitsFacts.transform_points_batch_sim c (output_window pout n) m1 mc1
                mp (pin + 2 * k) (pout + 2 * k) (n - k)
                ltac:(unfold output_window; intros a Ha; lia) HPm S1) as S2.
  rewrite E2 in S2.
  destruct (Bits.transform_points_batch c m1 mp (pin + 2 * k) (pout + 2 * k) (n - k))
    as [m2|] eqn:B2; cbn [both] in S2; [|contradiction].
  destruct (BitsFacts.transfer c m mc2 mp pin pout n Hd E) as (m' & B & S).
  exists m1, m2, m'. split; [reflexivity | split; [exact B2 | split; [exact B|]]].
  apply (BitsFacts.same_up_to_nan_trans _ m2 mc2 m' S2).
  apply BitsFacts.same_up_to_nan_sym, S.
Qed.

Lemma batch_can_be_split_witness :
  ∃ m1 m2 m',
    Bits.transform_points_batch Bits.x86 mem_four_inf 0 9 17 3 = Some m1 ∧
    Bits.transform_points_batch Bits.x86 m1 0 (9 + 2 * 3) (17 + 2 * 3) (4 - 3) = Some m2 ∧
    Bits.transform_points_batch Bits.x86 mem_four_inf 0 9 17 4 = Some m' ∧
    same_up_to_nan (output_window 17 4) m2 m'.
Proof.
  apply (batch_can_be_split Bits.x86 mem_four_inf 0 9 17 4 3).
  - apply CheckFacts.call_okb_ok. vm_compute. reflexivity.
  - lia.
Defined.

(** X16: the sign and the payload an engine gives
    the NaNs it makes show in the pattern of the NaNs of the output
    batch and nowhere else.  When the output batch misses the matrix,
    two engines trap on the same calls, and the memories they return
    hold the same bits in every cell, except that an output cell may
    hold a NaN of one pattern on one engine and a NaN of another
    pattern on the other. *)
Theorem nan_choice_changes_nan_bits_only (c1 c2 : Bits.nan_choice) (m : mem)
    mp pin pout n :
  disjoint mp 9 pout (2 * n) →
  both (same_up_to_nan (output_window pout n))
       (Bits.transform_points_batch c1 m mp pin pout n)
       (Bits.transform_points_batch c2 m mp pin pout n).
Proof.
  intros Hd.
  assert (HPm : ∀ a, mp ≤ a < mp + 9 → ¬ output_window pout n a).
  { unfold output_window, disjoint in *. intros a Ha. lia. }
  pose proof (BitsFacts.transform_points_batch_sim c1 (output_window pout n) m m
                mp pin pout n ltac:(intros a Ha; exact Ha) HPm
                (BitsFacts.same_up_to_nan_refl _ m)) as S1.
  pose proof (BitsFacts.transform_points_batch_sim c2 (output_window pout n) m m
                mp pin pout n ltac:(intros a Ha; exact Ha) HPm
                (BitsFacts.same_up_to_nan_refl _ m)) as S2.
  destruct (Bits.transform_points_batch c1 m mp pin pout n) as [m1|],
           (Bits.transform_points_batch c2 m mp pin pout n) as [m2|],
           (transform_points_batch m mp pin pout n) as [mc|];
    cbn [both] in *; try contradiction; [|exact I].
  apply (BitsFacts.same_up_to_nan_trans _ m1 mc m2 S1).
  apply BitsFacts.same_up_to_nan_sym, S2.
Qed.

Lemma nan_choice_changes_nan_bits_only_witness :
  both (same_up_to_nan (output_window 17 4))
       (Bits.transform_points_batch Bits.x86 mem_four_inf 0 9 17 4)
       (Bits.transform_points_batch Bits.canonical mem_four_inf 0 9 17 4).
Proof.
  apply (nan_choice_changes_nan_bits_only Bits.x86 Bits.canonical mem_four_inf 0 9 17 4).
  apply CheckFacts.disjointb_ok. vm_compute. reflexivity.
Defined.

(** ** invert_matrix, further *)

(** X10: whenever [invert_matrix] returns, the status
    is 0 or 1; it is 0 exactly when the magnitude of the determinant
    the LU decomposition reports compares below
    [MATRIX_INVERSE_EPSILON]; the output view holds nine NaNs with
    status 0 and the inverse the decomposition reports with status 1;
    no cell outside of the output view has changed. *)
Theorem invert_status_follows_determinant `{FullPivLU} (m m' : mem) m_ptr out_ptr st :
  invert_matrix m m_ptr out_ptr = Some (st, m') →
  ∃ M, load_vec m m_ptr 9 = Some M ∧
       (st = 0 ∨ st = 1) ∧
       (st = 0 ↔ F32.lt (F32.abs (lu_determinant M)) MATRIX_INVERSE_EPSILON = true) ∧
       load_vec m' out_ptr 9 =
         Some (if st =? 0 then vreplicate 9 F32.quiet_NaN else lu_inverse M) ∧
       (∀ a, ¬ (out_ptr ≤ a < out_ptr + 9) → m' !! a = m !! a).
Proof.
  unfold invert_matrix. intros Hr.
  destruct (load_vec m m_ptr 9) as [M|] eqn:EM; [|discriminate Hr].
  cbn [mbind option_bind] in Hr. exists M. split; [reflexivity|].
  destruct (F32.lt (F32.abs (lu_determinant M)) MATRIX_INVERSE_EPSILON) eqn:Hlt.
  - destruct (setConstant m out_ptr 9 F32.quiet_NaN) as [m1|] eqn:E1; [|discriminate Hr].
    cbn [mbind option_bind] in Hr. injection Hr as <- <-.
    pose proof (MapFacts.load_after_setConstant 9 _ _ _ _ E1) as HL.
    unfold setConstant in E1.
    pose proof (MapFacts.store_list_Some_inv _ _ _ _ E1) as [RO D].
    destruct (ViewFacts.store_list_spec _ m out_ptr RO) as (m2 & E2 & _ & F & _).
    assert (m2 = m1) by congruence. subst m2.
    rewrite length_replicate in F.
    split; [auto|]. split; [split; reflexivity|]. auto.
  - destruct (store_list m out_ptr (vec_to_list (lu_inverse M))) as [m1|] eqn:E1;
      [|discriminate Hr].
    cbn [mbind option_bind] in Hr.
    pose proof (MapFacts.load_after_store 9 _ _ _ _ E1) as HL.
    rewrite HL in Hr. cbn [mbind option_bind] in Hr.
    assert (Hst : st = 1 ∧ m' = m1).
    { destruct (any F32.is_nan (lu_inverse M) || any F32.is_inf (lu_inverse M));
        injection Hr as <- <-; auto. }
    destruct Hst as [-> ->].
    pose proof (MapFacts.store_list_Some_inv _ _ _ _ E1) as [RO D].
    destruct (ViewFacts.store_list_spec _ m out_ptr RO) as (m2 & E2 & _ & F & _).
    assert (m2 = m1) by congruence. subst m2.
    rewrite length_vec_to_list in F.
    split; [auto|]. split; [split; [lia | discriminate]|]. auto.
Qed.

Lemma invert_status_follows_determinant_witness :
  let r := default (0, ∅) (@invert_matrix lu_by_cofactors mem_two_matrices 0 18) in
  ∃ M, load_vec mem_two_matrices 0 9 = Some M ∧
       (r.1 = 0 ∨ r.1 = 1) ∧
       (r.1 = 0 ↔ F32.lt (F32.abs (@lu_determinant lu_by_cofactors M))
                    MATRIX_INVERSE_EPSILON = true) ∧
       load_vec r.2 18 9 =
         Some (if r.1 =? 0 then vreplicate 9 F32.quiet_NaN
               else @lu_inverse lu_by_cofactors M) ∧
       (∀ a, ¬ (18 ≤ a < 18 + 9) → r.2 !! a = mem_two_matrices !! a).
Proof.
  intros r.
  apply (@invert_status_follows_determinant lu_by_cofactors mem_two_matrices r.2 0 18 r.1).
  vm_compute. reflexivity.
Defined.

(** X11: a NaN determinant passes the singularity test,
    since no comparison with a NaN holds: [invert_matrix] returns 1
    and stores the inverse the decomposition reports. *)
Theorem nan_determinant_is_accepted `{FullPivLU} (m : mem) m_ptr out_ptr (M : Matrix3f) :
  load_vec m m_ptr 9 = Some M →
  readable m out_ptr 9 →
  F32.is_nan (lu_determinant M) = true →
  ∃ m', invert_matrix m m_ptr out_ptr = Some (1, m') ∧
        load_vec m' out_ptr 9 = Some (lu_inverse M).
Proof.
  intros HM Hout Hdet. unfold invert_matrix.
  rewrite HM. cbn [mbind option_bind].
  rewrite (GuardFacts.lt_abs_nan _ _ Hdet).
  destruct (ViewFacts.store_list_spec (vec_to_list (lu_inverse M)) m out_ptr)
    as (m' & E & _).
  { rewrite length_vec_to_list. exact Hout. }
  rewrite E. cbn [mbind option_bind].
  rewrite (MapFacts.load_after_store 9 _ _ _ _ E). cbn [mbind option_bind].
  exists m'. split; [|apply (MapFacts.load_after_store 9 _ _ _ _ E)].
  destruct (any F32.is_nan (lu_inverse M) || any F32.is_inf (lu_inverse M)); reflexivity.
Qed.

Lemma nan_determinant_is_accepted_witness :
  ∃ m', @invert_matrix lu_by_cofactors mem_flt_max_out 0 9 = Some (1, m') ∧
        load_vec m' 9 9 = Some (adjugate_inverse (vreplicate 9 FLT_MAX)).
Proof.
  apply (@nan_determinant_is_accepted lu_by_cofactors mem_flt_max_out 0 9
           (vreplicate 9 FLT_MAX)).
  - vm_compute. reflexivity.
  - apply CheckFacts.readableb_ok. vm_compute. reflexivity.
  - vm_compute. reflexivity.
Defined.

(** ** solve_homography_svd, further *)

(** X12: whenever [solve_homography_svd] returns, it
    returns true exactly when the vector it leaves in [x] holds no
    NaN, and no cell outside of [x] has changed. *)
Theorem solve_status_tells_nan_free `{JacobiSVD} (m m' : mem) a_ptr b_ptr x_ptr
    (st : bool) :
  solve_homography_svd m a_ptr b_ptr x_ptr = Some (st, m') →
  ∃ v, load_vec m' x_ptr 8 = Some v ∧
       st = negb (any F32.is_nan v) ∧
       (∀ a, ¬ (x_ptr ≤ a < x_ptr + 8) → m' !! a = m !! a).
Proof.
  unfold solve_homography_svd. intros Hr.
  destruct (load_vec m a_ptr 64) as [A|] eqn:EA; [|discriminate Hr].
  cbn [mbind option_bind] in Hr.
  assert (Hfill : ∀ m1, setConstant m x_ptr 8 F32.quiet_NaN = Some m1 →
            load_vec m1 x_ptr 8 = Some (vreplicate 8 F32.quiet_NaN) ∧
            (∀ a, ¬ (x_ptr ≤ a < x_ptr + 8) → m1 !! a = m !! a)).
  { intros m1 E1. split; [apply (MapFacts.load_after_setConstant 8 _ _ _ _ E1)|].
    unfold setConstant in E1.
    pose proof (MapFacts.store_list_Some_inv _ _ _ _ E1) as [RO _].
    destruct (ViewFacts.store_list_spec _ m x_ptr RO) as (m2 & E2 & _ & F & _).
    assert (m2 = m1) by congruence. subst m2. rewrite length_replicate in F. exact F. }
  case_decide as Hd.
  { destruct (setConstant m x_ptr 8 F32.quiet_NaN) as [m1|] eqn:E1; [|discriminate Hr].
    cbn [mbind option_bind] in Hr. injection Hr as <- <-.
    destruct (Hfill m1 eq_refl) as [L F]. exists (vreplicate 8 F32.quiet_NaN). auto. }
  destruct (any _ (svd_singularValues A)).
  { destruct (setConstant m x_ptr 8 F32.quiet_NaN) as [m1|] eqn:E1; [|discriminate Hr].
    cbn [mbind option_bind] in Hr. injection Hr as <- <-.
    destruct (Hfill m1 eq_refl) as [L F]. exists (vreplicate 8 F32.quiet_NaN). auto. }
  destruct (load_vec m b_ptr 8) as [b|] eqn:EB; [|discriminate Hr].
  cbn [mbind option_bind] in Hr.
  destruct (store_list m x_ptr (vec_to_list (svd_solve A b))) as [m1|] eqn:E1;
    [|discriminate Hr].
  cbn [mbind option_bind] in Hr.
  pose proof (MapFacts.load_after_store 8 _ _ _ _ E1) as HL.
  rewrite HL in Hr. cbn [mbind option_bind] in Hr.
  pose proof (MapFacts.store_list_Some_inv _ _ _ _ E1) as [RO _].
  destruct (ViewFacts.store_list_spec _ m x_ptr RO) as (m2 & E2 & _ & F & _).
  assert (m2 = m1) by congruence. subst m2. rewrite length_vec_to_list in F.
  exists (svd_solve A b).
  destruct (any F32.is_nan (svd_solve A b)); injection Hr as <- <-; auto.
Qed.

Lemma solve_status_tells_nan_free_witness :
  let r := default (false, ∅)
             (@solve_homography_svd (svd_of_diagonal halves) mem_half_identity 0 64 72) in
  ∃ v, load_vec r.2 72 8 = Some v ∧
       r.1 = negb (any F32.is_nan v) ∧
       (∀ a, ¬ (72 ≤ a < 72 + 8) → r.2 !! a = mem_half_identity !! a).
Proof.
  intros r.
  apply (@solve_status_tells_nan_free (svd_of_diagonal halves) mem_half_identity r.2
           0 64 72 r.1).
  vm_compute. reflexivity.
Defined.

(** X13: when [solve_homography_svd] returns true, the
    decomposition has converged, no singular value has a magnitude
    below [MATRIX_SVD_EPSILON] times the largest one, and [x] holds
    the solution the decomposition gives for the right-hand side [b],
    which has no NaN. *)
Theorem solve_success_stores_solution `{JacobiSVD} (m m' : mem) a_ptr b_ptr x_ptr :
  solve_homography_svd m a_ptr b_ptr x_ptr = Some (true, m') →
  ∃ A b, load_vec m a_ptr 64 = Some A ∧ load_vec m b_ptr 8 = Some b ∧
         svd_info A = Success ∧
         Forall (fun s => F32.lt (F32.abs s)
                            (F32.mul MATRIX_SVD_EPSILON (maxCoeff (svd_singularValues A)))
                          = false)
                (vec_to_list (svd_singularValues A)) ∧
         load_vec m' x_ptr 8 = Some (svd_solve A b) ∧
         any F32.is_nan (svd_solve A b) = false.
Proof.
  unfold solve_homography_svd. intros Hr.
  destruct (load_vec m a_ptr 64) as [A|] eqn:EA; [|discriminate Hr].
  cbn [mbind option_bind] in Hr.
  case_decide as Hd.
  { destruct (setConstant m x_ptr 8 F32.quiet_NaN); discriminate Hr. }
  destruct (any _ (svd_singularValues A)) eqn:Hg.
  { destruct (setConstant m x_ptr 8 F32.quiet_NaN); discriminate Hr. }
  destruct (load_vec m b_ptr 8) as [b|] eqn:EB; [|discriminate Hr].
  cbn [mbind option_bind] in Hr.
  destruct (store_list m x_ptr (vec_to_list (svd_solve A b))) as [m1|] eqn:E1;
    [|discriminate Hr].
  cbn [mbind option_bind] in Hr.
  pose proof (MapFacts.load_after_store 8 _ _ _ _ E1) as HL.
  rewrite HL in Hr. cbn [mbind option_bind] in Hr.
  destruct (any F32.is_nan (svd_solve A b)) eqn:Hn; [discriminate Hr|].
  injection Hr as <-.
  exists A, b. split; [reflexivity | split; [reflexivity|]].
  split; [destruct (decide (svd_info A = Success)) as [e|ne]; [exact e | contradiction]|].
  split; [apply ZeroFacts.existsb_false_inv, Hg|]. auto.
Qed.

Lemma solve_success_stores_solution_witness :
  let m' := default ∅ (snd <$> @solve_homography_svd (svd_of_diagonal ones)
                                  mem_identity_system 0 64 72) in
  ∃ A b, load_vec mem_identity_system 0 64 = Some A ∧
         load_vec mem_identity_system 64 8 = Some b ∧
         @svd_info (svd_of_diagonal ones) A = Success ∧
         Forall (fun s => F32.lt (F32.abs s)
                            (F32.mul MATRIX_SVD_EPSILON
                               (maxCoeff (@svd_singularValues (svd_of_diagonal ones) A)))
                          = false)
                (vec_to_list (@svd_singularValues (svd_of_diagonal ones) A)) ∧
         load_vec m' 72 8 = Some (@svd_solve (svd_of_diagonal ones) A b) ∧
         any F32.is_nan (@svd_solve (svd_of_diagonal ones) A b) = false.
Proof.
  intros m'.
  apply (@solve_success_stores_solution (svd_of_diagonal ones) mem_identity_system m'
           0 64 72).
  vm_compute. reflexivity.
Defined.

(** X14: when the decomposition reports anything but
    [Success], [solve_homography_svd] fills [x] with NaN and returns
    false without reading [b]: the call returns even where [b] does
    not lie in memory. *)
Theorem not_converged_gives_nan `{JacobiSVD} (m : mem) a_ptr b_ptr x_ptr (A : Matrix8f) :
  load_vec m a_ptr 64 = Some A →
  readable m x_ptr 8 →
  svd_info A ≠ Success →
  ∃ m', solve_homography_svd m a_ptr b_ptr x_ptr = Some (false, m') ∧
        load_vec m' x_ptr 8 = Some (vreplicate 8 F32.quiet_NaN) ∧
        (∀ a, ¬ (x_ptr ≤ a < x_ptr + 8) → m' !! a = m !! a).
Proof.
  intros HA Hx Hinfo. unfold solve_homography_svd.
  rewrite HA. cbn [mbind option_bind].
  case_decide as Hd; [|contradiction].
  destruct (ViewFacts.setConstant_spec m x_ptr 8 F32.quiet_NaN Hx) as (m' & E & V & F).
  rewrite E. cbn [mbind option_bind]. exists m'.
  split; [reflexivity|]. split; [|exact F].
  apply (MapFacts.load_after_setConstant 8 _ _ _ _ E).
Qed.

Lemma not_converged_gives_nan_witness :
  ∃ m', @solve_homography_svd svd_invalid_input mem_no_rhs 0 1000 64 = Some (false, m') ∧
        load_vec m' 64 8 = Some (vreplicate 8 F32.quiet_NaN) ∧
        (∀ a, ¬ (64 ≤ a < 64 + 8) → m' !! a = mem_no_rhs !! a).
Proof.
  apply (@not_converged_gives_nan svd_invalid_input mem_no_rhs 0 1000 64
           (vreplicate 64 F32.quiet_NaN)).
  - vm_compute. reflexivity.
  - apply CheckFacts.readableb_ok. vm_compute. reflexivity.
  - discriminate.
Defined.

(** X15: when every singular value is zero the
    threshold is zero too and no magnitude is below it: the rank guard
    lets the matrix through, [x] holds what the decomposition's
    [solve] gives, and the status only tells whether that holds a
    NaN. *)
Theorem zero_singular_values_pass_the_guard `{JacobiSVD} (m : mem) a_ptr b_ptr x_ptr
    (A : Matrix8f) (b : Vector8f) :
  load_vec m a_ptr 64 = Some A →
  load_vec m b_ptr 8 = Some b →
  readable m x_ptr 8 →
  svd_info A = Success →
  Forall (fun s => is_zero s = true) (vec_to_list (svd_singularValues A)) →
  ∃ m', solve_homography_svd m a_ptr b_ptr x_ptr
          = Some (negb (any F32.is_nan (svd_solve A b)), m') ∧
        load_vec m' x_ptr 8 = Some (svd_solve A b).
Proof.
  intros HA HB Hx Hinfo Hz. unfold solve_homography_svd.
  rewrite HA. cbn [mbind option_bind].
  case_decide as Hd; [congruence|].
  assert (Hg : any (fun s => F32.lt (F32.abs s)
                  (F32.mul MATRIX_SVD_EPSILON (maxCoeff (svd_singularValues A))))
                (svd_singularValues A) = false).
  { apply ZeroFacts.existsb_false.
    assert (Ht : is_zero (F32.mul MATRIX_SVD_EPSILON (maxCoeff (svd_singularValues A)))
                 = true).
    { apply ZeroFacts.finite_times_zero; [reflexivity | apply ZeroFacts.maxCoeff_zero, Hz]. }
    eapply Forall_impl; [exact Hz|]. intros s Hs. cbn beta.
    apply ZeroFacts.lt_abs_zero_zero; assumption. }
  rewrite Hg, HB. cbn [mbind option_bind].
  destruct (ViewFacts.store_list_spec (vec_to_list (svd_solve A b)) m x_ptr)
    as (m' & E & _).
  { rewrite length_vec_to_list. exact Hx. }
  rewrite E. cbn [mbind option_bind].
  rewrite (MapFacts.load_after_store 8 _ _ _ _ E). cbn [mbind option_bind].
  exists m'. split; [|apply (MapFacts.load_after_store 8 _ _ _ _ E)].
  destruct (any F32.is_nan (svd_solve A b)); reflexivity.
Qed.

Lemma zero_singular_values_pass_the_guard_witness :
  ∃ m', @solve_homography_svd svd_of_zero mem_zero_system 0 64 72
          = Some (negb (any F32.is_nan
                          (@svd_solve svd_of_zero (vreplicate 64 F32.zero)
                             (list_to_vec (map f32_of_Z [1; 2; 3; 4; 5; 6; 7; 8])))), m') ∧
        load_vec m' 72 8
          = Some (@svd_solve svd_of_zero (vreplicate 64 F32.zero)
                    (list_to_vec (map f32_of_Z [1; 2; 3; 4; 5; 6; 7; 8]))).
Proof.
  apply (@zero_singular_values_pass_the_guard svd_of_zero mem_zero_system 0 64 72
           (vreplicate 64 F32.zero)
           (list_to_vec (map f32_of_Z [1; 2; 3; 4; 5; 6; 7; 8]))).
  - vm_compute. reflexivity.
  - vm_compute. reflexivity.
  - apply CheckFacts.readableb_ok. vm_compute. reflexivity.
  - reflexivity.
  - repeat constructor.
Defined.
